(** * sopa.segmentation: patch consolidation

    Shallow embedding of [sopa/segmentation/shapes.py] (conflict resolution,
    polygon canonicalization, geometrization, radius expansion) and of the
    Baysor patch runner of [sopa/segmentation/methods/_baysor.py].

    Python exceptions are values of [exception]; a fallible function returns
    [result A]. Calls into shapely, numpy, cv2 and the operating system are
    parameters of the sections that use them. *)

From Stdlib Require Import QArith Qabs Qround Reals Lra Sorted.
From Stdlib Require Lqa.
From stdpp Require Import base list gmap strings.

(** ** Exceptions *)

Inductive exception :=
| AssertionError (msg : string)
| IndexError
| ValueError (msg : string)
| RuntimeError (msg : string).

Definition result (A : Type) : Type := exception + A.

Definition raise {A} (e : exception) : result A := inl e.
Definition ret {A} (x : A) : result A := inr x.

Definition bind {A B} (m : result A) (k : A → result B) : result B :=
  match m with
  | inl e => inl e
  | inr x => k x
  end.

Notation "x <- m ;; k" := (bind m (fun x => k))
  (at level 100, m at next level, right associativity).

(** [l[i]] on a Python list or a numpy array, for a non-negative [i] *)
Definition getitem {A} (l : list A) (i : nat) : result A :=
  match l !! i with
  | Some x => ret x
  | None => raise IndexError
  end.

Fixpoint mapM {A B} (f : A → result B) (l : list A) : result (list B) :=
  match l with
  | [] => ret []
  | x :: l' => y <- f x ;; ys <- mapM f l' ;; ret (y :: ys)
  end.

Fixpoint foldM {A S} (f : S → A → result S) (s : S) (l : list A) : result S :=
  match l with
  | [] => ret s
  | x :: l' => s' <- f s x ;; foldM f s' l'
  end.

(** ** Geometries

    The shapely classes the module handles. [F] is the type of Python
    floats. A polygon is its exterior ring and its interior rings (holes);
    [Polygon()] has no coordinates at all. [GOther] stands for a geometry
    of any other class (multi-line strings, multi-points, ...), of which
    only the class name is ever read. *)

Set Warnings "-register-all,-clear-no-such-hyp".

Section Geometry.
Context {F : Type}.

Definition coords : Type := list (F * F).

Record Polygon := mkPolygon {
  exterior : coords;
  interiors : list coords
}.

Inductive geometry :=
| GPolygon (p : Polygon)
| GMultiPolygon (geoms : list Polygon)
| GGeometryCollection (geoms : list geometry)
| GLineString (c : coords)
| GPoint (c : F * F)
| GOther (class_name : string).

(** [Polygon()] *)
Definition empty_polygon : Polygon := mkPolygon [] [].

(** [polygon.is_empty] *)
Definition is_empty (p : Polygon) : bool :=
  match exterior p with
  | [] => true
  | _ => false
  end.

(** [isinstance(geom, Polygon)] and [isinstance(geom, MultiPolygon)] as
    the list comprehensions of [_ensure_polygon] use them *)
Definition as_polygon (g : geometry) : option Polygon :=
  match g with
  | GPolygon p => Some p
  | _ => None
  end.

Definition as_multi_polygon (g : geometry) : option (list Polygon) :=
  match g with
  | GMultiPolygon ps => Some ps
  | _ => None
  end.

(** The invariant the specification asks of a canonical cell: one ring. *)
Definition single_ring (p : Polygon) : Prop := interiors p = [].
End Geometry.

Arguments Polygon : clear implicits.
Arguments geometry : clear implicits.
Arguments coords : clear implicits.

(** ** [_ensure_polygon] *)

Section EnsurePolygon.
Context {F : Type}.
(** [geom.area], [shapely.make_valid] and [<] on floats *)
Variable area : geometry F → F.
Variable make_valid : geometry F → geometry F.
Variable flt : F → F → bool.

(** The loop of Python's [max(..., key=...)]: the running maximum is
    replaced only by a strictly greater key, so the first maximal item
    wins. *)
Fixpoint max_from {A} (key : A → F) (best : A) (l : list A) : A :=
  match l with
  | [] => best
  | x :: l' =>
      if flt (key best) (key x) then max_from key x l' else max_from key best l'
  end.

Definition py_max {A} (key : A → F) (l : list A) : result A :=
  match l with
  | [] => raise (ValueError "max() arg is an empty sequence")
  | x :: l' => ret (max_from key x l')
  end.

Definition polygon_area (p : Polygon F) : F := area (GPolygon p).

Definition _ensure_polygon (cell : geometry F) : result (Polygon F) :=
  let cell := make_valid cell in
  match cell with
  | GPolygon p =>
      match interiors p with
      | [] => ret p
      | _ :: _ => ret (mkPolygon (exterior p) [])
      end
  | GMultiPolygon geoms => py_max polygon_area geoms
  | GGeometryCollection members =>
      let geoms := omap as_polygon members in
      match geoms with
      | _ :: _ => py_max polygon_area geoms
      | [] =>
          let geoms := omap as_multi_polygon members in
          let geoms := concat geoms in
          match geoms with
          | _ :: _ => py_max polygon_area geoms
          | [] => ret empty_polygon
          end
      end
  | _ => ret empty_polygon
  end.

(** The [log.warning] calls of [_ensure_polygon], in order: they write to
    the logger and do not change what is returned. *)
Definition type_name (g : geometry F) : string :=
  match g with
  | GPolygon _ => "<class 'shapely.geometry.polygon.Polygon'>"
  | GMultiPolygon _ => "<class 'shapely.geometry.multipolygon.MultiPolygon'>"
  | GGeometryCollection _ => "<class 'shapely.geometry.collection.GeometryCollection'>"
  | GLineString _ => "<class 'shapely.geometry.linestring.LineString'>"
  | GPoint _ => "<class 'shapely.geometry.point.Point'>"
  | GOther class_name => "<class '" +:+ class_name +:+ "'>"
  end.

Definition _ensure_polygon_warnings (cell : geometry F) : list string :=
  let cell := make_valid cell in
  match cell with
  | GPolygon _ | GMultiPolygon _ => []
  | GGeometryCollection members =>
      match omap as_polygon members, concat (omap as_multi_polygon members) with
      | [], [] =>
          ["Removing cell of type " +:+ type_name cell
             +:+ " as it contains no Polygon geometry"]
      | _, _ => []
      end
  | _ => ["Removing cell of unknown type " +:+ type_name cell]
  end.
End EnsurePolygon.

(** ** GeoDataFrame

    A frame is its index labels and its geometry column. *)

Record GeoDataFrame (G : Type) := mkFrame {
  index : list nat;
  geometry_col : list G
}.
Arguments mkFrame {G} _ _.
Arguments index {G} _.
Arguments geometry_col {G} _.

(** [gpd.GeoDataFrame(geometry=cells)]: a fresh range index *)
Definition frame_of_list {G} (cells : list G) : GeoDataFrame G :=
  mkFrame (seq 0 (length cells)) cells.

(** [df.iloc[positions]] *)
Definition iloc {G} (df : GeoDataFrame G) (positions : list nat)
  : result (GeoDataFrame G) :=
  labels <- mapM (getitem (index df)) positions ;;
  geoms <- mapM (getitem (geometry_col df)) positions ;;
  ret (mkFrame labels geoms).

(** ** numpy helpers *)

(** [np.unique]: the sorted distinct values *)
Fixpoint insert_unique (x : nat) (l : list nat) : list nat :=
  match l with
  | [] => [x]
  | y :: l' =>
      if (x <? y)%nat then x :: l
      else if (x =? y)%nat then l
      else y :: insert_unique x l'
  end.

Definition np_unique (l : list nat) : list nat := foldr insert_unique [] l.

(** [np.isin(x, values)] on one entry *)
Definition isin (x : nat) (values : list nat) : bool :=
  existsb (Nat.eqb x) values.

(** ** [solve_conflicts] *)

Section SolveConflicts.
Context {F : Type}.
Variable area : geometry F → F.
Variable make_valid : geometry F → geometry F.
(** [a < b], [a <= b] and [a * b] on floats *)
Variable flt : F → F → bool.
Variable fle : F → F → bool.
Variable fmul : F → F → F.
(** [cell1.intersection(cell2)] and [cell1.union(cell2)] *)
Variable intersection : Polygon F → Polygon F → geometry F.
Variable union : Polygon F → Polygon F → geometry F.
(** [shapely.STRtree(cells).query(cells, predicate="intersects")]: the
    pairs (input index, tree index) of intersecting cells, in the order
    the index yields them *)
Variable query : list (Polygon F) → list (nat * nat).

(** Python's [min(a, b)] *)
Definition py_min (a b : F) : F := if flt b a then b else a.

(** the test of line 51 *)
Definition merge_test (threshold : F) (cell1 cell2 : Polygon F) : bool :=
  fle (fmul threshold (py_min (polygon_area area cell1) (polygon_area area cell2)))
      (area (intersection cell1 cell2)).

(** lines 40-43: candidate pairs kept *)
Definition filter_conflicts (patch_indices : option (list Z))
    (conflicts : list (nat * nat)) : result (list (nat * nat)) :=
  match patch_indices with
  | Some patch_indices =>
      tagged <- mapM (fun p : nat * nat =>
                  t1 <- getitem patch_indices p.1 ;;
                  t2 <- getitem patch_indices p.2 ;;
                  ret (p, negb (t1 =? t2)%Z)) conflicts ;;
      ret (map fst (filter (fun x : (nat * nat) * bool => x.2 = true) tagged))
  | None =>
      ret (filter (fun p : nat * nat => p.1 ≠ p.2) conflicts)
  end.

(** line 55 *)
Definition repoint (resolved_indices : list nat) (olds : list nat) (new : nat)
  : list nat :=
  map (fun r => if isin r olds then new else r) resolved_indices.

(** one iteration of the loop of lines 45-56 *)
Definition resolve_pair (threshold : F)
    (st : list nat * list (Polygon F)) (p : nat * nat)
  : result (list nat * list (Polygon F)) :=
  let resolved_indices := st.1 in
  let cells := st.2 in
  resolved_i1 <- getitem resolved_indices p.1 ;;
  resolved_i2 <- getitem resolved_indices p.2 ;;
  cell1 <- getitem cells resolved_i1 ;;
  cell2 <- getitem cells resolved_i2 ;;
  if merge_test threshold cell1 cell2 then
    cell <- _ensure_polygon area make_valid flt (union cell1 cell2) ;;
    if is_empty cell then raise (AssertionError "Merged cell is empty")
    else
      ret (repoint resolved_indices [resolved_i1; resolved_i2] (length cells),
           cells ++ [cell])
  else ret st.

Definition solve_conflicts (cells : list (Polygon F)) (threshold : F)
    (patch_indices : option (list Z)) (return_indices : bool)
  : result (GeoDataFrame (Polygon F) * option (list Z)) :=
  let n_cells := length cells in
  let resolved_indices := seq 0 n_cells in
  if (n_cells =? 0)%nat
  then raise (AssertionError "No cells was segmented, cannot continue")
  else
    let conflicts := query cells in
    conflicts <- filter_conflicts patch_indices conflicts ;;
    st <- foldM (resolve_pair threshold) (resolved_indices, cells) conflicts ;;
    let unique_indices := np_unique st.1 in
    unique_cells <- iloc (frame_of_list st.2) unique_indices ;;
    if return_indices then
      ret (unique_cells,
           Some (map (fun u => if (u <? n_cells)%nat then Z.of_nat u else (-1)%Z)
                     unique_indices))
    else ret (unique_cells, None).

(** *** Notions used to state the properties of the loop *)

(** a cell created by a merge *)
Definition merge_product (c : Polygon F) : Prop :=
  ∃ c1 c2, _ensure_polygon area make_valid flt (union c1 c2) = inr c ∧
           is_empty c = false.

(** what every state of the loop satisfies: one entry per original cell,
    each pointing into the list of cells, which is the original list
    followed by merge products *)
Definition resolved_ok (cells : list (Polygon F))
    (st : list nat * list (Polygon F)) : Prop :=
  length st.1 = length cells ∧
  Forall (fun r => r < length st.2) st.1 ∧
  ∃ extra, st.2 = cells ++ extra ∧ Forall merge_product extra.

(** For a chain A - B - C: the cells B can have been merged into, that is
    B and every cell the loop creates from such a cell and A, C or the
    cell itself. The two flags tell what the cell is made of: the first can
    be set only when A has been merged in on the way from B, the second only
    when C has. So [hub true true M] says that M is a merge of all three. *)
Inductive hub (threshold : F) (A B C : Polygon F) : bool → bool → Polygon F → Prop :=
| hub_start : hub threshold A B C false false B
| hub_left a c a' c' X Y M :
    hub threshold A B C a c X → Y ∈ [A; C; X] →
    merge_test threshold X Y = true →
    _ensure_polygon area make_valid flt (union X Y) = inr M →
    (a' = true → a = true ∨ Y = A) → (c' = true → c = true ∨ Y = C) →
    hub threshold A B C a' c' M
| hub_right a c a' c' X Y M :
    hub threshold A B C a c X → Y ∈ [A; C] →
    merge_test threshold Y X = true →
    _ensure_polygon area make_valid flt (union Y X) = inr M →
    (a' = true → a = true ∨ Y = A) → (c' = true → c = true ∨ Y = C) →
    hub threshold A B C a' c' M.

(** The merge condition keeps holding along the chain: every cell B has
    been merged into passes the test of line 51 against A and against C,
    in both orders, and the canonicalized unions are not empty. *)
Definition chain_mergeable (threshold : F) (A B C : Polygon F) : Prop :=
  (∀ a c X Y, hub threshold A B C a c X → Y ∈ [A; C] →
     merge_test threshold X Y = true ∧ merge_test threshold Y X = true) ∧
  (∀ a c X Y, hub threshold A B C a c X → Y ∈ [A; C; X] →
     ∃ M, _ensure_polygon area make_valid flt (union X Y) = inr M ∧
          is_empty M = false) ∧
  (∀ a c X Y, hub threshold A B C a c X → Y ∈ [A; C] →
     ∃ M, _ensure_polygon area make_valid flt (union Y X) = inr M ∧
          is_empty M = false).

(** the candidate pairs of a chain, self-pairs removed *)
Definition chain_conflicts : list (nat * nat) := [(0, 1); (1, 0); (1, 2); (2, 1)].

(** the pairs a spatial index reports for a chain: A and C do not
    intersect *)
Definition chain_query : list (nat * nat) :=
  [(0, 0); (0, 1); (1, 0); (1, 1); (1, 2); (2, 1); (2, 2)].

(** the states of the loop on a chain; [a] ([c]) tells that a pair with A
    (with C) has been processed, and then A (C) is part of the cell that B
    points to *)
Definition chain_state (threshold : F) (A B C : Polygon F) (a c : bool)
    (st : list nat * list (Polygon F)) : Prop :=
  ∃ r0 r1 r2 extra X,
    st.1 = [r0; r1; r2] ∧ st.2 = [A; B; C] ++ extra ∧
    (r1 = 1 ∨ 3 ≤ r1) ∧ st.2 !! r1 = Some X ∧ hub threshold A B C a c X ∧
    ((a = true ∧ r0 = r1) ∨ (a = false ∧ r0 = 0)) ∧
    ((c = true ∧ r2 = r1) ∨ (c = false ∧ r2 = 2)).
End SolveConflicts.

(** ** Rectangles of a strip, with exact arithmetic

    An instance of the shapely and float operations for the examples: the
    cells are axis-aligned rectangles with rational corners that share their
    vertical extent. On these, intersection, union and area below are what
    shapely computes; all the numbers of the examples are small integers and
    0.5, on which binary64 arithmetic is exact. *)

Module Boxes.
Local Open Scope Q_scope.

(** [shapely.box(minx, miny, maxx, maxy)] *)
Definition box (minx miny maxx maxy : Q) : Polygon Q :=
  mkPolygon
    [(maxx, miny); (maxx, maxy); (minx, maxy); (minx, miny); (maxx, miny)] [].

Definition flt (a b : Q) : bool := negb (Qle_bool b a).
Definition fle (a b : Q) : bool := Qle_bool a b.
Definition fmul (a b : Q) : Q := Qred (a * b).
Definition qmin (a b : Q) : Q := if flt b a then b else a.
Definition qmax (a b : Q) : Q := if flt a b then b else a.

(** shoelace sum of a closed ring *)
Fixpoint shoelace (c : coords Q) : Q :=
  match c with
  | p1 :: (p2 :: _) as rest => p1.1 * p2.2 - p2.1 * p1.2 + shoelace rest
  | _ => 0
  end.

Definition ring_area (c : coords Q) : Q := Qabs (shoelace c) / 2.

Definition sumQ (l : list Q) : Q := foldr Qplus 0 l.

Definition area_polygon (p : Polygon Q) : Q :=
  Qred (ring_area (exterior p) - sumQ (map ring_area (interiors p))).

Fixpoint area (g : geometry Q) : Q :=
  match g with
  | GPolygon p => area_polygon p
  | GMultiPolygon ps => Qred (sumQ (map area_polygon ps))
  | GGeometryCollection gs =>
      Qred ((fix go (l : list (geometry Q)) : Q :=
               match l with
               | [] => 0
               | g' :: l' => area g' + go l'
               end) gs)
  | GLineString _ => 0
  | GPoint _ => 0
  | GOther _ => 0
  end.

(** [polygon.bounds] as (minx, miny, maxx, maxy) *)
Definition bounds (p : Polygon Q) : option (Q * Q * Q * Q) :=
  match exterior p with
  | [] => None
  | c :: cs =>
      Some (foldr (fun (pt : Q * Q) (b : Q * Q * Q * Q) =>
                     (qmin pt.1 b.1.1.1, qmin pt.2 b.1.1.2,
                      qmax pt.1 b.1.2, qmax pt.2 b.2))
                  (c.1, c.2, c.1, c.2) cs)
  end.

(** the [intersects] predicate: the closed rectangles share a point *)
Definition intersects (p1 p2 : Polygon Q) : bool :=
  match bounds p1, bounds p2 with
  | Some (ax0, ay0, ax1, ay1), Some (bx0, by0, bx1, by1) =>
      fle ax0 bx1 && fle bx0 ax1 && fle ay0 by1 && fle by0 ay1
  | _, _ => false
  end.

Definition intersection (p1 p2 : Polygon Q) : geometry Q :=
  match bounds p1, bounds p2 with
  | Some (ax0, ay0, ax1, ay1), Some (bx0, by0, bx1, by1) =>
      let x0 := qmax ax0 bx0 in
      let y0 := qmax ay0 by0 in
      let x1 := qmin ax1 bx1 in
      let y1 := qmin ay1 by1 in
      if flt x0 x1 && flt y0 y1 then GPolygon (box x0 y0 x1 y1)
      else if fle x0 x1 && fle y0 y1 then GLineString [(x0, y0); (x1, y1)]
      else GPolygon empty_polygon
  | _, _ => GPolygon empty_polygon
  end.

Definition union (p1 p2 : Polygon Q) : geometry Q :=
  match bounds p1, bounds p2 with
  | Some (ax0, ay0, ax1, ay1), Some (bx0, by0, bx1, by1) =>
      if intersects p1 p2
      then GPolygon (box (qmin ax0 bx0) (qmin ay0 by0) (qmax ax1 bx1) (qmax ay1 by1))
      else GMultiPolygon [p1; p2]
  | Some _, None => GPolygon p1
  | None, _ => GPolygon p2
  end.

(** [shapely.make_valid]: a valid geometry is returned as it is; a polygon
    without area collapses to its line. *)
Definition make_valid (g : geometry Q) : geometry Q :=
  match g with
  | GPolygon p =>
      if is_empty p then g
      else if Qeq_bool (area_polygon p) 0 then GLineString (exterior p)
      else g
  | _ => g
  end.

(** a reference spatial query: all intersecting pairs, by input index and
    then by tree index *)
Definition query (cells : list (Polygon Q)) : list (nat * nat) :=
  let ids := seq 0 (length cells) in
  i ← ids;
  j ← ids;
  match cells !! i, cells !! j with
  | Some c1, Some c2 => if intersects c1 c2 then [(i, j)] else []
  | _, _ => []
  end.

Definition ensure_polygon := _ensure_polygon area make_valid flt.

Definition solve := solve_conflicts area make_valid flt fle fmul intersection union.
End Boxes.


(** ** [geometrize] *)

(** What [geometrize] hands back: a Python list or a GeoDataFrame. *)
Inductive cells_value (G : Type) :=
| PyList (l : list G)
| PyFrame (df : GeoDataFrame G).
Arguments PyList {G} _.
Arguments PyFrame {G} _.

(** A computation that logs warnings and may raise. *)
Definition logged (A : Type) : Type := list string * result A.

Definition bind_logged {A B} (m : logged A) (k : A → logged B) : logged B :=
  match m.2 with
  | inl e => (m.1, inl e)
  | inr x => let r := k x in (m.1 ++ r.1, r.2)
  end.

Fixpoint mapM_logged {A B} (f : A → logged B) (l : list A) : logged (list B) :=
  match l with
  | [] => ([], ret [])
  | x :: l' =>
      bind_logged (f x) (fun y =>
      bind_logged (mapM_logged f l') (fun ys => ([], ret (y :: ys))))
  end.

Section Geometrize.
Context {F : Type}.
Variable area : geometry F → F.
Variable make_valid : geometry F → geometry F.
Variable flt : F → F → bool.
(** float arithmetic: [a * b], [a / b], [-a], [np.sqrt], [np.pi], the mean
    of a series, and the float of a literal or of an integer *)
Variable fmul : F → F → F.
Variable fdiv : F → F → F.
Variable fneg : F → F.
Variable fsqrt : F → F.
Variable pi : F.
Variable fmean : list F → F.
Variable lit : Q → F.
(** [geom.buffer(d)] and [geom.simplify(tolerance)] *)
Variable buffer : geometry F → F → geometry F.
Variable simplify : geometry F → F → geometry F.
(** [cv2.findContours(mask, cv2.RETR_LIST, cv2.CHAIN_APPROX_SIMPLE)]: the
    points of each contour *)
Variable findContours : list (list Z) → list (list (Z * Z)).

(** [LinearRing]: a ring is closed when it is built *)
Definition close_ring (c : list (Z * Z)) : list (Z * Z) :=
  match c, last c with
  | p :: _, Some q => if decide (p = q) then c else c ++ [p]
  | _, _ => c
  end.

Definition _contours (cell_mask : list (list Z)) : geometry F :=
  let contours := findContours cell_mask in
  GMultiPolygon
    (map (fun contour : list (Z * Z) =>
            mkPolygon (map (fun p : Z * Z => (lit (inject_Z p.1), lit (inject_Z p.2)))
                           (close_ring contour)) [])
         (filter (fun contour : list (Z * Z) => 4 ≤ length contour) contours)).

Definition _smoothen_cell (cell : geometry F) (smooth_radius tolerance : F)
  : logged (Polygon F) :=
  let cell := buffer (buffer (buffer cell (fneg smooth_radius))
                             (fmul (lit 2) smooth_radius))
                     (fneg smooth_radius) in
  let cell := simplify cell tolerance in
  (_ensure_polygon_warnings make_valid cell,
   _ensure_polygon area make_valid flt cell).

Definition _default_tolerance (mean_radius : F) : F :=
  if flt mean_radius (lit 10) then lit (4 # 10)
  else if flt mean_radius (lit 20) then lit 1
  else lit 2.

(** [mask.max()] *)
Definition mask_max (mask : list (list Z)) : result Z :=
  match concat mask with
  | [] => raise (ValueError "zero-size array to reduction operation maximum which has no identity")
  | x :: xs => ret (foldl Z.max x xs)
  end.

Definition geometrize (mask : list (list Z)) (tolerance : option F)
    (smooth_radius_ratio : F) : logged (cells_value (Polygon F)) :=
  bind_logged ([], mask_max mask) (fun max_cells =>
  if (max_cells =? 0)%Z then
    (["No cell was returned by the segmentation"], ret (PyList []))
  else
    let cell_ids := map (fun k => (1 + Z.of_nat k)%Z) (seq 0 (Z.to_nat max_cells)) in
    let cells :=
      map (fun cell_id =>
             _contours (map (map (fun v => if (v =? cell_id)%Z then 1%Z else 0%Z)) mask))
          cell_ids in
    let mean_radius := fmean (map (fun c => fsqrt (fdiv (area c) pi)) cells) in
    let smooth_radius := fmul mean_radius smooth_radius_ratio in
    let tolerance :=
      match tolerance with
      | Some t => t
      | None => _default_tolerance mean_radius
      end in
    bind_logged
      (mapM_logged (fun cell => _smoothen_cell cell smooth_radius tolerance) cells)
      (fun smoothed =>
         let rows := zip (seq 0 (length smoothed)) smoothed in
         let kept := filter (fun row : nat * Polygon F => is_empty row.2 = false) rows in
         ([], ret (PyFrame (mkFrame (map fst kept) (map snd kept)))))).
End Geometrize.

(** ** [expand_radius]

    A GeoDataFrame is a mutable object: variables hold a reference to it,
    and the heap maps references to frames. *)

Definition ref := positive.

Section ExpandRadius.
Context {F G : Type}.
Variable area : G → F.
Variable buffer : G → F → G.
Variable fmul : F → F → F.
Variable fdiv : F → F → F.
Variable fsqrt : F → F.
Variable pi : F.
Variable fmean : list F → F.
(** [bool(x)] of a float: false exactly on zero *)
Variable truthy : F → bool.

(** the distance of line 217 *)
Definition expand_distance (ratio : F) (geoms : list G) : F :=
  fmul ratio (fmean (map (fun g => fsqrt (fdiv (area g) pi)) geoms)).

Definition expand_radius (geo_df : ref) (expand_radius_ratio : option F)
    (heap : gmap ref (GeoDataFrame G)) : result (ref * gmap ref (GeoDataFrame G)) :=
  match expand_radius_ratio with
  | None => ret (geo_df, heap)
  | Some ratio =>
      if negb (truthy ratio) then ret (geo_df, heap)
      else
        match heap !! geo_df with
        | None => raise (RuntimeError "dangling reference")
        | Some df =>
            let expand_radius_ := expand_distance ratio (geometry_col df) in
            let buffered := map (fun g => buffer g expand_radius_) (geometry_col df) in
            ret (geo_df, <[geo_df := mkFrame (index df) buffered]> heap)
        end
  end.
End ExpandRadius.

(** ** The Baysor patch runner ([methods/_baysor.py]) *)

Module Baysor.

(** The part of the world the runner touches: the paths that exist on the
    file system and the warnings logged so far. *)
Record world := mkWorld {
  files : gset string;
  warnings : list string
}.

(** [subprocess.CompletedProcess] *)
Record completed := mkCompleted {
  returncode : Z;
  stdout : string
}.

Record BaysorPatch := mkBaysorPatch {
  baysor_executable_path : string;
  use_polygons_format_argument : bool;
  force : bool;
  recover : bool;
  prior_shapes_key : option string
}.

(** the loaded configuration, as far as [baysor] reads it:
    [config.get("data", {}).get("gene")] *)
Record config := mkConfig {
  data_gene : option string
}.

(** the [SpatialData] object, as far as [baysor] reads and writes it *)
Record SpatialData := mkSData {
  has_transcript_patches : bool;
  patch_prior_shapes_key : option string;
  attrs_boundaries : option string
}.

Definition newline : string := String (Ascii.ascii_of_nat 10) EmptyString.

(** [patch_dir / name] *)
Definition path_join (dir name : string) : string := dir +:+ "/" +:+ name.

Definition artifact (patch_dir : string) : string :=
  path_join patch_dir "segmentation_counts.loom".

Section Run.
(** [subprocess.run] of a command in a working directory: the completed
    process and the file system it leaves *)
Variable subprocess_run : string → string → gset string → completed * gset string.
(** the working directory of the interpreter, in which a command without
    [cd] runs, and [Version(v) >= Version(minimum)] of [packaging], which
    raises when [v] is not a version *)
Variable cwd : string.
Variable version_at_least : string → string → result bool.
(** helpers of the package that [baysor] calls: [_get_baysor_executable_path()],
    [_get_default_config], [toml.load], [get_transcripts_patches_dirs],
    [copy_segmentation_config], [resolve] and [shutil.rmtree] *)
Variable get_executable_path : gset string → result string.
Variable get_default_config : SpatialData → result config.
Variable toml_load : string → gset string → result config.
Variable get_transcripts_patches_dirs : SpatialData → list string.
Variable copy_segmentation_config : string → config → gset string → result (gset string).
Variable resolve :
  SpatialData → list string → string → Z → string → gset string → result SpatialData.
Variable rmtree : string → gset string → result (gset string).

Definition baysor_command (self : BaysorPatch) : string :=
  let polygon_substring :=
    if use_polygons_format_argument self
    then "--polygon-format GeometryCollection"
    else "--save-polygons GeoJSON" in
  let prior_suffix :=
    match prior_shapes_key self with
    | Some k => if decide (k = "") then "" else ":" +:+ k
    | None => ""
    end in
  baysor_executable_path self +:+ " run " +:+ polygon_substring
    +:+ " -c config.toml transcripts.csv " +:+ prior_suffix.

(** [BaysorPatch.__call__] *)
Definition call (self : BaysorPatch) (patch_dir : string) (w : world)
  : result world :=
  if recover self && bool_decide (artifact patch_dir ∈ files w) then ret w
  else
    let command := baysor_command self in
    let r := subprocess_run patch_dir command (files w) in
    let w := mkWorld r.2 (warnings w) in
    if negb (returncode r.1 =? 0)%Z then
      let message :=
        "Baysor error on patch " +:+ patch_dir +:+ " with command `"
          +:+ command +:+ "`" in
      if force self then ret (mkWorld (files w) (warnings w ++ [message]))
      else raise (RuntimeError (message +:+ ":" +:+ newline +:+ stdout r.1))
    else ret w.

(** [_use_polygons_format_argument] (lines 129-145): the version query is
    a process of its own, which leaves a file system like any other; an
    output that is not a version is caught by the [except] and gives
    [False]. *)
Definition _use_polygons_format_argument (baysor_executable_path : string)
    (fs : gset string) : bool * gset string :=
  let res := subprocess_run cwd (baysor_executable_path +:+ " --version") fs in
  (match version_at_least (stdout res.1) "0.7.0" with
   | inr b => b
   | inl _ => false
   end, res.2).

(** Modelled from the spec: [settings._run_with_backend] is not among the
    sources; the specification has the executor run one job per patch
    and abort the batch on a hard error, so the jobs are run one after
    the other and the first exception ends the batch. *)
Definition _run_with_backend (functions : list (world → result world)) (w : world)
  : result world :=
  foldM (fun w f => f w) w functions.

Definition baysor (sdata : SpatialData) (cfg : option (config + string))
    (min_area : Z) (delete_cache recover force : bool) (key_added : string)
    (w : world) : result (SpatialData * world) :=
  if negb (has_transcript_patches sdata) then
    raise (AssertionError
      "Transcript patches not found in the SpatialData object. Run `sopa.make_transcript_patches(...)` first.")
  else
    baysor_executable_path <- get_executable_path (files w) ;;
    let version := _use_polygons_format_argument baysor_executable_path (files w) in
    let use_polygons_format_argument := version.1 in
    let w := mkWorld version.2 (warnings w) in
    cfg <- match cfg with
           | None => get_default_config sdata
           | Some (inl c) => ret c
           | Some (inr path) => toml_load path (files w)
           end ;;
    match data_gene cfg with
    | None => raise (AssertionError "Gene column not found in config['data']['gene']")
    | Some gene_column =>
        if decide (gene_column = "")
        then raise (AssertionError "Gene column not found in config['data']['gene']")
        else
          let patches_dirs := get_transcripts_patches_dirs sdata in
          fs <- foldM (fun fs patch_dir =>
                         copy_segmentation_config
                           (path_join patch_dir "config.toml") cfg fs)
                      (files w) patches_dirs ;;
          let w := mkWorld fs (warnings w) in
          let baysor_patch :=
            mkBaysorPatch baysor_executable_path use_polygons_format_argument
                          force recover (patch_prior_shapes_key sdata) in
          w <- _run_with_backend (map (call baysor_patch) patches_dirs) w ;;
          if force && negb (existsb (fun patch_dir =>
                                       bool_decide (artifact patch_dir ∈ files w))
                                    patches_dirs)
          then raise (AssertionError "Baysor failed on all patches")
          else
            sdata <- resolve sdata patches_dirs gene_column min_area key_added (files w) ;;
            let sdata := mkSData (has_transcript_patches sdata)
                                 (patch_prior_shapes_key sdata) (Some key_added) in
            if delete_cache then
              fs <- foldM (fun fs patch_dir => rmtree patch_dir fs) (files w) patches_dirs ;;
              ret (sdata, mkWorld fs (warnings w))
            else ret (sdata, w)
    end.
End Run.
End Baysor.

(** ** Example data *)

Module Examples.
Import Boxes.
Local Open Scope Q_scope.

(** two 10 x 10 squares sharing 60 of their 100 units of area *)
Definition sqA : Polygon Q := box 0 0 10 10.
Definition sqB : Polygon Q := box 4 0 14 10.

(** two unit squares apart from each other *)
Definition unit1 : Polygon Q := box 0 0 1 1.
Definition unit2 : Polygon Q := box 2 0 3 1.

(** a chain whose middle cell is the largest: A-B and B-C share 60 units,
    A and C are apart *)
Definition hubA : Polygon Q := box 0 0 10 10.
Definition hubB : Polygon Q := box 4 0 104 10.
Definition hubC : Polygon Q := box 98 0 108 10.

(** a chain whose last cell is the largest: A-B share 60 of A's 100 units,
    B-C share 100 of B's 200 units, A and C are apart *)
Definition chainA : Polygon Q := box 0 0 10 10.
Definition chainB : Polygon Q := box 4 0 24 10.
Definition chainC : Polygon Q := box 14 0 1000 10.

(** two rectangles without width on the same line *)
Definition flat1 : Polygon Q := box 0 0 0 10.
Definition flat2 : Polygon Q := box 0 5 0 15.

(** a square with a square hole, alone in a multi-polygon *)
Definition donut : Polygon Q :=
  mkPolygon [(10, 0); (10, 10); (0, 10); (0, 0); (10, 0)]
            [[(4, 4); (6, 4); (6, 6); (4, 6); (4, 4)]].
Definition donut_multi : geometry Q := GMultiPolygon [donut].
End Examples.

(** Discs around the origin, given by their radius, over the real numbers:
    an instance of the operations of [expand_radius] on which buffering is
    exact. *)
Module Discs.
Local Open Scope R_scope.

Definition area (r : R) : R := PI * (r * r).
Definition buffer (r d : R) : R := r + d.
Definition fmean (l : list R) : R := foldr Rplus 0 l / INR (length l).
Definition truthy (x : R) : bool := if Req_dec_T x 0 then false else true.

Definition expand :=
  expand_radius (F := R) (G := R) area buffer Rmult Rdiv sqrt PI fmean truthy.
End Discs.

(** A run of the external tool for the examples: it succeeds in the
    directory [patches/1], where it writes its result, and fails anywhere
    else. *)
Module BaysorDemo.
Import Baysor.

Definition run (cwd command : string) (fs : gset string) : completed * gset string :=
  if decide (cwd = "patches/1")
  then (mkCompleted 0 "", {[ artifact cwd ]} ∪ fs)
  else (mkCompleted 1 "Baysor failed", fs).

Definition fail_all (cwd command : string) (fs : gset string) : completed * gset string :=
  (mkCompleted 1 "Baysor failed", fs).

Definition sdata : SpatialData := mkSData true None None.
Definition dirs : list string := ["patches/0"; "patches/1"].

(** the tool answers a version query, in any directory; everything else is
    left to [run] *)
Definition with_version (run : string → string → gset string → completed * gset string)
    (cwd command : string) (fs : gset string) : completed * gset string :=
  if decide (command = "baysor --version") then (mkCompleted 0 "0.8.1", fs)
  else run cwd command fs.

(** [Version(v) >= Version(minimum)] on the output of the demo tool; any
    other text is not a version *)
Definition version_at_least (v minimum : string) : result bool :=
  if decide (v = "0.8.1") then ret true
  else raise (ValueError ("Invalid version: '" +:+ v +:+ "'")).

Definition get_executable_path (fs : gset string) : result string := ret "baysor".
Definition get_default_config (sd : SpatialData) : result config :=
  ret (mkConfig (Some "gene")).
Definition toml_load (path : string) (fs : gset string) : result config :=
  ret (mkConfig (Some "gene")).
Definition get_transcripts_patches_dirs (sd : SpatialData) : list string := dirs.
Definition copy_segmentation_config (path : string) (c : config) (fs : gset string)
  : result (gset string) := ret ({[ path ]} ∪ fs).
Definition resolve (sd : SpatialData) (patches_dirs : list string) (gene : string)
    (min_area : Z) (key_added : string) (fs : gset string) : result SpatialData :=
  ret sd.
(** [shutil.rmtree]: every path below the directory is gone *)
Definition rmtree (patch_dir : string) (fs : gset string) : result (gset string) :=
  ret (filter (fun path => String.prefix (patch_dir +:+ "/") path = false) fs).

(** the file system once the configurations are copied *)
Definition configured_files : gset string :=
  {[ path_join "patches/1" "config.toml" ]} ∪
    ({[ path_join "patches/0" "config.toml" ]} ∪ ∅).

Definition failure_warning (patch_dir : string) : string :=
  "Baysor error on patch " +:+ patch_dir
    +:+ " with command `baysor run --polygon-format GeometryCollection -c config.toml transcripts.csv `".

(** the file system after the demo batch, before the cache is deleted:
    both configurations and the result of the second patch *)
Definition final_files : gset string :=
  {[ artifact "patches/1" ]} ∪
    ({[ path_join "patches/1" "config.toml" ]} ∪
       ({[ path_join "patches/0" "config.toml" ]} ∪ ∅)).

(** a result file left in [patches/0] by an earlier run, and the file
    system once the configurations are copied next to it *)
Definition stale_files : gset string := {[ artifact "patches/0" ]}.
Definition stale_configured_files : gset string :=
  {[ path_join "patches/1" "config.toml" ]} ∪
    ({[ path_join "patches/0" "config.toml" ]} ∪ stale_files).

Definition baysor_with (run : string → string → gset string → completed * gset string) :=
  baysor (with_version run) "." version_at_least get_executable_path get_default_config
    toml_load get_transcripts_patches_dirs copy_segmentation_config resolve rmtree.
End BaysorDemo.

(** * Further functions of the package *)

Section ToValidPolygons.
Context {F : Type}.
Variable area : geometry F → F.
Variable make_valid : geometry F → geometry F.
Variable flt : F → F → bool.

(** [to_valid_polygons] (lines 120-122). The assignment of line 121 writes
    the canonicalized column into the frame that was passed; the selection
    of line 122 builds a new frame. *)
Definition to_valid_polygons (geo_df : ref) (heap : gmap ref (GeoDataFrame (geometry F)))
  : result (ref * gmap ref (GeoDataFrame (geometry F))) :=
  match heap !! geo_df with
  | None => raise (RuntimeError "dangling reference")
  | Some df =>
      polygons <- mapM (_ensure_polygon area make_valid flt) (geometry_col df) ;;
      let heap := <[geo_df := mkFrame (index df) (map GPolygon polygons)]> heap in
      let rows := zip (index df) polygons in
      let kept := filter (fun row : nat * Polygon F => is_empty row.2 = false) rows in
      let selected := fresh (dom heap) in
      ret (selected,
           <[selected := mkFrame (map fst kept) (map (fun row => GPolygon row.2) kept)]> heap)
  end.
End ToValidPolygons.

(** [pixel_outer_bounds] (lines 182-183), on rational bounds *)
Definition pixel_outer_bounds (bounds : Q * Q * Q * Q) : list Z :=
  [Qfloor bounds.1.1.1; Qfloor bounds.1.1.2;
   (Qceiling bounds.1.2 + 1)%Z; (Qceiling bounds.2 + 1)%Z].

(** ** The explorer directory ([io/explorer/converter.py]) *)

Module Explorer.

(** exceptions of the operating system, next to the ones above *)
Inductive os_exception :=
| Raised (e : exception)
| FileExistsError (path : list string)
| NotADirectoryError (path : list string).

(** A path is its components below the root; the file system maps the paths
    that exist to what they are. The root always is a directory. *)
Inductive kind := File | Dir.

Definition lookup_path (fs : gmap (list string) kind) (path : list string) : option kind :=
  match path with
  | [] => Some Dir
  | _ => fs !! path
  end.

(** the ancestors of a path below the root, the path itself last *)
Definition ancestors (path : list string) : list (list string) :=
  map (fun n => take n path) (seq 1 (length path)).

(** [os.mkdir] on each missing ancestor in turn, as [Path.mkdir(parents=True,
    exist_ok=True)] does: a directory that exists is kept, a file in the way
    is an error of the call on the target. *)
Fixpoint mkdirs (target : list string) (todo : list (list string))
    (fs : gmap (list string) kind) : os_exception + gmap (list string) kind :=
  match todo with
  | [] => inr fs
  | p :: todo' =>
      match fs !! p with
      | Some Dir => mkdirs target todo' fs
      | Some File =>
          inl (if decide (p = target) then FileExistsError target
               else NotADirectoryError target)
      | None => mkdirs target todo' (<[p := Dir]> fs)
      end
  end.

Definition mkdir_parents_exist_ok (path : list string) (fs : gmap (list string) kind)
  : os_exception + gmap (list string) kind :=
  mkdirs path (ancestors path) fs.

(** [_check_explorer_directory] (lines 21-25) *)
Definition _check_explorer_directory (path : list string) (fs : gmap (list string) kind)
  : os_exception + gmap (list string) kind :=
  match lookup_path fs path with
  | Some File =>
      inl (Raised (AssertionError
        "A path to an existing file was provided. It should be a path to a directory."))
  | _ => mkdir_parents_exist_ok path fs
  end.

End Explorer.

(** ** The default Baysor configuration ([_get_default_config]) *)

Module BaysorConfig.

Inductive config_exception :=
| ConfigAssertionError (msg : string)
| KeyError (key : string).

(** The [SpatialData] object as [_get_default_config] reads it: its own
    [attrs], and for each element the dictionaries stored in the [attrs] of
    that element. A value that is absent or [None] is [None] here. *)
Record sdata_attrs := mkAttrs {
  attrs : gmap string string;
  element_attrs : gmap string (gmap string (gmap string string))
}.

(** the dictionary of lines 174-184 *)
Record default_config := mkDefault {
  data_x : string;
  data_y : string;
  data_gene : string;
  data_min_molecules_per_gene : Z;
  data_min_molecules_per_cell : Z;
  data_force_2d : bool;
  segmentation_prior_segmentation_confidence : Q
}.

(** [assert value, msg] on an optional string: [None] and the empty string
    are false *)
Definition assert_truthy (value : option string) (msg : string)
  : config_exception + string :=
  match value with
  | Some s => if String.eqb s "" then inl (ConfigAssertionError msg) else inr s
  | None => inl (ConfigAssertionError msg)
  end.

(** [d[key]] on a dictionary *)
Definition getkey {V} (d : gmap string V) (key : string) : config_exception + V :=
  match d !! key with
  | Some v => inr v
  | None => inl (KeyError key)
  end.

Definition bind_config {A B} (m : config_exception + A) (k : A → config_exception + B)
  : config_exception + B :=
  match m with
  | inl e => inl e
  | inr x => k x
  end.

Section GetDefaultConfig.
(** [SopaAttrs.TRANSCRIPTS] and [ATTRS_KEY], constants of the package *)
Variable TRANSCRIPTS : string.
Variable ATTRS_KEY : string.

Definition _get_default_config (sdata : sdata_attrs) : config_exception + default_config :=
  let points_key := attrs sdata !! TRANSCRIPTS in
  bind_config
    (assert_truthy points_key
       ("Transcripts key not found in sdata.attrs['" +:+ TRANSCRIPTS
          +:+ "'], baysor config can't be inferred."))
    (fun points_key =>
  bind_config (getkey (element_attrs sdata) points_key) (fun element =>
  bind_config (getkey element ATTRS_KEY) (fun d =>
  let feature_key := d !! "feature_key" in
  bind_config
    (assert_truthy feature_key
       ("Feature key not found in sdata['" +:+ points_key +:+ "'].attrs['" +:+ ATTRS_KEY
          +:+ "'], baysor config can't be inferred."))
    (fun feature_key =>
  inr (mkDefault "x" "y" feature_key 10 20 true (8 # 10)))))).
End GetDefaultConfig.

(** the entry [config["data"]["gene"]] that [baysor] reads *)
Definition to_config (c : default_config) : Baysor.config :=
  Baysor.mkConfig (Some (data_gene c)).

End BaysorConfig.

(** ** [rasterize] *)

(** what [rasterize] can raise: the errors of numpy, and [cv2.error] *)
Inductive raster_exception :=
| Cv2Error (msg : string)
| NumpyError (e : exception).

Section Rasterize.
Context {F : Type}.
(** [a + b] on floats, the float of an integer, [astype(np.int32)] on one
    float, and [cv2.fillPoly(image, [points], color=1)], which raises
    [cv2.error] on points it does not accept *)
Variable fadd : F → F → F.
Variable of_int : Z → F.
Variable to_int32 : F → Z.
Variable fillPoly : list (list Z) → list (Z * Z) → raster_exception + list (list Z).

(** [shapely.affinity.translate(cell, xoff, yoff)] on a polygon *)
Definition translate_ring (xoff yoff : F) (c : coords F) : coords F :=
  map (fun p : F * F => (fadd p.1 xoff, fadd p.2 yoff)) c.

Definition translate_polygon (xoff yoff : F) (p : Polygon F) : Polygon F :=
  mkPolygon (translate_ring xoff yoff (exterior p))
            (map (translate_ring xoff yoff) (interiors p)).

(** [np.zeros((rows, cols), dtype=np.int8)] *)
Definition np_zeros (rows cols : Z) : result (list (list Z)) :=
  if ((rows <? 0) || (cols <? 0))%Z
  then raise (ValueError "negative dimensions are not allowed")
  else ret (replicate (Z.to_nat rows) (replicate (Z.to_nat cols) 0%Z)).

(** the loop of lines 206-208: the first error ends it *)
Fixpoint fill_geoms (rasterized_image : list (list Z)) (geoms : list (Polygon F))
  : raster_exception + list (list Z) :=
  match geoms with
  | [] => inr rasterized_image
  | geom :: geoms' =>
      let coords := map (fun p : F * F => (to_int32 p.1, to_int32 p.2)) (exterior geom) in
      match fillPoly rasterized_image coords with
      | inl e => inl e
      | inr rasterized_image' => fill_geoms rasterized_image' geoms'
      end
  end.

(** [rasterize] (lines 186-210); the cell is a polygon or the members of a
    multi-polygon, [shape] is (y, x) and [xy_min] is (x0, y0) *)
Definition rasterize (cell : Polygon F + list (Polygon F)) (shape : Z * Z)
    (xy_min : Z * Z) : raster_exception + list (list Z) :=
  let xmin := xy_min.1 in
  let ymin := xy_min.2 in
  let xmax := (xy_min.1 + shape.2)%Z in
  let ymax := (xy_min.2 + shape.1)%Z in
  let geoms :=
    match cell with
    | inl p => [translate_polygon (of_int (- xmin)) (of_int (- ymin)) p]
    | inr ps => map (translate_polygon (of_int (- xmin)) (of_int (- ymin))) ps
    end in
  match np_zeros (ymax - ymin) (xmax - xmin) with
  | inl e => inl (NumpyError e)
  | inr rasterized_image => fill_geoms rasterized_image geoms
  end.
End Rasterize.

(** the images of [rows] rows of [cols] pixels *)
Definition has_shape (rows cols : nat) (image : list (list Z)) : Prop :=
  length image = rows ∧ Forall (fun row => length row = cols) image.

(** what [cv2.fillPoly] does for the four corners of an axis-aligned
    rectangle: every pixel of the image from the smallest to the largest
    corner, both included, is set to 1; without points it raises (the text
    of the error is not the one of cv2) *)
Definition fill_rectangle (image : list (list Z)) (points : list (Z * Z))
  : raster_exception + list (list Z) :=
  match points with
  | [] => inl (Cv2Error "fillPoly: no points")
  | p :: ps =>
      let x0 := foldr Z.min p.1 (map fst ps) in
      let x1 := foldr Z.max p.1 (map fst ps) in
      let y0 := foldr Z.min p.2 (map snd ps) in
      let y1 := foldr Z.max p.2 (map snd ps) in
      inr (imap (fun r row =>
                   imap (fun c v =>
                           if ((y0 <=? Z.of_nat r) && (Z.of_nat r <=? y1) &&
                               (x0 <=? Z.of_nat c) && (Z.of_nat c <=? x1))%Z
                           then 1%Z else v) row) image)
  end.

(** ** The [baysor] command of the command line ([cli/segmentation.py]) *)

Module Cli.

Inductive cli_exception :=
| TypeError (msg : string)
| CliRaised (e : exception).

(** How Python binds the arguments of a call to the parameters of a
    function without [*args] and [**kwargs]: the positional arguments fill
    the first parameters, and each keyword has to name one of the others. *)
Definition bind_call (name : string) (parameters : list string) (positional : nat)
    (keywords : list string) : option cli_exception :=
  if decide (length parameters < positional) then
    Some (TypeError (name +:+ "() takes too many positional arguments"))
  else
    match filter (fun k => k ∉ drop positional parameters) keywords with
    | [] => None
    | k :: _ =>
        if decide (k ∈ take positional parameters)
        then Some (TypeError (name +:+ "() got multiple values for argument '" +:+ k +:+ "'"))
        else Some (TypeError (name +:+ "() got an unexpected keyword argument '" +:+ k +:+ "'"))
    end.

(** the parameters of [baysor] ([_baysor.py], lines 17-25) *)
Definition baysor_parameters : list string :=
  ["sdata"; "config"; "min_area"; "delete_cache"; "recover"; "force"; "key_added"].

Section BaysorCommand.
Context {SData : Type}.
(** [read_zarr_standardized], the body of [baysor] once its arguments are
    bound, and [_log_whether_to_resolve] *)
Variable read_zarr_standardized : string → cli_exception + SData.
Variable baysor_body : SData → option string → Q → cli_exception + unit.
Variable _log_whether_to_resolve : option Z → cli_exception + unit.

(** the command [baysor] (lines 220-238): the call of line 236 passes
    [sdata] by position and [config], [min_area] and [patch_index] by
    keyword *)
Definition baysor_command (sdata_path : string) (config : option string)
    (patch_index : option Z) (min_area : Q) : cli_exception + unit :=
  match read_zarr_standardized sdata_path with
  | inl e => inl e
  | inr sdata =>
      match bind_call "baysor" baysor_parameters 1 ["config"; "min_area"; "patch_index"] with
      | Some e => inl e
      | None =>
          match baysor_body sdata config min_area with
          | inl e => inl e
          | inr _ => _log_whether_to_resolve patch_index
          end
      end
  end.
End BaysorCommand.

End Cli.

(** ** More example data *)

Module MoreExamples.
Import Boxes Examples.
Local Open Scope Q_scope.

(** a square apart from [sqA] and [sqB] *)
Definition far : Polygon Q := box 50 0 60 10.

(** two 10 x 10 squares sharing 10 of their 100 units of area *)
Definition edgeA : Polygon Q := box 0 0 10 10.
Definition edgeB : Polygon Q := box 9 0 19 10.

Definition line : geometry Q := GLineString [(0, 0); (1, 1)].

(** a unit square and two larger squares, all apart from each other *)
Definition small : Polygon Q := box 20 0 21 1.
Definition small_big : geometry Q := GMultiPolygon [small; sqA; far].

(** a collection of a unit square, a multi-polygon holding a larger square,
    and a line *)
Definition mixed : geometry Q :=
  GGeometryCollection [GPolygon unit2; GMultiPolygon [sqA]; line].

(** a frame of a square, a line and a multi-polygon *)
Definition frame0 : GeoDataFrame (geometry Q) :=
  mkFrame [0; 1; 2]%nat [GPolygon sqA; line; small_big].
End MoreExamples.

(** An instance of the operations of [geometrize] for the examples, on
    masks whose cells are rectangular blocks of pixels, with the smoothing
    radius 0 and the tolerance 0. *)
Module GeometrizeDemo.
Local Open Scope Q_scope.

(** the contour of a rectangular block of pixels, as (x, y) points: its
    four corners; the two ends of a block that is one pixel wide or high;
    the pixel itself for a single pixel *)
Definition findContours (cell_mask : list (list Z)) : list (list (Z * Z)) :=
  let pixels :=
    concat (imap (fun r row =>
                    omap (fun cv : nat * Z =>
                            if (cv.2 =? 0)%Z then None
                            else Some (Z.of_nat cv.1, Z.of_nat r))
                         (zip (seq 0 (length row)) row))
                 cell_mask) in
  match pixels with
  | [] => []
  | p :: ps =>
      let x0 := foldr Z.min p.1 (map fst ps) in
      let x1 := foldr Z.max p.1 (map fst ps) in
      let y0 := foldr Z.min p.2 (map snd ps) in
      let y1 := foldr Z.max p.2 (map snd ps) in
      if ((x0 =? x1) && (y0 =? y1))%Z then [[(x0, y0)]]
      else if ((x0 =? x1) || (y0 =? y1))%Z then [[(x0, y0); (x1, y1)]]
      else [[(x0, y0); (x0, y1); (x1, y1); (x1, y0)]]
  end.

(** buffering by 0 and simplifying with tolerance 0: an empty geometry
    becomes the empty polygon, any other is left as it is *)
Definition buffer (g : geometry Q) (d : Q) : geometry Q :=
  match g with
  | GMultiPolygon [] => GPolygon empty_polygon
  | _ => g
  end.
Definition simplify (g : geometry Q) (tolerance : Q) : geometry Q := g.

Definition fmean (l : list Q) : Q := Boxes.sumQ l / inject_Z (Z.of_nat (length l)).

(** the radius is multiplied by the ratio 0 before it is used, so a
    rational stand-in for the square root and for pi is enough here *)
Definition run :=
  geometrize Boxes.area Boxes.make_valid Boxes.flt Boxes.fmul Qdiv Qopp
    (fun q : Q => q) 3 fmean (fun q : Q => q) buffer simplify findContours.

(** labels 1 and 3 are blocks of 2 x 2 pixels, label 2 is absent *)
Definition mask : list (list Z) :=
  [[1; 1; 0; 0]; [1; 1; 3; 3]; [0; 0; 3; 3]]%Z.
End GeometrizeDemo.

(** Example data for the runner, the configuration, the explorer directory
    and the rasterization. *)
Module MoreDemos.

(** both patches have their result file *)
Definition finished_files : gset string :=
  {[ Baysor.artifact "patches/0" ]} ∪ ({[ Baysor.artifact "patches/1" ]} ∪ ∅).

Definition resumed_files : gset string :=
  {[ Baysor.path_join "patches/1" "config.toml" ]} ∪
    ({[ Baysor.path_join "patches/0" "config.toml" ]} ∪ finished_files).

(** [sdata.attrs] names the element [transcripts], whose attributes name the
    feature key [genes] *)
Definition sdata_attrs : BaysorConfig.sdata_attrs :=
  BaysorConfig.mkAttrs
    {[ "transcripts_dataframe" := "transcripts" ]}
    {[ "transcripts" := {[ "spatialdata_attrs" := {[ "feature_key" := "genes" ]} ]} ]}.

(** a directory [data] that holds the file [notes.txt] *)
Definition disk : gmap (list string) Explorer.kind :=
  {[ ["data"] := Explorer.Dir; ["data"; "notes.txt"] := Explorer.File ]}.

(** [astype(np.int32)] on a rational: truncation towards zero, wrapped to
    32 bits *)
Definition to_int32 (q : Q) : Z :=
  (((Qnum q ÷ Zpos (Qden q)) + 2 ^ 31) mod 2 ^ 32 - 2 ^ 31)%Z.

Definition rasterize_boxes :=
  rasterize Qplus inject_Z to_int32 fill_rectangle.
End MoreDemos.

(** * Properties *)

(** ** The error monad *)

Lemma bind_inr {A B} (m : result A) (k : A → result B) (y : B) :
  bind m k = inr y → ∃ x, m = inr x ∧ k x = inr y.
Proof. destruct m as [e|x]; simpl; [discriminate | eauto]. Qed.

Lemma bind_ret {A B} (x : A) (k : A → result B) : bind (inr x) k = k x.
Proof. reflexivity. Qed.

Lemma foldM_app {A S} (f : S → A → result S) (s : S) (l1 l2 : list A) :
  foldM f s (l1 ++ l2) = bind (foldM f s l1) (fun s' => foldM f s' l2).
Proof.
  revert s. induction l1 as [|x l1 IH]; intros s; simpl; [done|].
  destruct (f s x) as [e|s']; simpl; [done | apply IH].
Qed.

Lemma getitem_inr {A} (l : list A) (i : nat) (x : A) :
  getitem l i = inr x ↔ l !! i = Some x.
Proof.
  unfold getitem, ret, raise. destruct (l !! i); split; intros H;
    try discriminate; congruence.
Qed.

Lemma mapM_getitem {A} (l : list A) (positions : list nat) (ys : list A) :
  mapM (getitem l) positions = inr ys →
  length ys = length positions ∧
  ∀ k u, positions !! k = Some u → ys !! k = l !! u ∧ is_Some (l !! u).
Proof.
  revert ys. induction positions as [|u0 ps IH]; intros ys; simpl.
  - intros [= <-]. split; [done|]. intros k u Hk. by rewrite lookup_nil in Hk.
  - intros H. apply bind_inr in H as (y & Hy & H).
    apply bind_inr in H as (ys' & Hys & H). injection H as <-.
    apply getitem_inr in Hy. destruct (IH _ Hys) as [Hlen Hlk].
    split; [simpl; by rewrite Hlen|].
    intros [|k] u; simpl.
    + intros [= <-]. rewrite Hy. eauto.
    + apply Hlk.
Qed.

Lemma mapM_getitem_total {A} (l : list A) (positions : list nat) :
  Forall (fun u => u < length l) positions →
  ∃ ys, mapM (getitem l) positions = inr ys.
Proof.
  induction 1 as [|u ps Hu _ [ys IH]]; simpl; [by eexists|].
  apply lookup_lt_is_Some in Hu as [x Hx].
  unfold getitem at 1. rewrite Hx. simpl. rewrite IH. simpl. by eexists.
Qed.

(** ** [np.unique] *)

Lemma elem_of_insert_unique (x y : nat) (l : list nat) :
  y ∈ insert_unique x l ↔ y = x ∨ y ∈ l.
Proof.
  induction l as [|z l IH]; simpl.
  - set_solver.
  - destruct (Nat.ltb_spec x z); [set_solver|].
    destruct (Nat.eqb_spec x z); [set_solver|].
    rewrite elem_of_cons, IH. set_solver.
Qed.

Lemma elem_of_np_unique (y : nat) (l : list nat) : y ∈ np_unique l ↔ y ∈ l.
Proof.
  unfold np_unique. induction l as [|x l IH]; simpl; [done|].
  rewrite elem_of_insert_unique, IH. set_solver.
Qed.

Lemma length_insert_unique (x : nat) (l : list nat) :
  length (insert_unique x l) ≤ S (length l).
Proof.
  induction l as [|z l IH]; simpl; [lia|].
  destruct (x <? z); [simpl; lia|]. destruct (x =? z); simpl; lia.
Qed.

Lemma length_np_unique (l : list nat) : length (np_unique l) ≤ length l.
Proof.
  unfold np_unique. induction l as [|x l IH]; simpl; [lia|].
  pose proof (length_insert_unique x (foldr insert_unique [] l)). lia.
Qed.

Lemma np_unique_constant (v : nat) (l : list nat) :
  l ≠ [] → Forall (fun x => x = v) l → np_unique l = [v].
Proof.
  unfold np_unique. induction l as [|x l IH]; [done|].
  intros _ H. apply Forall_cons in H as [-> Hl]. simpl.
  destruct l as [|y l]; [done|].
  rewrite IH; [|done|done]. simpl.
  rewrite Nat.ltb_irrefl, Nat.eqb_refl. done.
Qed.

(** ** [solve_conflicts]: bookkeeping *)

Section SolveConflictsFacts.
Context {F : Type}.
Variable area : geometry F → F.
Variable make_valid : geometry F → geometry F.
Variable flt : F → F → bool.
Variable fle : F → F → bool.
Variable fmul : F → F → F.
Variable intersection : Polygon F → Polygon F → geometry F.
Variable union : Polygon F → Polygon F → geometry F.
Variable query : list (Polygon F) → list (nat * nat).

Let ensure := _ensure_polygon area make_valid flt.
Let step := resolve_pair area make_valid flt fle fmul intersection union.
Let solve := solve_conflicts area make_valid flt fle fmul intersection union query.

Let merge_product := merge_product area make_valid flt union.
Let resolved_ok := resolved_ok area make_valid flt union.

Lemma resolved_ok_init (cells : list (Polygon F)) :
  resolved_ok cells (seq 0 (length cells), cells).
Proof.
  split; [apply length_seq|]. split.
  - apply Forall_forall. intros r Hr. apply elem_of_seq in Hr. simpl. lia.
  - exists []. by rewrite app_nil_r.
Qed.

Lemma length_repoint (res olds : list nat) (new : nat) :
  length (repoint res olds new) = length res.
Proof. apply length_map. Qed.

Lemma resolve_pair_ok cells threshold st p st' :
  resolved_ok cells st → step threshold st p = inr st' → resolved_ok cells st'.
Proof.
  intros (Hlen & Hlt & extra & Hcells & Hextra) H.
  unfold step, resolve_pair in H.
  apply bind_inr in H as (r1 & _ & H). apply bind_inr in H as (r2 & _ & H).
  apply bind_inr in H as (c1 & _ & H). apply bind_inr in H as (c2 & _ & H).
  destruct (merge_test _ _ _ _ _ _ c1 c2);
    [|injection H as <-; split; [done|]; split; [done|]; by exists extra].
  apply bind_inr in H as (c & Hc & H).
  destruct (is_empty c) eqn:Hempty; [discriminate|]. injection H as <-.
  split; [simpl; by rewrite length_repoint|]. split; simpl.
  - unfold repoint. rewrite Forall_fmap. rewrite length_app. simpl.
    eapply Forall_impl; [exact Hlt|]. intros r Hr. simpl in Hr |- *.
    destruct (_ || _); lia.
  - exists (extra ++ [c]). rewrite Hcells, <- (assoc_L (++)). split; [done|].
    apply Forall_app. split; [done|]. apply Forall_singleton. by exists c1, c2.
Qed.

Lemma foldM_resolve_ok cells threshold conflicts st st' :
  resolved_ok cells st → foldM (step threshold) st conflicts = inr st' →
  resolved_ok cells st'.
Proof.
  revert st. induction conflicts as [|p l IH]; intros st Hok; simpl.
  - by intros [= <-].
  - intros H. apply bind_inr in H as (st1 & H1 & H).
    eapply IH; [|exact H]. eapply resolve_pair_ok; eauto.
Qed.

(** The index map of a run that returns: one entry per returned cell. *)
Lemma solve_conflicts_index_map cells threshold patch_indices frame idx :
  solve cells threshold patch_indices true = inr (frame, Some idx) →
  length idx = length (geometry_col frame) ∧
  length (index frame) = length (geometry_col frame) ∧
  length idx ≤ length cells ∧
  ∀ k z, idx !! k = Some z →
    (∃ i, z = Z.of_nat i ∧ i < length cells ∧
          index frame !! k = Some i ∧
          is_Some (cells !! i) ∧ geometry_col frame !! k = cells !! i) ∨
    (z = (-1)%Z ∧ ∃ c u, geometry_col frame !! k = Some c ∧ merge_product c ∧
                       index frame !! k = Some u ∧ length cells ≤ u).
Proof.
  unfold solve, solve_conflicts.
  destruct (length cells =? 0); [discriminate|].
  intros H. apply bind_inr in H as (conflicts & _ & H).
  apply bind_inr in H as (st & Hst & H).
  apply bind_inr in H as (unique_cells & Hloc & H).
  injection H as <- <-.
  apply foldM_resolve_ok with (cells := cells) in Hst; [|apply resolved_ok_init].
  destruct Hst as (Hlen & Hlt & extra & Hcells & Hextra).
  unfold iloc in Hloc.
  apply bind_inr in Hloc as (labels & Hlabels & Hloc).
  apply bind_inr in Hloc as (geoms & Hgeoms & Hloc).
  injection Hloc as <-. simpl in *.
  apply mapM_getitem in Hlabels as [Hllen Hlabels].
  apply mapM_getitem in Hgeoms as [Hglen Hgeoms].
  rewrite length_map. split; [lia|]. split; [lia|].
  split; [pose proof (length_np_unique st.1); lia|].
  intros k z Hk. rewrite list_lookup_fmap in Hk.
  destruct (np_unique st.1 !! k) as [u|] eqn:Hu; [|discriminate].
  injection Hk as <-.
  destruct (Hlabels k u Hu) as [Hlab _].
  destruct (Hgeoms k u Hu) as [Hgeo [c Hc]].
  pose proof (lookup_lt_Some _ _ _ Hc) as Hu'.
  rewrite lookup_seq_lt in Hlab by done. simpl in Hlab.
  destruct (Nat.ltb_spec u (length cells)) as [Hin|Hout].
  - left. exists u. rewrite Hgeo, Hcells, lookup_app_l by done.
    repeat split; try done. by apply lookup_lt_is_Some.
  - right. split; [done|]. exists c, u. rewrite Hgeo, Hc.
    repeat split; try done.
    rewrite Hcells, lookup_app_r in Hc by done.
    eapply Forall_lookup_1; eauto.
Qed.

(** An empty collection is refused before anything else is done. *)
Lemma solve_conflicts_empty threshold patch_indices return_indices :
  solve [] threshold patch_indices return_indices
  = inl (AssertionError "No cells was segmented, cannot continue").
Proof. reflexivity. Qed.

(** A merge whose canonicalized union is empty stops the whole call. *)
Lemma solve_conflicts_merged_empty cells threshold patch_indices return_indices
    pre p post st r1 r2 c1 c2 M :
  cells ≠ [] →
  filter_conflicts patch_indices (query cells) = inr (pre ++ p :: post) →
  foldM (step threshold) (seq 0 (length cells), cells) pre = inr st →
  st.1 !! p.1 = Some r1 → st.1 !! p.2 = Some r2 →
  st.2 !! r1 = Some c1 → st.2 !! r2 = Some c2 →
  merge_test area flt fle fmul intersection threshold c1 c2 = true →
  ensure (union c1 c2) = inr M → is_empty M = true →
  solve cells threshold patch_indices return_indices
  = inl (AssertionError "Merged cell is empty").
Proof.
  intros Hne Hfilter Hpre H1 H2 H3 H4 Ht HM He.
  unfold solve, solve_conflicts.
  destruct (Nat.eqb_spec (length cells) 0) as [H0|_]; [by destruct cells|].
  rewrite Hfilter, bind_ret. fold step.
  rewrite foldM_app, Hpre, bind_ret. simpl foldM.
  unfold step at 1, resolve_pair, getitem.
  rewrite H1, bind_ret, H2, bind_ret, H3, bind_ret, H4, bind_ret, Ht.
  fold ensure. rewrite HM, bind_ret, He. reflexivity.
Qed.
End SolveConflictsFacts.

(** ** [solve_conflicts] on a chain of three cells *)

Section ChainFacts.
Context {F : Type}.
Variable area : geometry F → F.
Variable make_valid : geometry F → geometry F.
Variable flt : F → F → bool.
Variable fle : F → F → bool.
Variable fmul : F → F → F.
Variable intersection : Polygon F → Polygon F → geometry F.
Variable union : Polygon F → Polygon F → geometry F.

Let ensure := _ensure_polygon area make_valid flt.
Let step := resolve_pair area make_valid flt fle fmul intersection union.
Let test := merge_test area flt fle fmul intersection.

Lemma resolve_pair_merge threshold res cells i1 i2 r1 r2 c1 c2 M :
  res !! i1 = Some r1 → res !! i2 = Some r2 →
  cells !! r1 = Some c1 → cells !! r2 = Some c2 →
  test threshold c1 c2 = true → ensure (union c1 c2) = inr M →
  is_empty M = false →
  step threshold (res, cells) (i1, i2)
  = inr (repoint res [r1; r2] (length cells), cells ++ [M]).
Proof.
  intros H1 H2 H3 H4 Ht HM He. unfold step, resolve_pair, getitem. simpl.
  rewrite H1. simpl. rewrite H2. simpl. rewrite H3. simpl. rewrite H4. simpl.
  fold (test threshold c1 c2). rewrite Ht. fold ensure. rewrite HM. simpl.
  by rewrite He.
Qed.

Lemma resolve_pair_keep threshold res cells i1 i2 r1 r2 c1 c2 :
  res !! i1 = Some r1 → res !! i2 = Some r2 →
  cells !! r1 = Some c1 → cells !! r2 = Some c2 →
  test threshold c1 c2 = false →
  step threshold (res, cells) (i1, i2) = inr (res, cells).
Proof.
  intros H1 H2 H3 H4 Ht. unfold step, resolve_pair, getitem. simpl.
  rewrite H1. simpl. rewrite H2. simpl. rewrite H3. simpl. rewrite H4. simpl.
  fold (test threshold c1 c2). by rewrite Ht.
Qed.

Variable threshold : F.
Variables A B C : Polygon F.
Let hub := hub area make_valid flt fle fmul intersection union threshold A B C.
Let state := chain_state area make_valid flt fle fmul intersection union threshold A B C.
Hypothesis Hchain :
  chain_mergeable area make_valid flt fle fmul intersection union threshold A B C.

Lemma isin_pair r x y : isin r [x; y] = bool_decide (r = x ∨ r = y).
Proof.
  unfold isin. simpl.
  destruct (Nat.eqb_spec r x), (Nat.eqb_spec r y); simpl;
    symmetry; (apply bool_decide_eq_true || apply bool_decide_eq_false); lia.
Qed.

Lemma repoint3 r0 r1 r2 x y n :
  repoint [r0; r1; r2] [x; y] n
  = [ if bool_decide (r0 = x ∨ r0 = y) then n else r0;
      if bool_decide (r1 = x ∨ r1 = y) then n else r1;
      if bool_decide (r2 = x ∨ r2 = y) then n else r2 ].
Proof. unfold repoint. rewrite <- !isin_pair. reflexivity. Qed.

Lemma chain_step a c st p :
  state a c st → p ∈ chain_conflicts →
  ∃ st', step threshold st p = inr st' ∧
         state (a || bool_decide (p ∈ [(0, 1); (1, 0)]))
               (c || bool_decide (p ∈ [(1, 2); (2, 1)])) st'.
Proof.
  intros (r0 & r1 & r2 & extra & X & Hres & Hcells & Hr1 & HX & HhubX & H0 & H2) Hp.
  destruct st as [res cells]. simpl in *. subst res.
  destruct Hchain as (Hcross & Hsafe_l & Hsafe_r).
  assert (HA : cells !! 0 = Some A) by (by rewrite Hcells).
  assert (HC : cells !! 2 = Some C) by (by rewrite Hcells).
  assert (Hn : length cells = 3 + length extra) by (by rewrite Hcells).
  assert (Hr1' : r1 < length cells) by (by eapply lookup_lt_Some).
  destruct (Hcross a c X A HhubX ltac:(repeat constructor)) as [HtXA HtAX].
  destruct (Hcross a c X C HhubX ltac:(repeat constructor)) as [HtXC HtCX].
  destruct (Hsafe_l a c X A HhubX ltac:(repeat constructor)) as (MXA & HMXA & HeXA).
  destruct (Hsafe_l a c X C HhubX ltac:(repeat constructor)) as (MXC & HMXC & HeXC).
  destruct (Hsafe_l a c X X HhubX ltac:(repeat constructor)) as (MXX & HMXX & HeXX).
  destruct (Hsafe_r a c X A HhubX ltac:(repeat constructor)) as (MAX & HMAX & HeAX).
  destruct (Hsafe_r a c X C HhubX ltac:(repeat constructor)) as (MCX & HMCX & HeCX).
  assert (hub true c MXA)
    by (eapply hub_left; [exact HhubX| |exact HtXA|exact HMXA|auto|auto]; repeat constructor).
  assert (hub a true MXC)
    by (eapply hub_left; [exact HhubX| |exact HtXC|exact HMXC|auto|auto]; repeat constructor).
  assert (hub true c MAX)
    by (eapply hub_right; [exact HhubX| |exact HtAX|exact HMAX|auto|auto]; repeat constructor).
  assert (hub a true MCX)
    by (eapply hub_right; [exact HhubX| |exact HtCX|exact HMCX|auto|auto]; repeat constructor).
  assert (HhubXX : test threshold X X = true → hub a c MXX)
    by (intros HtXX; eapply hub_left; [exact HhubX| |exact HtXX|exact HMXX|auto|auto];
        repeat constructor).
  unfold chain_conflicts in Hp.
  repeat (apply elem_of_cons in Hp as [->|Hp]); [..|by apply elem_of_nil in Hp];
    destruct H0 as [[-> ->] | [-> ->]]; destruct H2 as [[-> ->] | [-> ->]];
    try (destruct (test threshold X X) eqn:HtXX);
    try (eexists; split;
         [ eapply resolve_pair_merge; [reflexivity|reflexivity|eassumption..] |];
         rewrite repoint3; do 3 eexists; eexists (extra ++ [_]), _;
         split; [reflexivity|]; simpl;
         rewrite ?orb_false_r, ?orb_true_r;
         repeat case_bool_decide;
         repeat split;
         first [ by rewrite Hcells | by apply list_lookup_middle | by auto
               | by apply HhubXX | lia | by left | left; split; [done|lia]
               | right; split; [done|lia] | idtac ]).
  all: try (eexists; split;
         [ eapply resolve_pair_keep; [reflexivity|reflexivity|eassumption..] |];
         do 3 eexists; eexists extra, X;
         split; [reflexivity|]; simpl;
         rewrite ?orb_false_r, ?orb_true_r;
         repeat split;
         first [ done | lia | by left | left; split; [done|lia]
               | right; split; [done|lia] | idtac ]).
Qed.

Lemma chain_fold conflicts : ∀ a c st,
  state a c st → Forall (fun p => p ∈ chain_conflicts) conflicts →
  ∃ st', foldM (step threshold) st conflicts = inr st' ∧
         state (a || existsb (fun p => bool_decide (p ∈ [(0, 1); (1, 0)])) conflicts)
               (c || existsb (fun p => bool_decide (p ∈ [(1, 2); (2, 1)])) conflicts)
               st'.
Proof.
  induction conflicts as [|p l IH]; intros a c st Hst Hall; simpl.
  - exists st. by rewrite !orb_false_r.
  - apply Forall_cons in Hall as [Hp Hl].
    destruct (chain_step a c st p Hst Hp) as (st1 & Hstep & Hst1).
    rewrite Hstep. simpl.
    destruct (IH _ _ _ Hst1 Hl) as (st' & Hfold & Hst').
    exists st'. split; [done|]. by rewrite !orb_assoc.
Qed.

Lemma chain_state_final st :
  state true true st →
  ∃ r X, np_unique st.1 = [r] ∧ st.2 !! r = Some X ∧ hub true true X.
Proof.
  intros (r0 & r1 & r2 & extra & X & Hres & Hcells & Hr1 & HX & HhubX & H0 & H2).
  destruct H0 as [[_ ->] | [? _]]; [|done]. destruct H2 as [[_ ->] | [? _]]; [|done].
  exists r1, X. rewrite Hres. split; [|done].
  apply np_unique_constant; [done|]. by repeat constructor.
Qed.
End ChainFacts.

Lemma iloc_singleton {G} (cells : list G) (r : nat) (X : G) :
  cells !! r = Some X → iloc (frame_of_list cells) [r] = inr (mkFrame [r] [X]).
Proof.
  intros H. unfold iloc, frame_of_list, getitem. simpl.
  rewrite lookup_seq_lt by (by eapply lookup_lt_Some). simpl. by rewrite H.
Qed.

(** C2 (amended). For three cells A, B, C without patch tags, where the
    spatial index reports A-B and B-C as intersecting and A-C as not
    intersecting, where the merge condition of line 51 holds between every
    cell B has been merged into (B itself first: A-B and B-C overlap by at
    least threshold times the smaller area) and each of A and C, and where
    the canonicalized union of every such merge is not empty:
    [solve_conflicts] returns exactly one cell, for every order in which the
    index yields the pairs, and that cell is a merge of all three: it is
    made from B by merges that took in A and took in C. The condition is
    tested on the current representatives, so it is the merged cell, not B,
    that must still overlap the remaining cell; and an empty canonicalized
    union ends the call with an error instead. *)
Theorem solve_conflicts_chain_one_cell {F : Type}
    (area : geometry F → F) (make_valid : geometry F → geometry F)
    (flt fle : F → F → bool) (fmul : F → F → F)
    (intersection union : Polygon F → Polygon F → geometry F)
    (query : list (Polygon F) → list (nat * nat))
    (threshold : F) (A B C : Polygon F) (return_indices : bool) :
  query [A; B; C] ≡ₚ chain_query →
  chain_mergeable area make_valid flt fle fmul intersection union threshold A B C →
  ∃ frame idx c,
    solve_conflicts area make_valid flt fle fmul intersection union query
      [A; B; C] threshold None return_indices = inr (frame, idx) ∧
    geometry_col frame = [c] ∧
    hub area make_valid flt fle fmul intersection union threshold A B C true true c.
Proof.
  intros Hq Hchain. unfold solve_conflicts. simpl.
  set (conflicts := filter _ (query [A; B; C])).
  assert (Hperm : conflicts ≡ₚ chain_conflicts).
  { unfold conflicts. rewrite Hq. reflexivity. }
  assert (Hall : Forall (fun p => p ∈ chain_conflicts) conflicts).
  { apply Forall_forall. intros p Hp. by rewrite <- Hperm. }
  assert (H01 : existsb (fun p => bool_decide (p ∈ [(0, 1); (1, 0)])) conflicts = true).
  { apply existsb_exists. exists (0, 1). split; [|done].
    apply list_elem_of_In. rewrite Hperm. repeat constructor. }
  assert (H12 : existsb (fun p => bool_decide (p ∈ [(1, 2); (2, 1)])) conflicts = true).
  { apply existsb_exists. exists (1, 2). split; [|done].
    apply list_elem_of_In. rewrite Hperm. repeat constructor. }
  destruct (chain_fold area make_valid flt fle fmul intersection union threshold
              A B C Hchain conflicts false false ([0; 1; 2], [A; B; C]))
    as (st & Hfold & Hst); [|done|].
  { exists 0, 1, 2, [], B. repeat split; try done; try (by left); try (by right).
    apply hub_start. }
  rewrite H01, H12 in Hst. simpl in Hst.
  apply chain_state_final in Hst as (r & X & Hu & HX & HhubX).
  rewrite Hfold. simpl. rewrite Hu, (iloc_singleton _ _ _ HX). simpl.
  destruct return_indices; simpl; do 3 eexists; (split; [reflexivity|]); by split.
Qed.

Import Examples.

Lemma forall_permutations {A} (P : list A → Prop) (l l' : list A) :
  Forall P (permutations l) → l' ≡ₚ l → P l'.
Proof.
  intros H Hp. eapply Forall_forall; [exact H|].
  apply permutations_Permutation. by symmetry.
Qed.

Lemma boxes_hub_cells a c Z :
  hub Boxes.area Boxes.make_valid Boxes.flt Boxes.fle Boxes.fmul
      Boxes.intersection Boxes.union (1 # 2)%Q hubA hubB hubC a c Z →
  Z ∈ [hubB; Boxes.box 0 0 104 10; Boxes.box 4 0 108 10; Boxes.box 0 0 108 10].
Proof.
  intros H.
  induction H as [|a c a' c' X0 Y0 M0 _ IH HY _ HM _ _|a c a' c' X0 Y0 M0 _ IH HY _ HM _ _].
  - repeat constructor.
  - repeat (apply elem_of_cons in IH as [->|IH]); [..|by apply elem_of_nil in IH];
      repeat (apply elem_of_cons in HY as [->|HY]); try (by apply elem_of_nil in HY);
      vm_compute in HM; injection HM as <-; vm_compute; repeat constructor.
  - repeat (apply elem_of_cons in IH as [->|IH]); [..|by apply elem_of_nil in IH];
      repeat (apply elem_of_cons in HY as [->|HY]); try (by apply elem_of_nil in HY);
      vm_compute in HM; injection HM as <-; vm_compute; repeat constructor.
Qed.

Lemma boxes_chain_mergeable :
  chain_mergeable Boxes.area Boxes.make_valid Boxes.flt Boxes.fle Boxes.fmul
    Boxes.intersection Boxes.union (1 # 2)%Q hubA hubB hubC.
Proof.
  split; [|split]; intros a c X Y HX HY; apply boxes_hub_cells in HX;
    repeat (apply elem_of_cons in HX as [->|HX]); try (by apply elem_of_nil in HX);
    repeat (apply elem_of_cons in HY as [->|HY]); try (by apply elem_of_nil in HY);
    first [ split; vm_compute; reflexivity
          | eexists; split; vm_compute; reflexivity ].
Qed.

(** The rectangles [hubA], [hubB], [hubC] meet the hypotheses of
    [solve_conflicts_chain_one_cell]. *)
Lemma solve_conflicts_chain_one_cell_witness :
  ∃ frame idx c,
    Boxes.solve Boxes.query [hubA; hubB; hubC] (1 # 2)%Q None true = inr (frame, idx) ∧
    geometry_col frame = [c] ∧
    hub Boxes.area Boxes.make_valid Boxes.flt Boxes.fle Boxes.fmul
        Boxes.intersection Boxes.union (1 # 2)%Q hubA hubB hubC true true c.
Proof.
  apply (solve_conflicts_chain_one_cell Boxes.area Boxes.make_valid Boxes.flt
           Boxes.fle Boxes.fmul Boxes.intersection Boxes.union Boxes.query
           (1 # 2)%Q hubA hubB hubC true).
  - vm_compute. reflexivity.
  - exact boxes_chain_mergeable.
Defined.

(** C2 as stated fails: in the chain [chainA], [chainB], [chainC] each
    overlapping pair passes the test on the smaller area and the ends are
    apart, yet two cells remain when A-B is processed first, and one cell
    when B-C is processed first. *)
Lemma solve_conflicts_chain_order_counterexample :
  let test := merge_test Boxes.area Boxes.flt Boxes.fle Boxes.fmul
                Boxes.intersection (1 # 2)%Q in
  let cells := [chainA; chainB; chainC] in
  let other := [(1, 2); (2, 1); (0, 1); (1, 0); (0, 0); (1, 1); (2, 2)] in
  test chainA chainB = true ∧ test chainB chainA = true ∧
  test chainB chainC = true ∧ test chainC chainB = true ∧
  Boxes.intersects chainA chainC = false ∧
  Boxes.query cells = chain_query ∧ other ≡ₚ chain_query ∧
  (∃ frame, Boxes.solve Boxes.query cells (1 # 2)%Q None false = inr (frame, None) ∧
            length (geometry_col frame) = 2) ∧
  (∃ frame, Boxes.solve (fun _ => other) cells (1 # 2)%Q None false = inr (frame, None) ∧
            length (geometry_col frame) = 1).
Proof.
  cbv zeta. repeat (split; [vm_compute; reflexivity|]).
  split; [apply permutations_Permutation, (bool_decide_unpack _); vm_compute;
          exact I|].
  split; eexists; (split; [vm_compute; reflexivity|reflexivity]).
Qed.

(** Without the condition on the unions the call can fail: three
    rectangles without width on one line form a chain in which each
    overlapping pair passes the test (all areas are 0) and the ends are
    apart, and the first merge is empty. *)
Lemma solve_conflicts_flat_chain_fails :
  let test := merge_test Boxes.area Boxes.flt Boxes.fle Boxes.fmul
                Boxes.intersection (1 # 2)%Q in
  let flat3 := Boxes.box 0 12 0 20 in
  test flat1 flat2 = true ∧ test flat2 flat3 = true ∧
  Boxes.intersects flat1 flat3 = false ∧
  Boxes.query [flat1; flat2; flat3] = chain_query ∧
  Boxes.solve Boxes.query [flat1; flat2; flat3] (1 # 2)%Q None false
  = inl (AssertionError "Merged cell is empty").
Proof. cbv zeta. repeat split; vm_compute; reflexivity. Qed.

(** ** [solve_conflicts]: the claims on its results *)

Lemma two_squares_merged (query : list (Polygon Q) → list (nat * nat)) :
  query [sqA; sqB] ≡ₚ [(0, 0); (0, 1); (1, 0); (1, 1)] →
  Boxes.solve query [sqA; sqB] (1 # 2)%Q None true
  = inr (mkFrame [3] [Boxes.box 0 0 14 10], Some [(-1)%Z]).
Proof.
  intros H.
  apply (forall_permutations
           (fun q => Boxes.solve (fun _ => q) [sqA; sqB] (1 # 2)%Q None true
                     = inr (mkFrame [3] [Boxes.box 0 0 14 10], Some [(-1)%Z])) _ _)
    in H; [exact H|].
  set (orders := permutations _). vm_compute in orders. subst orders.
  repeat (constructor; [vm_compute; reflexivity|]). constructor.
Qed.

Lemma two_units_kept (query : list (Polygon Q) → list (nat * nat)) :
  query [unit1; unit2] ≡ₚ [(0, 0); (1, 1)] →
  Boxes.solve query [unit1; unit2] (1 # 2)%Q (Some [0; 1]%Z) true
  = inr (mkFrame [0; 1] [unit1; unit2], Some [0; 1]%Z).
Proof.
  intros H.
  apply (forall_permutations
           (fun q => Boxes.solve (fun _ => q) [unit1; unit2] (1 # 2)%Q
                       (Some [0; 1]%Z) true
                     = inr (mkFrame [0; 1] [unit1; unit2], Some [0; 1]%Z)) _ _)
    in H; [exact H|].
  set (orders := permutations _). vm_compute in orders. subst orders.
  repeat (constructor; [vm_compute; reflexivity|]). constructor.
Qed.

(** C1 (amended). With [return_indices=True] a call that returns gives, next
    to the final collection, an array with one entry per cell of the final
    collection (so its length is the number of final cells, at most n):
    entry k is the index of the original cell that final cell k is, when
    that cell was left unmerged, and -1 when final cell k was created by a
    merge. For two squares sharing 60% of their area and threshold 0.5 the
    array is [-1], with the merged cell covering the union; for two
    separate unit squares tagged 0 and 1 it is [0, 1]. *)
Theorem solve_conflicts_return_indices :
  (∀ (F : Type) (area : geometry F → F) (make_valid : geometry F → geometry F)
     (flt fle : F → F → bool) (fmul : F → F → F)
     (intersection union : Polygon F → Polygon F → geometry F)
     (query : list (Polygon F) → list (nat * nat))
     (cells : list (Polygon F)) (threshold : F) (patch_indices : option (list Z))
     (frame : GeoDataFrame (Polygon F)) (idx : list Z),
     solve_conflicts area make_valid flt fle fmul intersection union query
       cells threshold patch_indices true = inr (frame, Some idx) →
     length idx = length (geometry_col frame) ∧
     length (index frame) = length (geometry_col frame) ∧
     length idx ≤ length cells ∧
     ∀ k z, idx !! k = Some z →
       (∃ i, z = Z.of_nat i ∧ i < length cells ∧
             index frame !! k = Some i ∧
             is_Some (cells !! i) ∧ geometry_col frame !! k = cells !! i) ∨
       (z = (-1)%Z ∧
        ∃ c u, geometry_col frame !! k = Some c ∧
               merge_product area make_valid flt union c ∧
               index frame !! k = Some u ∧ length cells ≤ u)) ∧
  (∀ query : list (Polygon Q) → list (nat * nat),
     query [sqA; sqB] ≡ₚ [(0, 0); (0, 1); (1, 0); (1, 1)] →
     Boxes.solve query [sqA; sqB] (1 # 2)%Q None true
     = inr (mkFrame [3] [Boxes.box 0 0 14 10], Some [(-1)%Z])) ∧
  (∀ query : list (Polygon Q) → list (nat * nat),
     query [unit1; unit2] ≡ₚ [(0, 0); (1, 1)] →
     Boxes.solve query [unit1; unit2] (1 # 2)%Q (Some [0; 1]%Z) true
     = inr (mkFrame [0; 1] [unit1; unit2], Some [0; 1]%Z)).
Proof.
  split; [|split].
  - intros. by eapply solve_conflicts_index_map.
  - exact two_squares_merged.
  - exact two_units_kept.
Qed.

(** The two examples of [solve_conflicts_return_indices] with the reference
    query, and its general part on the first of them. *)
Lemma solve_conflicts_return_indices_witness :
  Boxes.solve Boxes.query [sqA; sqB] (1 # 2)%Q None true
  = inr (mkFrame [3] [Boxes.box 0 0 14 10], Some [(-1)%Z]) ∧
  Boxes.solve Boxes.query [unit1; unit2] (1 # 2)%Q (Some [0; 1]%Z) true
  = inr (mkFrame [0; 1] [unit1; unit2], Some [0; 1]%Z) ∧
  length [(-1)%Z] = length (geometry_col (mkFrame [3] [Boxes.box 0 0 14 10])).
Proof.
  destruct solve_conflicts_return_indices as (Hgen & Hsq & Hunit).
  assert (H1 : Boxes.solve Boxes.query [sqA; sqB] (1 # 2)%Q None true
               = inr (mkFrame [3] [Boxes.box 0 0 14 10], Some [(-1)%Z]))
    by (apply Hsq; vm_compute; reflexivity).
  split; [exact H1|]. split; [apply Hunit; vm_compute; reflexivity|].
  exact (proj1 (Hgen _ _ _ _ _ _ _ _ _ _ _ _ _ _ H1)).
Defined.

(** C1 as stated fails: for the two overlapping squares the array has one
    entry, not one per input cell, and it is [-1], not [-1, -1]. *)
Lemma solve_conflicts_return_indices_counterexample :
  ∃ frame idx,
    Boxes.solve Boxes.query [sqA; sqB] (1 # 2)%Q None true = inr (frame, Some idx) ∧
    length idx ≠ length [sqA; sqB] ∧ idx ≠ [(-1)%Z; (-1)%Z] ∧ idx = [(-1)%Z].
Proof.
  do 2 eexists. split; [vm_compute; reflexivity|]. by repeat split.
Qed.

(** C3. [solve_conflicts] on an empty collection fails with an error, the
    assertion of line 35, whatever the other arguments are: it never returns
    a result. *)
Theorem solve_conflicts_empty_fails :
  ∀ (F : Type) (area : geometry F → F) (make_valid : geometry F → geometry F)
    (flt fle : F → F → bool) (fmul : F → F → F)
    (intersection union : Polygon F → Polygon F → geometry F)
    (query : list (Polygon F) → list (nat * nat))
    (threshold : F) (patch_indices : option (list Z)) (return_indices : bool),
    solve_conflicts area make_valid flt fle fmul intersection union query
      [] threshold patch_indices return_indices
    = inl (AssertionError "No cells was segmented, cannot continue").
Proof. intros. apply solve_conflicts_empty. Qed.

(** C6. When a candidate pair, reached after the pairs before it were
    processed, meets the merge condition on its current representatives and
    the canonicalized union of the two cells is empty, [solve_conflicts]
    fails with the assertion error of line 53: nothing is returned and no
    later pair is processed. *)
Theorem solve_conflicts_empty_merge_fails :
  ∀ (F : Type) (area : geometry F → F) (make_valid : geometry F → geometry F)
    (flt fle : F → F → bool) (fmul : F → F → F)
    (intersection union : Polygon F → Polygon F → geometry F)
    (query : list (Polygon F) → list (nat * nat))
    (cells : list (Polygon F)) (threshold : F) (patch_indices : option (list Z))
    (return_indices : bool) (pre : list (nat * nat)) (p : nat * nat)
    (post : list (nat * nat)) (st : list nat * list (Polygon F))
    (r1 r2 : nat) (c1 c2 M : Polygon F),
    cells ≠ [] →
    filter_conflicts patch_indices (query cells) = inr (pre ++ p :: post) →
    foldM (resolve_pair area make_valid flt fle fmul intersection union threshold)
          (seq 0 (length cells), cells) pre = inr st →
    st.1 !! p.1 = Some r1 → st.1 !! p.2 = Some r2 →
    st.2 !! r1 = Some c1 → st.2 !! r2 = Some c2 →
    merge_test area flt fle fmul intersection threshold c1 c2 = true →
    _ensure_polygon area make_valid flt (union c1 c2) = inr M →
    is_empty M = true →
    solve_conflicts area make_valid flt fle fmul intersection union query
      cells threshold patch_indices return_indices
    = inl (AssertionError "Merged cell is empty").
Proof. intros. by eapply solve_conflicts_merged_empty. Qed.

(** Two overlapping rectangles without width: their union collapses to a
    line, which canonicalizes to the empty polygon. *)
Lemma solve_conflicts_empty_merge_fails_witness :
  Boxes.solve Boxes.query [flat1; flat2] (1 # 2)%Q None false
  = inl (AssertionError "Merged cell is empty").
Proof.
  apply (solve_conflicts_empty_merge_fails Q Boxes.area Boxes.make_valid Boxes.flt
           Boxes.fle Boxes.fmul Boxes.intersection Boxes.union Boxes.query
           [flat1; flat2] (1 # 2)%Q None false
           [] (0, 1) [(1, 0)] ([0; 1], [flat1; flat2]) 0 1 flat1 flat2 empty_polygon);
    first [ done | vm_compute; reflexivity ].
Defined.

(** ** [_ensure_polygon] *)

Section EnsurePolygonFacts.
Context {F : Type}.
Variable area : geometry F → F.
Variable make_valid : geometry F → geometry F.
Variable flt : F → F → bool.

Let ensure := _ensure_polygon area make_valid flt.

(** the branch of lines 93-96: a repaired polygon loses its holes *)
Lemma ensure_polygon_of_polygon cell p :
  make_valid cell = GPolygon p →
  ensure cell = inr (mkPolygon (exterior p) []).
Proof.
  intros H. unfold ensure, _ensure_polygon. rewrite H.
  destruct p as [ext [|hole holes]]; reflexivity.
Qed.

(** [max] hands back one of the polygons it was given, as it is *)
Lemma max_from_elem {A} (key : A → F) (best : A) (l : list A) :
  max_from flt key best l ∈ best :: l.
Proof.
  revert best. induction l as [|x l IH]; intros best; simpl.
  - repeat constructor.
  - destruct (flt (key best) (key x)).
    + apply elem_of_cons. right. apply IH.
    + specialize (IH best). apply elem_of_cons in IH as [->|IH].
      * repeat constructor.
      * apply elem_of_cons. right. apply elem_of_cons. by right.
Qed.

(** the branch of lines 98-99: a member of the multi-polygon, holes
    included *)
Lemma ensure_polygon_of_multi cell geoms p :
  make_valid cell = GMultiPolygon geoms →
  ensure cell = inr p → p ∈ geoms.
Proof.
  intros H. unfold ensure, _ensure_polygon. rewrite H.
  destruct geoms as [|g geoms]; simpl; [discriminate|].
  intros [= <-]. apply max_from_elem.
Qed.
End EnsurePolygonFacts.

(** C4, on the code. A valid multi-polygon whose only member has a hole:
    [_ensure_polygon] returns that member with its hole, so the result is
    not a single-ring polygon. *)
Theorem ensure_polygon_multi_keeps_holes :
  ∀ (area : geometry Q → Q) (make_valid : geometry Q → geometry Q)
    (flt : Q → Q → bool),
    make_valid donut_multi = donut_multi →
    _ensure_polygon area make_valid flt donut_multi = inr donut ∧
    length (interiors donut) = 1 ∧ ¬ single_ring donut ∧ is_empty donut = false.
Proof.
  intros area make_valid flt H. unfold _ensure_polygon. rewrite H.
  repeat split; done.
Qed.

Lemma ensure_polygon_multi_keeps_holes_witness :
  Boxes.ensure_polygon donut_multi = inr donut ∧
  length (interiors donut) = 1 ∧ ¬ single_ring donut ∧ is_empty donut = false.
Proof.
  apply (ensure_polygon_multi_keeps_holes Boxes.area Boxes.make_valid Boxes.flt).
  reflexivity.
Defined.

(** C5, on the code. Canonicalizing the same multi-polygon once gives the
    polygon with its hole; canonicalizing that result again drops the hole:
    the second application changes the result of the first. *)
Theorem ensure_polygon_not_idempotent :
  ∀ (area : geometry Q → Q) (make_valid : geometry Q → geometry Q)
    (flt : Q → Q → bool),
    make_valid donut_multi = donut_multi →
    make_valid (GPolygon donut) = GPolygon donut →
    _ensure_polygon area make_valid flt donut_multi = inr donut ∧
    _ensure_polygon area make_valid flt (GPolygon donut)
    = inr (mkPolygon (exterior donut) []) ∧
    mkPolygon (exterior donut) [] ≠ donut.
Proof.
  intros area make_valid flt H1 H2. unfold _ensure_polygon. rewrite H1, H2.
  repeat split; done.
Qed.

Lemma ensure_polygon_not_idempotent_witness :
  Boxes.ensure_polygon donut_multi = inr donut ∧
  Boxes.ensure_polygon (GPolygon donut) = inr (mkPolygon (exterior donut) []) ∧
  mkPolygon (exterior donut) [] ≠ donut.
Proof.
  apply (ensure_polygon_not_idempotent Boxes.area Boxes.make_valid Boxes.flt);
    vm_compute; reflexivity.
Defined.

(** ** [geometrize] *)

Section GeometrizeFacts.
Context {F : Type}.
Variable area : geometry F → F.
Variable make_valid : geometry F → geometry F.
Variable flt : F → F → bool.
Variable fmul : F → F → F.
Variable fdiv : F → F → F.
Variable fneg : F → F.
Variable fsqrt : F → F.
Variable pi : F.
Variable fmean : list F → F.
Variable lit : Q → F.
Variable buffer : geometry F → F → geometry F.
Variable simplify : geometry F → F → geometry F.
Variable findContours : list (list Z) → list (list (Z * Z)).

Let run_geometrize :=
  geometrize area make_valid flt fmul fdiv fneg fsqrt pi fmean lit buffer
    simplify findContours.

Lemma geometrize_max_zero mask tolerance smooth_radius_ratio :
  mask_max mask = inr 0%Z →
  run_geometrize mask tolerance smooth_radius_ratio
  = (["No cell was returned by the segmentation"], inr (PyList [])).
Proof.
  intros H. unfold run_geometrize, geometrize, bind_logged. simpl.
  rewrite H. reflexivity.
Qed.

(** with cells in the mask, what is returned is a frame *)
Lemma geometrize_cells_frame mask tolerance smooth_radius_ratio m log v :
  mask_max mask = inr m → m ≠ 0%Z →
  run_geometrize mask tolerance smooth_radius_ratio = (log, inr v) →
  ∃ df, v = PyFrame df.
Proof.
  intros H Hm. unfold run_geometrize, geometrize, bind_logged. simpl.
  rewrite H. destruct (Z.eqb_spec m 0) as [|_]; [done|].
  match goal with |- context [mapM_logged ?f ?l] => destruct (mapM_logged f l) as [w [e|x]] end;
    simpl; intros [= _ <-] || discriminate. by eexists.
Qed.

Lemma mask_max_zeros rows cols :
  mask_max (replicate (S rows) (replicate (S cols) 0%Z)) = inr 0%Z.
Proof.
  unfold mask_max. simpl. f_equal.
  assert (Hfold : ∀ l : list Z, Forall (fun v => v = 0%Z) l → foldl Z.max 0%Z l = 0%Z).
  { induction 1 as [|v l -> _ IH]; simpl; auto. }
  assert (Hrow : ∀ n, Forall (fun v => v = 0%Z) (replicate n 0%Z)).
  { intros n. apply Forall_forall. intros v Hv.
    by apply elem_of_replicate in Hv as [-> _]. }
  apply Hfold, Forall_app. split; [apply Hrow|].
  induction rows as [|k IH]; simpl; [constructor|].
  constructor; [done|]. apply Forall_app. split; [apply Hrow|apply IH].
Qed.
End GeometrizeFacts.

(** C7, on the code. On a mask of any shape holding only the background
    label 0, [geometrize] logs its warning and returns the Python list [[]]:
    no exception, but not a GeoDataFrame, which is what it returns when the
    mask has cells. *)
Theorem geometrize_no_cells_returns_list :
  ∀ (F : Type) (area : geometry F → F) (make_valid : geometry F → geometry F)
    (flt : F → F → bool) (fmul fdiv : F → F → F) (fneg fsqrt : F → F) (pi : F)
    (fmean : list F → F) (lit : Q → F)
    (buffer simplify : geometry F → F → geometry F)
    (findContours : list (list Z) → list (list (Z * Z)))
    (rows cols : nat) (tolerance : option F) (smooth_radius_ratio : F),
    geometrize area make_valid flt fmul fdiv fneg fsqrt pi fmean lit buffer
      simplify findContours
      (replicate (S rows) (replicate (S cols) 0%Z)) tolerance smooth_radius_ratio
    = (["No cell was returned by the segmentation"], inr (PyList [])) ∧
    ∀ df : GeoDataFrame (Polygon F), PyList [] ≠ PyFrame df.
Proof.
  intros. split; [|done]. apply geometrize_max_zero, mask_max_zeros.
Qed.

(** ** [expand_radius] *)

Section ExpandRadiusFacts.
Context {F G : Type}.
Variable area : G → F.
Variable buffer : G → F → G.
Variable fmul : F → F → F.
Variable fdiv : F → F → F.
Variable fsqrt : F → F.
Variable pi : F.
Variable fmean : list F → F.
Variable truthy : F → bool.

Let run_expand_radius := expand_radius area buffer fmul fdiv fsqrt pi fmean truthy.
Let expand_distance := expand_distance area fmul fdiv fsqrt pi fmean.

Lemma expand_radius_falsy geo_df ratio heap :
  from_option truthy false ratio = false →
  run_expand_radius geo_df ratio heap = inr (geo_df, heap).
Proof.
  unfold run_expand_radius, expand_radius.
  destruct ratio as [r|]; simpl; [|done]. by intros ->.
Qed.

Lemma expand_radius_truthy geo_df ratio heap df :
  truthy ratio = true → heap !! geo_df = Some df →
  run_expand_radius geo_df (Some ratio) heap
  = inr (geo_df,
         <[geo_df := mkFrame (index df)
                       (map (fun g => buffer g (expand_distance ratio (geometry_col df)))
                            (geometry_col df))]> heap).
Proof.
  intros Ht Hdf. unfold run_expand_radius, expand_radius.
  by rewrite Ht, Hdf.
Qed.
End ExpandRadiusFacts.

(** C8. [expand_radius] with no ratio or a zero ratio returns the collection
    as it is. With a non-zero ratio (a positive one in particular) it
    computes one distance, the ratio times the mean over the whole
    collection of sqrt(area / pi), and every polygon of the collection is
    buffered by that same distance. *)
Theorem expand_radius_pooled_distance :
  ∀ (F G : Type) (area : G → F) (buffer : G → F → G) (fmul fdiv : F → F → F)
    (fsqrt : F → F) (pi : F) (fmean : list F → F) (truthy : F → bool)
    (geo_df : ref) (heap : gmap ref (GeoDataFrame G)),
    let expand_radius := expand_radius area buffer fmul fdiv fsqrt pi fmean truthy in
    expand_radius geo_df None heap = inr (geo_df, heap) ∧
    (∀ ratio, truthy ratio = false →
       expand_radius geo_df (Some ratio) heap = inr (geo_df, heap)) ∧
    (∀ ratio df, truthy ratio = true → heap !! geo_df = Some df →
       ∃ heap' df',
         expand_radius geo_df (Some ratio) heap = inr (geo_df, heap') ∧
         heap' !! geo_df = Some df' ∧
         index df' = index df ∧
         length (geometry_col df') = length (geometry_col df) ∧
         let distance :=
           fmul ratio (fmean (map (fun g => fsqrt (fdiv (area g) pi)) (geometry_col df))) in
         ∀ i g, geometry_col df !! i = Some g →
                geometry_col df' !! i = Some (buffer g distance)).
Proof.
  intros. split; [done|]. split.
  - intros ratio Ht. by apply (expand_radius_falsy _ _ _ _ _ _ _ _ _ (Some ratio)).
  - intros ratio df Ht Hdf. do 2 eexists.
    split; [by apply expand_radius_truthy|].
    split; [apply lookup_insert_eq|]. simpl.
    split; [done|]. split; [by rewrite length_map|].
    intros i g Hg. by rewrite list_lookup_fmap, Hg.
Qed.

(** Discs of radius 1 and 3 with ratio 1/2: the mean radius is 2, so both
    grow by 1, to radius 2 and 4 (a distance per cell would give 1.5 and
    4.5). *)
Lemma discs_expand_distance :
  expand_distance Discs.area Rmult Rdiv sqrt PI Discs.fmean (1 / 2)%R [1%R; 3%R] = 1%R.
Proof.
  unfold expand_distance, Discs.fmean, Discs.area. simpl.
  replace (PI * (1 * 1) / PI)%R with (Rsqr 1) by (unfold Rsqr; field; apply PI_neq0).
  replace (PI * (3 * 3) / PI)%R with (Rsqr 3) by (unfold Rsqr; field; apply PI_neq0).
  rewrite !sqrt_Rsqr by lra. lra.
Qed.

Lemma discs_truthy_half : Discs.truthy (1 / 2)%R = true.
Proof. unfold Discs.truthy. destruct (Req_dec_T (1 / 2) 0); [lra|done]. Qed.

Lemma expand_radius_pooled_distance_witness :
  let heap : gmap ref (GeoDataFrame R) := {[ 1%positive := mkFrame [0; 1] [1%R; 3%R] ]} in
  ∃ heap' df',
    Discs.expand 1%positive (Some (1 / 2)%R) heap = inr (1%positive, heap') ∧
    heap' !! 1%positive = Some df' ∧
    index df' = [0; 1] ∧
    length (geometry_col df') = 2 ∧
    let distance :=
      (1 / 2 * Discs.fmean (map (fun g => sqrt (Discs.area g / PI)) [1; 3]))%R in
    ∀ i g, [1%R; 3%R] !! i = Some g →
           geometry_col df' !! i = Some (Discs.buffer g distance).
Proof.
  intros heap.
  apply (proj2 (proj2 (expand_radius_pooled_distance R R Discs.area Discs.buffer
                         Rmult Rdiv sqrt PI Discs.fmean Discs.truthy 1%positive heap))
           (1 / 2)%R (mkFrame [0; 1] [1%R; 3%R])).
  - exact discs_truthy_half.
  - apply lookup_singleton_eq.
Defined.

(** C10. With a truthy ratio, [expand_radius] on a frame writes the buffered
    geometries into the frame it was given and returns that same frame: no
    frame is created, the other frames are untouched, and whoever holds the
    reference now sees the buffered geometries in place of the original
    ones. *)
Theorem expand_radius_in_place :
  ∀ (F G : Type) (area : G → F) (buffer : G → F → G) (fmul fdiv : F → F → F)
    (fsqrt : F → F) (pi : F) (fmean : list F → F) (truthy : F → bool)
    (geo_df : ref) (heap : gmap ref (GeoDataFrame G)) (ratio : F)
    (df : GeoDataFrame G),
    truthy ratio = true → heap !! geo_df = Some df →
    let buffered :=
      map (fun g => buffer g (expand_distance area fmul fdiv fsqrt pi fmean ratio
                                (geometry_col df)))
          (geometry_col df) in
    ∃ heap',
      expand_radius area buffer fmul fdiv fsqrt pi fmean truthy
        geo_df (Some ratio) heap = inr (geo_df, heap') ∧
      dom heap' = dom heap ∧
      (∀ r, r ≠ geo_df → heap' !! r = heap !! r) ∧
      heap' !! geo_df = Some (mkFrame (index df) buffered) ∧
      (buffered ≠ geometry_col df → heap' !! geo_df ≠ Some df).
Proof.
  intros F G area buffer fmul fdiv fsqrt pi fmean truthy geo_df heap ratio df
    Ht Hdf buffered.
  eexists. split; [by apply expand_radius_truthy|]. split; [|split; [|split]].
  - rewrite dom_insert_L. apply elem_of_dom_2 in Hdf. set_solver.
  - intros r Hr. by rewrite lookup_insert_ne.
  - apply lookup_insert_eq.
  - intros Hneq. rewrite lookup_insert_eq. intros [= H]. apply Hneq.
    by rewrite <- H.
Qed.

Lemma expand_radius_in_place_witness :
  let heap : gmap ref (GeoDataFrame R) := {[ 1%positive := mkFrame [0; 1] [1%R; 3%R] ]} in
  let buffered :=
    map (fun g => Discs.buffer g
                    (expand_distance Discs.area Rmult Rdiv sqrt PI Discs.fmean
                       (1 / 2)%R [1%R; 3%R]))
        [1%R; 3%R] in
  ∃ heap',
    Discs.expand 1%positive (Some (1 / 2)%R) heap = inr (1%positive, heap') ∧
    dom heap' = dom heap ∧
    (∀ r, r ≠ 1%positive → heap' !! r = heap !! r) ∧
    heap' !! 1%positive = Some (mkFrame [0; 1] buffered) ∧
    (buffered ≠ [1%R; 3%R] → heap' !! 1%positive ≠ Some (mkFrame [0; 1] [1%R; 3%R])).
Proof.
  intros heap.
  apply (expand_radius_in_place R R Discs.area Discs.buffer Rmult Rdiv sqrt PI
           Discs.fmean Discs.truthy 1%positive heap (1 / 2)%R
           (mkFrame [0; 1] [1%R; 3%R])).
  - exact discs_truthy_half.
  - apply lookup_singleton_eq.
Defined.

(** ** The Baysor patch runner *)

Section BaysorFacts.
Import Baysor.
Variable subprocess_run : string → string → gset string → completed * gset string.
Variable cwd : string.
Variable version_at_least : string → string → result bool.
Variable get_executable_path : gset string → result string.
Variable get_default_config : SpatialData → result config.
Variable toml_load : string → gset string → result config.
Variable get_transcripts_patches_dirs : SpatialData → list string.
Variable copy_segmentation_config : string → config → gset string → result (gset string).
Variable resolve :
  SpatialData → list string → string → Z → string → gset string → result SpatialData.
Variable rmtree : string → gset string → result (gset string).

Let call := call subprocess_run.
Let version := _use_polygons_format_argument subprocess_run cwd version_at_least.
Let baysor :=
  baysor subprocess_run cwd version_at_least get_executable_path get_default_config
    toml_load get_transcripts_patches_dirs copy_segmentation_config resolve rmtree.

(** in tolerant mode a patch never raises *)
Lemma call_force_returns self patch_dir w :
  force self = true → ∃ w', call self patch_dir w = inr w'.
Proof.
  intros Hf. unfold call, Baysor.call. rewrite Hf.
  destruct (recover self && _); [by eexists|].
  destruct (negb _); by eexists.
Qed.

(** a non-zero exit in tolerant mode: one more warning, nothing else *)
Lemma call_force_failure self patch_dir w :
  force self = true →
  recover self && bool_decide (artifact patch_dir ∈ files w) = false →
  returncode (subprocess_run patch_dir (baysor_command self) (files w)).1 ≠ 0%Z →
  call self patch_dir w
  = inr (mkWorld (subprocess_run patch_dir (baysor_command self) (files w)).2
           (warnings w ++
              ["Baysor error on patch " +:+ patch_dir +:+ " with command `"
                 +:+ baysor_command self +:+ "`"])).
Proof.
  intros Hf Hr Hcode. unfold call, Baysor.call. rewrite Hf, Hr.
  apply Z.eqb_neq in Hcode. by rewrite Hcode.
Qed.

(** in tolerant mode the batch runs every patch and returns *)
Lemma run_with_backend_force self patches_dirs w :
  force self = true →
  ∃ w', _run_with_backend (map (call self) patches_dirs) w = inr w'.
Proof.
  intros Hf. revert w. induction patches_dirs as [|d ds IH]; intros w; simpl.
  - by eexists.
  - destruct (call_force_returns self d w Hf) as [w1 H1].
    unfold _run_with_backend. simpl. rewrite H1. apply IH.
Qed.

Lemma existsb_artifact (fs : gset string) (patches_dirs : list string) :
  existsb (fun patch_dir => bool_decide (artifact patch_dir ∈ fs)) patches_dirs = true
  ↔ Exists (fun patch_dir => artifact patch_dir ∈ fs) patches_dirs.
Proof.
  rewrite existsb_exists, Exists_exists. split.
  - intros (d & Hd & H). exists d. split; [by apply list_elem_of_In|].
    by apply bool_decide_eq_true in H.
  - intros (d & Hd & H). exists d. split; [by apply list_elem_of_In|].
    by apply bool_decide_eq_true.
Qed.

(** in tolerant mode, when the process exits non-zero on every patch, every
    patch is run and gets its warning *)
Lemma run_with_backend_all_fail self patches_dirs w :
  force self = true → recover self = false →
  (∀ d fs, returncode (subprocess_run d (baysor_command self) fs).1 ≠ 0%Z) →
  ∃ w', _run_with_backend (map (call self) patches_dirs) w = inr w' ∧
        warnings w'
        = warnings w ++
            map (fun d => "Baysor error on patch " +:+ d +:+ " with command `"
                            +:+ baysor_command self +:+ "`") patches_dirs.
Proof.
  intros Hf Hr Hfail. revert w.
  induction patches_dirs as [|d ds IH]; intros w; simpl.
  - exists w. by rewrite app_nil_r.
  - unfold _run_with_backend. simpl.
    rewrite call_force_failure; [|done|by rewrite Hr|apply Hfail]. simpl.
    destruct (IH (mkWorld (subprocess_run d (baysor_command self) (files w)).2
                    (warnings w ++
                       ["Baysor error on patch " +:+ d +:+ " with command `"
                          +:+ baysor_command self +:+ "`"])))
      as (w' & Hrun & Hw).
    exists w'. split; [exact Hrun|]. rewrite Hw. simpl. by rewrite <- (assoc_L (++)).
Qed.

(** processes that write no result file leave none *)
Lemma run_with_backend_no_result self patches_dirs (dirs : list string) w w' :
  (∀ d (fs : gset string), (∀ d', d' ∈ dirs → artifact d' ∉ fs) →
           ∀ d', d' ∈ dirs → artifact d' ∉ (subprocess_run d (baysor_command self) fs).2) →
  (∀ d', d' ∈ dirs → artifact d' ∉ files w) →
  _run_with_backend (map (call self) patches_dirs) w = inr w' →
  ∀ d', d' ∈ dirs → artifact d' ∉ files w'.
Proof.
  intros Hrun. revert w. unfold _run_with_backend.
  induction patches_dirs as [|d ds IH]; intros w Hw; simpl.
  - by intros [= <-].
  - intros H. apply bind_inr in H as (w1 & H1 & H). apply (IH w1); [|exact H].
    revert H1. unfold call, Baysor.call.
    destruct (recover self && _); [by intros [= <-]|].
    destruct (negb _).
    + destruct (force self); [|discriminate]. intros [= <-]. simpl.
      by apply Hrun.
    + intros [= <-]. simpl. by apply Hrun.
Qed.

(** C9 (amended). In tolerant mode ([force=True]) a non-zero exit of the
    external process on a patch only adds a warning and the batch goes on to
    the end: it always returns, and when the process fails on every patch
    every patch has its warning. Once all patches have run, the call tests
    whether some patch directory holds [segmentation_counts.loom] (lines
    66-69), not what the patches did: if none does, the call fails with the
    assertion error; if at least one does, the call goes on to the
    consolidation and returns when that succeeds. When no patch directory
    held the file before the batch and no process writes one, none holds it
    afterwards, and the call fails. *)
Theorem baysor_tolerant_mode :
  (∀ self patch_dir w,
     force self = true →
     recover self && bool_decide (artifact patch_dir ∈ files w) = false →
     returncode (subprocess_run patch_dir (baysor_command self) (files w)).1 ≠ 0%Z →
     call self patch_dir w
     = inr (mkWorld (subprocess_run patch_dir (baysor_command self) (files w)).2
              (warnings w ++
                 ["Baysor error on patch " +:+ patch_dir +:+ " with command `"
                    +:+ baysor_command self +:+ "`"]))) ∧
  (∀ self patches_dirs w,
     force self = true →
     ∃ w', _run_with_backend (map (call self) patches_dirs) w = inr w') ∧
  (∀ self patches_dirs w,
     force self = true → recover self = false →
     (∀ d fs, returncode (subprocess_run d (baysor_command self) fs).1 ≠ 0%Z) →
     ∃ w', _run_with_backend (map (call self) patches_dirs) w = inr w' ∧
           warnings w'
           = warnings w ++
               map (fun d => "Baysor error on patch " +:+ d +:+ " with command `"
                               +:+ baysor_command self +:+ "`") patches_dirs) ∧
  (∀ sdata cfg min_area delete_cache recover key_added w exe conf gene fs w',
     let patches_dirs := get_transcripts_patches_dirs sdata in
     let queried := version exe (files w) in
     let baysor_patch :=
       mkBaysorPatch exe queried.1 true recover (patch_prior_shapes_key sdata) in
     has_transcript_patches sdata = true →
     get_executable_path (files w) = inr exe →
     match cfg with
     | None => get_default_config sdata
     | Some (inl c) => ret c
     | Some (inr path) => toml_load path queried.2
     end = inr conf →
     data_gene conf = Some gene → gene ≠ "" →
     foldM (fun fs patch_dir =>
              copy_segmentation_config (path_join patch_dir "config.toml") conf fs)
           queried.2 patches_dirs = inr fs →
     _run_with_backend (map (call baysor_patch) patches_dirs)
       (mkWorld fs (warnings w)) = inr w' →
     (Forall (fun patch_dir => artifact patch_dir ∉ files w') patches_dirs →
      baysor sdata cfg min_area delete_cache recover true key_added w
      = inl (AssertionError "Baysor failed on all patches")) ∧
     (Exists (fun patch_dir => artifact patch_dir ∈ files w') patches_dirs →
      ∀ sdata' fs',
        resolve sdata patches_dirs gene min_area key_added (files w') = inr sdata' →
        (if delete_cache
         then foldM (fun fs patch_dir => rmtree patch_dir fs) (files w') patches_dirs
         else ret (files w')) = inr fs' →
        baysor sdata cfg min_area delete_cache recover true key_added w
        = inr (mkSData (has_transcript_patches sdata') (patch_prior_shapes_key sdata')
                       (Some key_added),
               mkWorld fs' (warnings w'))) ∧
     ((∀ d, d ∈ patches_dirs → artifact d ∉ fs) →
      (∀ d (fs0 : gset string), (∀ d', d' ∈ patches_dirs → artifact d' ∉ fs0) →
                ∀ d', d' ∈ patches_dirs →
                      artifact d' ∉ (subprocess_run d (baysor_command baysor_patch) fs0).2) →
      baysor sdata cfg min_area delete_cache recover true key_added w
      = inl (AssertionError "Baysor failed on all patches"))).
Proof.
  split; [exact call_force_failure|]. split; [exact run_with_backend_force|].
  split; [exact run_with_backend_all_fail|].
  intros sdata cfg min_area delete_cache recover key_added w exe conf gene fs w'
    patches_dirs queried baysor_patch Hpatches Hexe Hconf Hgene Hne Hcopy Hrun.
  assert (Hnone : Forall (fun patch_dir => artifact patch_dir ∉ files w') patches_dirs →
            baysor sdata cfg min_area delete_cache recover true key_added w
            = inl (AssertionError "Baysor failed on all patches")).
  { intros Hnone. unfold baysor, Baysor.baysor. rewrite Hpatches. simpl negb. cbv iota.
    rewrite Hexe, bind_ret. cbv zeta. fold version. fold queried. cbn [files warnings].
    rewrite Hconf, bind_ret, Hgene.
    destruct (decide (gene = "")) as [|_]; [done|].
    fold patches_dirs. rewrite Hcopy, bind_ret.
    fold call. fold baysor_patch. rewrite Hrun, bind_ret. simpl andb.
    destruct (existsb _ patches_dirs) eqn:Hex; [|done].
    apply existsb_artifact, Exists_exists in Hex as (d & Hd & H).
    rewrite Forall_forall in Hnone. by destruct (Hnone d Hd). }
  split; [exact Hnone|]. split.
  - intros Hsome sdata' fs' Hres Hrm.
    unfold baysor, Baysor.baysor. rewrite Hpatches. simpl negb. cbv iota.
    rewrite Hexe, bind_ret. cbv zeta. fold version. fold queried. cbn [files warnings].
    rewrite Hconf, bind_ret, Hgene.
    destruct (decide (gene = "")) as [|_]; [done|].
    fold patches_dirs. rewrite Hcopy, bind_ret.
    fold call. fold baysor_patch. rewrite Hrun, bind_ret. simpl andb.
    apply existsb_artifact in Hsome. rewrite Hsome. simpl negb. cbv iota.
    rewrite Hres, bind_ret.
    destruct delete_cache.
    + by rewrite Hrm, bind_ret.
    + injection Hrm as <-. by destruct w'.
  - intros Hclean Hwrite. apply Hnone, Forall_forall. intros d Hd.
    by apply (run_with_backend_no_result baysor_patch patches_dirs patches_dirs
                (mkWorld fs (warnings w)) w' Hwrite Hclean Hrun).
Qed.
End BaysorFacts.

(** Two patches in tolerant mode, on a clean file system: when the tool
    fails on both, both get their warning and the call fails; when it
    succeeds on the second the call returns, with one warning for the
    first, and the cache is deleted. *)
Lemma baysor_tolerant_mode_witness :
  let w0 := Baysor.mkWorld ∅ [] in
  let self := Baysor.mkBaysorPatch "baysor" true true false None in
  (∃ w', Baysor._run_with_backend
           (map (Baysor.call (BaysorDemo.with_version BaysorDemo.fail_all) self)
                BaysorDemo.dirs) w0 = inr w' ∧
         Baysor.warnings w'
         = [BaysorDemo.failure_warning "patches/0"; BaysorDemo.failure_warning "patches/1"]) ∧
  BaysorDemo.baysor_with BaysorDemo.fail_all BaysorDemo.sdata None 0 true false true
    "baysor_boundaries" w0
  = inl (AssertionError "Baysor failed on all patches") ∧
  BaysorDemo.baysor_with BaysorDemo.fail_all BaysorDemo.sdata None 0 false false true
    "baysor_boundaries" w0
  = inl (AssertionError "Baysor failed on all patches") ∧
  BaysorDemo.baysor_with BaysorDemo.run BaysorDemo.sdata None 0 true false true
    "baysor_boundaries" w0
  = inr (Baysor.mkSData true None (Some "baysor_boundaries"),
         Baysor.mkWorld ∅ [BaysorDemo.failure_warning "patches/0"]).
Proof.
  intros w0 self. split; [|split; [|split]].
  - destruct (proj1 (proj2 (proj2 (baysor_tolerant_mode
                                 (BaysorDemo.with_version BaysorDemo.fail_all) "."
                                 BaysorDemo.version_at_least
                                 BaysorDemo.get_executable_path
                                 BaysorDemo.get_default_config BaysorDemo.toml_load
                                 BaysorDemo.get_transcripts_patches_dirs
                                 BaysorDemo.copy_segmentation_config
                                 BaysorDemo.resolve BaysorDemo.rmtree)))
                 self BaysorDemo.dirs w0) as (w' & Hrun & Hw).
    + reflexivity.
    + reflexivity.
    + intros d fs. unfold BaysorDemo.with_version. by case_decide.
    + exists w'. split; [exact Hrun|]. rewrite Hw. reflexivity.
  - unfold BaysorDemo.baysor_with.
    edestruct (proj2 (proj2 (proj2 (baysor_tolerant_mode
                                 (BaysorDemo.with_version BaysorDemo.fail_all) "."
                                 BaysorDemo.version_at_least
                                 BaysorDemo.get_executable_path
                                 BaysorDemo.get_default_config BaysorDemo.toml_load
                                 BaysorDemo.get_transcripts_patches_dirs
                                 BaysorDemo.copy_segmentation_config
                                 BaysorDemo.resolve BaysorDemo.rmtree)))
                 BaysorDemo.sdata None 0%Z true false "baysor_boundaries" w0
                 "baysor" (Baysor.mkConfig (Some "gene")) "gene"
                 BaysorDemo.configured_files
                 (Baysor.mkWorld BaysorDemo.configured_files
                    [BaysorDemo.failure_warning "patches/0";
                     BaysorDemo.failure_warning "patches/1"])) as (Hfail & _ & _).
    1-7: first [ discriminate | vm_compute; reflexivity ].
    apply Hfail. apply (bool_decide_unpack _). vm_compute. exact I.
  - unfold BaysorDemo.baysor_with.
    edestruct (proj2 (proj2 (proj2 (baysor_tolerant_mode
                                 (BaysorDemo.with_version BaysorDemo.fail_all) "."
                                 BaysorDemo.version_at_least
                                 BaysorDemo.get_executable_path
                                 BaysorDemo.get_default_config BaysorDemo.toml_load
                                 BaysorDemo.get_transcripts_patches_dirs
                                 BaysorDemo.copy_segmentation_config
                                 BaysorDemo.resolve BaysorDemo.rmtree)))
                 BaysorDemo.sdata None 0%Z false false "baysor_boundaries" w0
                 "baysor" (Baysor.mkConfig (Some "gene")) "gene"
                 BaysorDemo.configured_files
                 (Baysor.mkWorld BaysorDemo.configured_files
                    [BaysorDemo.failure_warning "patches/0";
                     BaysorDemo.failure_warning "patches/1"])) as (_ & _ & Hclean).
    1-7: first [ discriminate | vm_compute; reflexivity ].
    apply Hclean.
    + intros d Hd. apply (bool_decide_unpack _).
      repeat (apply elem_of_cons in Hd as [->|Hd]); [..|by apply elem_of_nil in Hd];
        vm_compute; exact I.
    + intros d fs0 Hfs0 d' Hd'. unfold BaysorDemo.with_version.
      case_decide; by apply Hfs0.
  - unfold BaysorDemo.baysor_with.
    edestruct (proj2 (proj2 (proj2 (baysor_tolerant_mode
                                 (BaysorDemo.with_version BaysorDemo.run) "."
                                 BaysorDemo.version_at_least
                                 BaysorDemo.get_executable_path
                                 BaysorDemo.get_default_config BaysorDemo.toml_load
                                 BaysorDemo.get_transcripts_patches_dirs
                                 BaysorDemo.copy_segmentation_config
                                 BaysorDemo.resolve BaysorDemo.rmtree)))
                 BaysorDemo.sdata None 0%Z true false "baysor_boundaries" w0
                 "baysor" (Baysor.mkConfig (Some "gene")) "gene"
                 BaysorDemo.configured_files
                 (Baysor.mkWorld BaysorDemo.final_files
                    [BaysorDemo.failure_warning "patches/0"])) as (_ & Hok & _).
    1-7: first [ discriminate | vm_compute; reflexivity ].
    apply (fun Hsome => Hok Hsome BaysorDemo.sdata ∅);
      first [ reflexivity | vm_compute; reflexivity
            | apply (bool_decide_unpack _); vm_compute; exact I ].
Defined.

(** C9 as stated fails: with the result file of an earlier run in
    [patches/0], a batch in tolerant mode in which the tool fails on both
    patches and writes nothing returns, with its two warnings, where the
    claim has it fail. *)
Lemma baysor_stale_result_counterexample :
  let tool := BaysorDemo.with_version BaysorDemo.fail_all in
  (∀ patch_dir command fs,
     command ≠ "baysor --version" →
     Baysor.returncode (tool patch_dir command fs).1 = 1%Z ∧
     (tool patch_dir command fs).2 = fs) ∧
  BaysorDemo.baysor_with BaysorDemo.fail_all BaysorDemo.sdata None 0 false false true
    "baysor_boundaries" (Baysor.mkWorld BaysorDemo.stale_files [])
  = inr (Baysor.mkSData true None (Some "baysor_boundaries"),
         Baysor.mkWorld BaysorDemo.stale_configured_files
           [BaysorDemo.failure_warning "patches/0";
            BaysorDemo.failure_warning "patches/1"]).
Proof.
  intros tool. split.
  - intros patch_dir command fs Hc. unfold tool, BaysorDemo.with_version.
    by rewrite decide_False.
  - vm_compute. reflexivity.
Qed.

(** * Further properties *)

(** ** [np.unique] and [iloc] on ranges *)

Lemma insert_unique_lt (x : nat) (l : list nat) :
  Forall (fun y => x < y) l → insert_unique x l = x :: l.
Proof.
  destruct l as [|y l]; [done|]. intros H. apply Forall_cons in H as [H _]. simpl.
  apply Nat.ltb_lt in H. by rewrite H.
Qed.

Lemma np_unique_seq (a n : nat) : np_unique (seq a n) = seq a n.
Proof.
  unfold np_unique. revert a. induction n as [|n IH]; intros a; simpl; [done|].
  rewrite IH. apply insert_unique_lt, Forall_forall.
  intros y Hy. apply elem_of_seq in Hy. lia.
Qed.

Lemma mapM_getitem_seq {A} (pre l : list A) :
  mapM (getitem (pre ++ l)) (seq (length pre) (length l)) = inr l.
Proof.
  revert pre. induction l as [|x l IH]; intros pre; simpl; [done|].
  unfold getitem at 1. rewrite list_lookup_middle by done. simpl.
  specialize (IH (pre ++ [x])). rewrite <- (assoc_L (++)), length_app in IH.
  simpl in IH. rewrite Nat.add_1_r in IH. by rewrite IH.
Qed.

Lemma iloc_all {G} (cells : list G) :
  iloc (frame_of_list cells) (seq 0 (length cells)) = inr (frame_of_list cells).
Proof.
  unfold iloc, frame_of_list. simpl.
  pose proof (mapM_getitem_seq [] (seq 0 (length cells))) as H1.
  simpl in H1. rewrite length_seq in H1. rewrite H1. simpl.
  pose proof (mapM_getitem_seq [] cells) as H2. simpl in H2. by rewrite H2.
Qed.

Lemma insert_unique_sorted (x : nat) (l : list nat) :
  StronglySorted lt l → StronglySorted lt (insert_unique x l).
Proof.
  induction 1 as [|y l Hl IH Hy]; simpl.
  - repeat constructor.
  - destruct (Nat.ltb_spec x y) as [Hxy|Hxy].
    + constructor; [by constructor|]. constructor; [done|].
      eapply Forall_impl; [exact Hy|]. intros z Hz. simpl in Hz. lia.
    + destruct (Nat.eqb_spec x y) as [->|Hne]; [by constructor|].
      constructor; [done|]. apply Forall_forall. intros z Hz.
      apply elem_of_insert_unique in Hz as [->|Hz]; [lia|].
      rewrite Forall_forall in Hy. by apply Hy.
Qed.

Lemma np_unique_sorted (l : list nat) : StronglySorted lt (np_unique l).
Proof.
  unfold np_unique. induction l as [|x l IH]; simpl; [constructor|].
  by apply insert_unique_sorted.
Qed.

Lemma sorted_lt_NoDup (l : list nat) : StronglySorted lt l → NoDup l.
Proof.
  induction 1 as [|y l Hl IH Hy]; [constructor|].
  apply NoDup_cons. split; [|done]. intros Hin.
  rewrite Forall_forall in Hy. specialize (Hy y Hin). lia.
Qed.

Lemma np_unique_NoDup (l : list nat) : NoDup (np_unique l).
Proof. apply sorted_lt_NoDup, np_unique_sorted. Qed.

Lemma np_unique_nonempty (l : list nat) : l ≠ [] → np_unique l ≠ [].
Proof.
  destruct l as [|x l]; [done|]. intros _ H.
  assert (Hx : x ∈ np_unique (x :: l)) by (apply elem_of_np_unique; repeat constructor).
  rewrite H in Hx. by apply elem_of_nil in Hx.
Qed.

Lemma np_unique_duplicate (l : list nat) (i j : nat) (r : nat) :
  i ≠ j → l !! i = Some r → l !! j = Some r →
  length (np_unique l) < length l.
Proof.
  intros Hij Hi Hj.
  destruct (decide (length l ≤ length (np_unique l))) as [Hle|]; [|lia].
  exfalso.
  assert (Hsub : np_unique l ⊆+ l).
  { apply NoDup_submseteq; [apply np_unique_NoDup|].
    intros x. apply elem_of_np_unique. }
  apply submseteq_length_Permutation in Hsub; [|done].
  assert (Hnd : NoDup l) by (rewrite <- Hsub; apply np_unique_NoDup).
  apply Hij. eapply NoDup_lookup; eauto.
Qed.

(** ** More on the loop of [solve_conflicts] *)

Section SolveConflictsMore.
Context {F : Type}.
Variable area : geometry F → F.
Variable make_valid : geometry F → geometry F.
Variable flt : F → F → bool.
Variable fle : F → F → bool.
Variable fmul : F → F → F.
Variable intersection : Polygon F → Polygon F → geometry F.
Variable union : Polygon F → Polygon F → geometry F.
Variable query : list (Polygon F) → list (nat * nat).

Let ensure := _ensure_polygon area make_valid flt.
Let step := resolve_pair area make_valid flt fle fmul intersection union.
Let test := merge_test area flt fle fmul intersection.
Let solve := solve_conflicts area make_valid flt fle fmul intersection union query.
Let resolved_ok := resolved_ok area make_valid flt union.

(** what one iteration can do: nothing, or one merge *)
Lemma resolve_pair_inv threshold st p st' :
  step threshold st p = inr st' →
  ∃ r1 r2 c1 c2,
    st.1 !! p.1 = Some r1 ∧ st.1 !! p.2 = Some r2 ∧
    st.2 !! r1 = Some c1 ∧ st.2 !! r2 = Some c2 ∧
    ((test threshold c1 c2 = false ∧ st' = st) ∨
     (test threshold c1 c2 = true ∧
      ∃ M, ensure (union c1 c2) = inr M ∧ is_empty M = false ∧
           st' = (repoint st.1 [r1; r2] (length st.2), st.2 ++ [M]))).
Proof.
  unfold step, resolve_pair. intros H.
  apply bind_inr in H as (r1 & H1 & H). apply bind_inr in H as (r2 & H2 & H).
  apply bind_inr in H as (c1 & H3 & H). apply bind_inr in H as (c2 & H4 & H).
  apply getitem_inr in H1, H2, H3, H4.
  exists r1, r2, c1, c2. repeat (split; [done|]).
  fold (test threshold c1 c2) in H. destruct (test threshold c1 c2).
  - right. split; [done|]. apply bind_inr in H as (M & HM & H).
    destruct (is_empty M) eqn:He; [discriminate|]. injection H as <-.
    by exists M.
  - left. split; [done|]. by injection H as <-.
Qed.

Lemma lookup_repoint res olds new j :
  repoint res olds new !! j
  = (fun r => if isin r olds then new else r) <$> res !! j.
Proof. unfold repoint. apply list_lookup_fmap. Qed.

(** entries that are equal stay equal: a merge is never undone *)
Lemma resolve_pair_keeps_merged threshold st p st' i j :
  step threshold st p = inr st' →
  st.1 !! i = st.1 !! j → st'.1 !! i = st'.1 !! j.
Proof.
  intros H Hij. apply resolve_pair_inv in H as (r1 & r2 & c1 & c2 & _ & _ & _ & _ & H).
  destruct H as [[_ ->]|(_ & M & _ & _ & ->)]; [done|].
  simpl. by rewrite !lookup_repoint, Hij.
Qed.

Lemma foldM_keeps_merged threshold conflicts st st' i j :
  foldM (step threshold) st conflicts = inr st' →
  st.1 !! i = st.1 !! j → st'.1 !! i = st'.1 !! j.
Proof.
  revert st. induction conflicts as [|p l IH]; intros st; simpl.
  - by intros [= <-].
  - intros H Hij. apply bind_inr in H as (st1 & H1 & H).
    eapply IH; [exact H|]. eapply resolve_pair_keeps_merged; eauto.
Qed.

(** each entry is its own position or the position of a merged cell *)
Lemma resolve_pair_own_or_merged cells threshold st p st' :
  resolved_ok cells st →
  (∀ j r, st.1 !! j = Some r → r = j ∨ length cells ≤ r) →
  step threshold st p = inr st' →
  ∀ j r, st'.1 !! j = Some r → r = j ∨ length cells ≤ r.
Proof.
  intros (_ & _ & extra & Hcells & _) Hinv H j r.
  apply resolve_pair_inv in H as (r1 & r2 & c1 & c2 & _ & _ & _ & _ & H).
  destruct H as [[_ ->]|(_ & M & _ & _ & ->)]; [apply Hinv|].
  simpl. rewrite lookup_repoint. destruct (st.1 !! j) as [r'|] eqn:Hj; [|done].
  simpl. intros [= <-]. destruct (_ || _).
  - right. rewrite Hcells, length_app. lia.
  - by apply Hinv.
Qed.

Lemma foldM_own_or_merged cells threshold conflicts st st' :
  resolved_ok cells st →
  (∀ j r, st.1 !! j = Some r → r = j ∨ length cells ≤ r) →
  foldM (step threshold) st conflicts = inr st' →
  ∀ j r, st'.1 !! j = Some r → r = j ∨ length cells ≤ r.
Proof.
  revert st. induction conflicts as [|p l IH]; intros st Hok Hinv; simpl.
  - by intros [= <-].
  - intros H. apply bind_inr in H as (st1 & H1 & H).
    eapply IH; [| |exact H].
    + eapply resolve_pair_ok; eauto.
    + eapply resolve_pair_own_or_merged; eauto.
Qed.

(** a cell that is in no pair keeps its entry *)
Lemma foldM_untouched cells threshold conflicts st st' i :
  resolved_ok cells st →
  (∀ j r, st.1 !! j = Some r → r = j ∨ length cells ≤ r) →
  i < length cells →
  Forall (fun p : nat * nat => p.1 ≠ i ∧ p.2 ≠ i) conflicts →
  foldM (step threshold) st conflicts = inr st' →
  st.1 !! i = Some i → st'.1 !! i = Some i.
Proof.
  revert st. induction conflicts as [|p l IH]; intros st Hok Hinv Hi Hall; simpl.
  - by intros [= <-].
  - intros H Hii. apply bind_inr in H as (st1 & H1 & H).
    apply Forall_cons in Hall as [[Hp1 Hp2] Hall].
    eapply IH; [| | done | done | exact H |].
    + eapply resolve_pair_ok; eauto.
    + eapply resolve_pair_own_or_merged; eauto.
    + apply resolve_pair_inv in H1 as (r1 & r2 & c1 & c2 & Hr1 & Hr2 & _ & _ & H1).
      destruct H1 as [[_ ->]|(_ & M & _ & _ & ->)]; [done|].
      assert (Hn1 : i ≠ r1) by (destruct (Hinv _ _ Hr1); lia).
      assert (Hn2 : i ≠ r2) by (destruct (Hinv _ _ Hr2); lia).
      simpl. rewrite lookup_repoint, Hii. simpl.
      apply Nat.eqb_neq in Hn1, Hn2. by rewrite Hn1, Hn2.
Qed.
End SolveConflictsMore.

(** ** The candidate pairs *)

Lemma filter_conflicts_none (q : list (nat * nat)) :
  filter_conflicts None q = inr (filter (fun p : nat * nat => p.1 ≠ p.2) q).
Proof. reflexivity. Qed.

Lemma filter_conflicts_tags (tags : list Z) (q : list (nat * nat)) :
  Forall (fun p : nat * nat => p.1 < length tags ∧ p.2 < length tags) q →
  filter_conflicts (Some tags) q
  = inr (filter (fun p : nat * nat => tags !! p.1 ≠ tags !! p.2) q).
Proof.
  intros Hq. unfold filter_conflicts.
  assert (HmapM :
    mapM (fun p : nat * nat =>
            t1 <- getitem tags p.1 ;; t2 <- getitem tags p.2 ;;
            ret (p, negb (t1 =? t2)%Z)) q
    = inr (map (fun p : nat * nat => (p, bool_decide (tags !! p.1 ≠ tags !! p.2))) q)).
  { induction Hq as [|p q [H1 H2] _ IH]; simpl; [done|].
    apply lookup_lt_is_Some in H1 as [t1 H1]. apply lookup_lt_is_Some in H2 as [t2 H2].
    unfold getitem at 1 2. rewrite H1, H2. simpl. rewrite IH. simpl.
    do 3 f_equal. destruct (Z.eqb_spec t1 t2) as [->|Hne]; simpl; symmetry.
    - by apply bool_decide_eq_false; intros H; apply H.
    - apply bool_decide_eq_true. congruence. }
  rewrite HmapM. simpl. f_equal. clear.
  induction q as [|p q IH]; [done|]. simpl.
  rewrite !filter_cons. simpl.
  destruct (bool_decide_reflect (tags !! p.1 ≠ tags !! p.2)) as [H|H].
  - rewrite decide_True by done. rewrite decide_True by done. simpl. by rewrite IH.
  - rewrite decide_False by done. rewrite decide_False by done. exact IH.
Qed.

Lemma filter_conflicts_tags_error (tags : list Z) (q : list (nat * nat)) :
  Exists (fun p : nat * nat => length tags ≤ p.1 ∨ length tags ≤ p.2) q →
  filter_conflicts (Some tags) q = inl IndexError.
Proof.
  intros Hq. unfold filter_conflicts.
  assert (HmapM :
    mapM (fun p : nat * nat =>
            t1 <- getitem tags p.1 ;; t2 <- getitem tags p.2 ;;
            ret (p, negb (t1 =? t2)%Z)) q = inl IndexError).
  { induction Hq as [p q H|p q _ IH]; simpl.
    - unfold getitem at 1 2.
      destruct (tags !! p.1) as [t1|] eqn:H1; simpl; [|done].
      destruct (tags !! p.2) as [t2|] eqn:H2; simpl; [|done].
      apply lookup_lt_Some in H1, H2. lia.
    - destruct (_ <- getitem tags p.1 ;; _) as [e|y] eqn:Hy; simpl.
      + unfold getitem in Hy.
        destruct (tags !! p.1); simpl in Hy; [|by injection Hy as <-].
        destruct (tags !! p.2); simpl in Hy; [discriminate|by injection Hy as <-].
      + by rewrite IH. }
  by rewrite HmapM.
Qed.

Lemma filter_conflicts_distinct (patch_indices : option (list Z))
    (q l : list (nat * nat)) :
  filter_conflicts patch_indices q = inr l →
  Forall (fun p : nat * nat => p.1 ≠ p.2 ∧ p ∈ q) l.
Proof.
  destruct patch_indices as [tags|]; simpl.
  - intros H. apply bind_inr in H as (tagged & Htagged & H). injection H as <-.
    revert tagged Htagged. induction q as [|p q IH]; intros tagged; simpl.
    + by intros [= <-].
    + intros H. apply bind_inr in H as (y & Hy & H).
      apply bind_inr in H as (ys & Hys & H). injection H as <-.
      apply bind_inr in Hy as (t1 & H1 & Hy). apply bind_inr in Hy as (t2 & H2 & Hy).
      injection Hy as <-. apply getitem_inr in H1, H2.
      specialize (IH _ Hys).
      assert (IH' : Forall (fun p0 : nat * nat => p0.1 ≠ p0.2 ∧ p0 ∈ p :: q)
                      (map fst (filter (fun x : nat * nat * bool => x.2 = true) ys))).
      { eapply Forall_impl; [exact IH|]. intros p0 [? ?]. split; [done|].
        by apply elem_of_cons; right. }
      rewrite filter_cons. case_decide as Hd; simpl in Hd; [|exact IH'].
      simpl. constructor; [|exact IH'].
      split; [|by apply elem_of_cons; left]. intros Heq. rewrite Heq in H1.
      assert (t1 = t2) as -> by congruence. by rewrite Z.eqb_refl in Hd.
  - intros [= <-]. apply Forall_forall. intros p Hp.
    by apply list_elem_of_filter in Hp.
Qed.

Section SolveConflictsResults.
Context {F : Type}.
Variable area : geometry F → F.
Variable make_valid : geometry F → geometry F.
Variable flt : F → F → bool.
Variable fle : F → F → bool.
Variable fmul : F → F → F.
Variable intersection : Polygon F → Polygon F → geometry F.
Variable union : Polygon F → Polygon F → geometry F.
Variable query : list (Polygon F) → list (nat * nat).

Let ensure := _ensure_polygon area make_valid flt.
Let step := resolve_pair area make_valid flt fle fmul intersection union.
Let test := merge_test area flt fle fmul intersection.
Let solve := solve_conflicts area make_valid flt fle fmul intersection union query.

(** the shape of a run that returns *)
Lemma solve_conflicts_run cells threshold patch_indices return_indices frame idx :
  solve cells threshold patch_indices return_indices = inr (frame, idx) →
  cells ≠ [] ∧
  ∃ conflicts st,
    filter_conflicts patch_indices (query cells) = inr conflicts ∧
    foldM (step threshold) (seq 0 (length cells), cells) conflicts = inr st ∧
    index frame = np_unique st.1 ∧
    length (geometry_col frame) = length (np_unique st.1) ∧
    (∀ k u, np_unique st.1 !! k = Some u → geometry_col frame !! k = st.2 !! u) ∧
    idx = (if return_indices
           then Some (map (fun u => if (u <? length cells)%nat then Z.of_nat u else (-1)%Z)
                          (np_unique st.1))
           else None).
Proof.
  unfold solve, solve_conflicts.
  destruct (Nat.eqb_spec (length cells) 0) as [|Hn]; [discriminate|].
  intros H. split; [by intros ->|].
  apply bind_inr in H as (conflicts & Hc & H).
  apply bind_inr in H as (st & Hst & H).
  apply bind_inr in H as (unique_cells & Hloc & H).
  exists conflicts, st. split; [done|]. split; [done|].
  unfold iloc in Hloc.
  apply bind_inr in Hloc as (labels & Hlabels & Hloc).
  apply bind_inr in Hloc as (geoms & Hgeoms & Hloc).
  injection Hloc as <-.
  apply mapM_getitem in Hlabels as [Hllen Hlabels].
  apply mapM_getitem in Hgeoms as [Hglen Hgeoms].
  assert (Hidx : labels = np_unique st.1).
  { apply list_eq. intros k. destruct (np_unique st.1 !! k) as [u|] eqn:Hu.
    - destruct (Hlabels k u Hu) as [-> [u' Hu']]. simpl in *.
      rewrite Hu'. apply lookup_seq in Hu' as [-> _]. done.
    - apply lookup_ge_None. apply lookup_ge_None in Hu. lia. }
  assert (Hres : frame = mkFrame labels geoms ∧
                 idx = (if return_indices
                        then Some (map (fun u => if (u <? length cells)%nat
                                                 then Z.of_nat u else (-1)%Z)
                                       (np_unique st.1))
                        else None)).
  { destruct return_indices; by injection H as <- <-. }
  destruct Hres as [-> ->]. simpl.
  repeat split; try done.
  intros k u Hu. by destruct (Hgeoms k u Hu).
Qed.

Lemma solve_conflicts_unchanged cells threshold patch_indices return_indices conflicts :
  cells ≠ [] →
  filter_conflicts patch_indices (query cells) = inr conflicts →
  foldM (step threshold) (seq 0 (length cells), cells) conflicts
  = inr (seq 0 (length cells), cells) →
  solve cells threshold patch_indices return_indices
  = inr (frame_of_list cells,
         if return_indices then Some (map Z.of_nat (seq 0 (length cells))) else None).
Proof.
  intros Hne Hc Hst. unfold solve, solve_conflicts.
  destruct (Nat.eqb_spec (length cells) 0) as [H0|_]; [by destruct cells|].
  rewrite Hc, bind_ret. fold step. rewrite Hst, bind_ret. simpl.
  rewrite np_unique_seq, iloc_all, bind_ret.
  assert (Hmap : map (fun u => if (u <? length cells)%nat then Z.of_nat u else (-1)%Z)
                     (seq 0 (length cells))
                 = map Z.of_nat (seq 0 (length cells))).
  { apply map_ext_in. intros u Hu. apply in_seq in Hu.
    destruct (Nat.ltb_spec u (length cells)); [done|lia]. }
  rewrite Hmap. by destruct return_indices.
Qed.

Lemma foldM_no_merge cells threshold conflicts :
  Forall (fun p : nat * nat =>
            p.1 < length cells ∧ p.2 < length cells ∧ p.1 ≠ p.2) conflicts →
  (∀ i j c1 c2, i ≠ j → cells !! i = Some c1 → cells !! j = Some c2 →
                test threshold c1 c2 = false) →
  foldM (step threshold) (seq 0 (length cells), cells) conflicts
  = inr (seq 0 (length cells), cells).
Proof.
  intros Hall Htest. induction Hall as [|p l (H1 & H2 & Hne) _ IH]; simpl; [done|].
  destruct p as [i j]. simpl in *.
  destruct (lookup_lt_is_Some_2 cells i H1) as [c1 Hc1].
  destruct (lookup_lt_is_Some_2 cells j H2) as [c2 Hc2].
  unfold step.
  rewrite (resolve_pair_keep area make_valid flt fle fmul intersection union
             threshold _ cells i j i j c1 c2); simpl; try done.
  - by apply lookup_seq_lt.
  - by apply lookup_seq_lt.
  - by eapply Htest.
Qed.
End SolveConflictsResults.

Section SolveConflictsExtras.
Context {F : Type}.
Variable area : geometry F → F.
Variable make_valid : geometry F → geometry F.
Variable flt : F → F → bool.
Variable fle : F → F → bool.
Variable fmul : F → F → F.
Variable intersection : Polygon F → Polygon F → geometry F.
Variable union : Polygon F → Polygon F → geometry F.
Variable query : list (Polygon F) → list (nat * nat).

Let step := resolve_pair area make_valid flt fle fmul intersection union.
Let test := merge_test area flt fle fmul intersection.
Let solve := solve_conflicts area make_valid flt fle fmul intersection union query.

(** X1. A cell that is in no candidate pair is returned as it is, under its
    own index label, and its entry of the index array is its own index. *)
Theorem solve_conflicts_untouched_cell cells threshold patch_indices return_indices
    conflicts i c frame idx :
  filter_conflicts patch_indices (query cells) = inr conflicts →
  Forall (fun p : nat * nat => p.1 ≠ i ∧ p.2 ≠ i) conflicts →
  cells !! i = Some c →
  solve cells threshold patch_indices return_indices = inr (frame, idx) →
  ∃ k, index frame !! k = Some i ∧ geometry_col frame !! k = Some c ∧
       (return_indices = true → ∃ l, idx = Some l ∧ l !! k = Some (Z.of_nat i)).
Proof.
  intros Hc Hall Hi Hsolve.
  apply solve_conflicts_run in Hsolve
    as (_ & conflicts' & st & Hc' & Hst & Hindex & _ & Hgeo & ->).
  rewrite Hc in Hc'. injection Hc' as <-.
  pose proof (lookup_lt_Some _ _ _ Hi) as Hlt.
  pose proof (foldM_resolve_ok area make_valid flt fle fmul intersection union
                cells threshold conflicts _ st (resolved_ok_init _ _ _ _ cells) Hst)
    as (_ & _ & extra & Hcells & _).
  assert (Hii : st.1 !! i = Some i).
  { eapply (foldM_untouched area make_valid flt fle fmul intersection union cells);
      [apply resolved_ok_init| |done|exact Hall|exact Hst|].
    - intros j r Hj. apply lookup_seq in Hj as [-> _]. by left.
    - by apply lookup_seq_lt. }
  assert (Hin : i ∈ np_unique st.1).
  { apply elem_of_np_unique, list_elem_of_lookup. eauto. }
  apply list_elem_of_lookup in Hin as [k Hk].
  exists k. split; [by rewrite Hindex|]. split.
  - rewrite (Hgeo k i Hk), Hcells, lookup_app_l by done. done.
  - intros ->. eexists. split; [done|]. rewrite list_lookup_fmap, Hk. simpl.
    destruct (Nat.ltb_spec i (length cells)); [done|lia].
Qed.

(** X2. A merge is never undone: when a candidate pair passes the test of
    line 51 at its turn, strictly fewer cells are returned than were given. *)
Theorem solve_conflicts_merge_reduces cells threshold patch_indices return_indices
    pre p post st r1 r2 c1 c2 frame idx :
  filter_conflicts patch_indices (query cells) = inr (pre ++ p :: post) →
  foldM (step threshold) (seq 0 (length cells), cells) pre = inr st →
  st.1 !! p.1 = Some r1 → st.1 !! p.2 = Some r2 →
  st.2 !! r1 = Some c1 → st.2 !! r2 = Some c2 →
  test threshold c1 c2 = true →
  solve cells threshold patch_indices return_indices = inr (frame, idx) →
  length (geometry_col frame) < length cells.
Proof.
  intros Hc Hpre H1 H2 H3 H4 Ht Hsolve.
  apply solve_conflicts_run in Hsolve
    as (_ & conflicts' & st' & Hc' & Hst & _ & Hlen & _ & _).
  rewrite Hc in Hc'. injection Hc' as <-.
  apply filter_conflicts_distinct in Hc.
  apply Forall_app in Hc as [_ Hc]. apply Forall_cons in Hc as [[Hne _] _].
  unfold step in Hpre. rewrite foldM_app, Hpre, bind_ret in Hst.
  simpl in Hst. apply bind_inr in Hst as (st1 & Hstep & Hpost).
  assert (Hok' : resolved_ok area make_valid flt union cells st').
  { eapply foldM_resolve_ok; [|exact Hpost].
    eapply resolve_pair_ok; [|exact Hstep].
    eapply foldM_resolve_ok; [apply resolved_ok_init|exact Hpre]. }
  assert (Hmerged : st1.1 !! p.1 = st1.1 !! p.2).
  { apply resolve_pair_inv in Hstep as (r1' & r2' & c1' & c2' & H1' & H2' & H3' & H4' & H).
    rewrite H1 in H1'. injection H1' as <-. rewrite H2 in H2'. injection H2' as <-.
    rewrite H3 in H3'. injection H3' as <-. rewrite H4 in H4'. injection H4' as <-.
    fold test in H. destruct H as [[Hf _]|(_ & M & _ & _ & ->)]; [congruence|].
    simpl. rewrite !lookup_repoint, H1, H2. simpl.
    unfold isin. simpl. rewrite !Nat.eqb_refl. simpl. by rewrite orb_true_r. }
  eapply foldM_keeps_merged in Hmerged; [|exact Hpost].
  destruct Hok' as (Hlen' & _).
  assert (Hp1 : p.1 < length st'.1).
  { rewrite Hlen'. apply lookup_lt_Some in H1.
    pose proof (foldM_resolve_ok area make_valid flt fle fmul intersection union
                  cells threshold pre _ st (resolved_ok_init _ _ _ _ cells) Hpre)
      as (Hl & _). lia. }
  apply lookup_lt_is_Some in Hp1 as [r Hr].
  rewrite Hlen, <- Hlen'.
  eapply (np_unique_duplicate _ p.1 p.2 r); [done|done|by rewrite <- Hmerged].
Qed.

(** X3. When no two different cells pass the test of line 51, the collection
    is returned as it is and the index array is 0, ..., n-1. *)
Theorem solve_conflicts_below_threshold cells threshold patch_indices return_indices :
  cells ≠ [] →
  Forall (fun p : nat * nat => p.1 < length cells ∧ p.2 < length cells) (query cells) →
  (∀ tags, patch_indices = Some tags → length tags = length cells) →
  (∀ i j c1 c2, i ≠ j → cells !! i = Some c1 → cells !! j = Some c2 →
                test threshold c1 c2 = false) →
  solve cells threshold patch_indices return_indices
  = inr (frame_of_list cells,
         if return_indices then Some (map Z.of_nat (seq 0 (length cells))) else None).
Proof.
  intros Hne Hrange Htags Htest.
  assert (Hfilter : ∃ conflicts,
            filter_conflicts patch_indices (query cells) = inr conflicts).
  { destruct patch_indices as [tags|]; [|by eexists].
    eexists. apply filter_conflicts_tags. by rewrite (Htags tags). }
  destruct Hfilter as [conflicts Hc].
  eapply solve_conflicts_unchanged; [done|exact Hc|].
  apply foldM_no_merge; [|done].
  pose proof (filter_conflicts_distinct _ _ _ Hc) as Hd.
  apply Forall_forall. intros p Hp. rewrite Forall_forall in Hd, Hrange.
  destruct (Hd p Hp) as [Hne' Hq]. destruct (Hrange p Hq). done.
Qed.

(** X4. Cells that all carry the same patch tag are never merged, whatever
    their overlap: the collection is returned as it is. *)
Theorem solve_conflicts_same_patch cells threshold tags tag return_indices :
  cells ≠ [] →
  Forall (fun p : nat * nat => p.1 < length cells ∧ p.2 < length cells) (query cells) →
  length tags = length cells →
  Forall (fun t => t = tag) tags →
  solve cells threshold (Some tags) return_indices
  = inr (frame_of_list cells,
         if return_indices then Some (map Z.of_nat (seq 0 (length cells))) else None).
Proof.
  intros Hne Hrange Hlen Htags.
  assert (Hnil : filter (fun p : nat * nat => tags !! p.1 ≠ tags !! p.2) (query cells) = []).
  { induction Hrange as [|p q [H1 H2] _ IH]; [done|].
    rewrite filter_cons, decide_False; [exact IH|].
    intros Hdiff. apply Hdiff. rewrite <- Hlen in H1, H2.
    apply lookup_lt_is_Some in H1 as [t1 H1]. apply lookup_lt_is_Some in H2 as [t2 H2].
    rewrite Forall_lookup in Htags.
    by rewrite H1, H2, (Htags _ _ H1), (Htags _ _ H2). }
  apply solve_conflicts_unchanged with (conflicts := []); [done| |reflexivity].
  rewrite filter_conflicts_tags by (by rewrite Hlen). by rewrite Hnil.
Qed.

(** X5. A call that returns never returns an empty collection; the index
    labels of the returned frame are strictly increasing, one per cell; and
    when no input cell is empty, no returned cell is. *)
Theorem solve_conflicts_result_wellformed cells threshold patch_indices return_indices
    frame idx :
  solve cells threshold patch_indices return_indices = inr (frame, idx) →
  geometry_col frame ≠ [] ∧
  length (index frame) = length (geometry_col frame) ∧
  StronglySorted lt (index frame) ∧
  (Forall (fun c => is_empty c = false) cells →
   Forall (fun c => is_empty c = false) (geometry_col frame)).
Proof.
  intros Hsolve.
  apply solve_conflicts_run in Hsolve
    as (Hne & conflicts & st & Hc & Hst & Hindex & Hlen & Hgeo & _).
  pose proof (foldM_resolve_ok area make_valid flt fle fmul intersection union
                cells threshold conflicts _ st (resolved_ok_init _ _ _ _ cells) Hst)
    as (Hl & Hlt & extra & Hcells & Hextra).
  assert (Hst1 : st.1 ≠ []).
  { intros H0. rewrite H0 in Hl. by destruct cells. }
  split; [|split; [|split]].
  - intros H0. rewrite H0 in Hlen. simpl in Hlen.
    apply (np_unique_nonempty _ Hst1). by apply nil_length_inv.
  - by rewrite Hindex.
  - rewrite Hindex. apply np_unique_sorted.
  - intros Hcells_ne. apply Forall_lookup. intros k c Hk.
    destruct (np_unique st.1 !! k) as [u|] eqn:Hu.
    + rewrite (Hgeo k u Hu), Hcells in Hk.
      apply lookup_app_Some in Hk as [Hk|[_ Hk]].
      * eapply Forall_lookup_1 in Hcells_ne; eauto.
      * eapply Forall_lookup_1 in Hextra; eauto.
        by destruct Hextra as (? & ? & _ & ?).
    + apply lookup_ge_None in Hu. apply lookup_lt_Some in Hk. lia.
Qed.
End SolveConflictsExtras.

(** X6. With patch tags, the candidate pairs are the reported pairs whose
    two cells carry different tags, in the reported order, and an index
    outside the tag array is an IndexError; with or without tags a pair of a
    cell with itself is never a candidate. *)
Theorem solve_conflicts_candidates (tags : list Z) (q : list (nat * nat)) :
  (Forall (fun p : nat * nat => p.1 < length tags ∧ p.2 < length tags) q →
   filter_conflicts (Some tags) q
   = inr (filter (fun p : nat * nat => tags !! p.1 ≠ tags !! p.2) q)) ∧
  (Exists (fun p : nat * nat => length tags ≤ p.1 ∨ length tags ≤ p.2) q →
   filter_conflicts (Some tags) q = inl IndexError) ∧
  (∀ patch_indices l,
     filter_conflicts patch_indices q = inr l →
     Forall (fun p : nat * nat => p.1 ≠ p.2 ∧ p ∈ q) l).
Proof.
  split; [apply filter_conflicts_tags|]. split; [apply filter_conflicts_tags_error|].
  intros patch_indices l. apply filter_conflicts_distinct.
Qed.

Section EnsurePolygonExtras.
Context {F : Type}.
Variable area : geometry F → F.
Variable make_valid : geometry F → geometry F.
Variable flt : F → F → bool.

Let ensure := _ensure_polygon area make_valid flt.
Let warnings := _ensure_polygon_warnings make_valid.

Lemma py_max_inr {A} (key : A → F) (l : list A) :
  l ≠ [] → ∃ m, py_max flt key l = inr m ∧ m ∈ l.
Proof.
  destruct l as [|x l]; [done|]. intros _. eexists. split; [reflexivity|].
  apply max_from_elem.
Qed.

(** X7. [_ensure_polygon] raises exactly when the repaired geometry is a
    multi-polygon without members: [max] of an empty sequence. *)
Theorem ensure_polygon_raises_iff cell e :
  ensure cell = inl e ↔
  make_valid cell = GMultiPolygon [] ∧
  e = ValueError "max() arg is an empty sequence".
Proof.
  unfold ensure, _ensure_polygon. split.
  - destruct (make_valid cell) as [p|geoms|members|c|c|name]; try discriminate.
    + destruct (interiors p); discriminate.
    + destruct geoms; [by intros [= <-]|discriminate].
    + destruct (omap as_polygon members); [|discriminate].
      destruct (concat (omap as_multi_polygon members)); discriminate.
  - intros [-> ->]. reflexivity.
Qed.

(** the running maximum is not smaller than anything seen *)
Lemma max_from_largest {A} (key : A → F) (best : A) (l : list A) :
  (∀ a, flt a a = false) →
  (∀ a b c, flt a b = true → flt b c = true → flt a c = true) →
  ∀ x, x ∈ best :: l → flt (key (max_from flt key best l)) (key x) = false.
Proof.
  intros Hirr Htrans. revert best.
  assert (Hgen : ∀ (seen : list A) best,
            (∀ y, y ∈ seen → flt (key best) (key y) = false) →
            ∀ x, x ∈ seen ++ best :: l →
                 flt (key (max_from flt key best l)) (key x) = false).
  { induction l as [|z l IH]; intros seen best Hseen x Hx; simpl.
    - apply elem_of_app in Hx as [Hx|Hx]; [by apply Hseen|].
      apply list_elem_of_singleton in Hx as ->. apply Hirr.
    - destruct (flt (key best) (key z)) eqn:Hz.
      + apply (IH (seen ++ [best]) z).
        * intros y Hy. apply elem_of_app in Hy as [Hy|Hy].
          -- destruct (flt (key z) (key y)) eqn:Hzy; [|done].
             pose proof (Hseen y Hy) as Hby.
             by rewrite (Htrans _ _ _ Hz Hzy) in Hby.
          -- apply list_elem_of_singleton in Hy as ->.
             destruct (flt (key z) (key best)) eqn:Hzb; [|done].
             pose proof (Htrans _ _ _ Hz Hzb) as Hbb.
             by rewrite (Hirr (key best)) in Hbb.
        * rewrite <- (assoc_L (++)). exact Hx.
      + apply (IH (seen ++ [z]) best).
        * intros y Hy. apply elem_of_app in Hy as [Hy|Hy]; [by apply Hseen|].
          by apply list_elem_of_singleton in Hy as ->.
        * rewrite <- (assoc_L (++)). simpl.
          rewrite !elem_of_app, !elem_of_cons in *. tauto. }
  intros best x Hx. apply (Hgen [] best); [|done].
  intros y Hy. by apply elem_of_nil in Hy.
Qed.

Lemma py_max_largest {A} (key : A → F) (l : list A) :
  (∀ a, flt a a = false) →
  (∀ a b c, flt a b = true → flt b c = true → flt a c = true) →
  l ≠ [] →
  ∃ m, py_max flt key l = inr m ∧ m ∈ l ∧
       ∀ x, x ∈ l → flt (key m) (key x) = false.
Proof.
  intros Hirr Htrans. destruct l as [|b l]; [done|]. intros _.
  eexists. split; [reflexivity|]. split; [apply max_from_elem|].
  by apply max_from_largest.
Qed.

(** X8. When the repaired geometry is a multi-polygon with members, the
    result is one of its members, and no member has a larger area. *)
Theorem ensure_polygon_multi_largest cell geoms :
  (∀ a, flt a a = false) →
  (∀ a b c, flt a b = true → flt b c = true → flt a c = true) →
  make_valid cell = GMultiPolygon geoms → geoms ≠ [] →
  ∃ m, ensure cell = inr m ∧ m ∈ geoms ∧
       ∀ g, g ∈ geoms → flt (area (GPolygon m)) (area (GPolygon g)) = false.
Proof.
  intros Hirr Htrans Hvalid Hne. unfold ensure, _ensure_polygon. rewrite Hvalid.
  by apply (py_max_largest (polygon_area area)).
Qed.

(** X9. When the repaired geometry is a collection: with polygon members the
    result is the largest of them, whatever the multi-polygon members hold;
    without polygon members it is the largest polygon of the multi-polygon
    members; without either it is the empty polygon, with one warning. *)
Theorem ensure_polygon_collection cell members :
  (∀ a, flt a a = false) →
  (∀ a b c, flt a b = true → flt b c = true → flt a c = true) →
  make_valid cell = GGeometryCollection members →
  let polygons := omap as_polygon members in
  let parts := concat (omap as_multi_polygon members) in
  (polygons ≠ [] →
   ∃ m, ensure cell = inr m ∧ m ∈ polygons ∧ warnings cell = [] ∧
        ∀ g, g ∈ polygons → flt (area (GPolygon m)) (area (GPolygon g)) = false) ∧
  (polygons = [] → parts ≠ [] →
   ∃ m, ensure cell = inr m ∧ m ∈ parts ∧ warnings cell = [] ∧
        ∀ g, g ∈ parts → flt (area (GPolygon m)) (area (GPolygon g)) = false) ∧
  (polygons = [] → parts = [] →
   ensure cell = inr empty_polygon ∧ length (warnings cell) = 1).
Proof.
  intros Hirr Htrans Hvalid polygons parts.
  unfold ensure, warnings, _ensure_polygon, _ensure_polygon_warnings.
  rewrite Hvalid. fold polygons. fold parts.
  split; [|split].
  - intros Hne.
    destruct (py_max_largest (polygon_area area) polygons Hirr Htrans Hne)
      as (m & Hm & Hin & Hmax).
    exists m. destruct polygons; [done|]. by repeat split.
  - intros -> Hne.
    destruct (py_max_largest (polygon_area area) parts Hirr Htrans Hne)
      as (m & Hm & Hin & Hmax).
    exists m. destruct parts; [done|]. by repeat split.
  - by intros -> ->.
Qed.

(** X10. When the repaired geometry is a polygon, the result has the same
    exterior and no hole; canonicalizing that result again, which the repair
    leaves as it is, changes nothing. *)
Theorem ensure_polygon_polygon_branch cell p :
  make_valid cell = GPolygon p →
  make_valid (GPolygon (mkPolygon (exterior p) [])) = GPolygon (mkPolygon (exterior p) []) →
  ensure cell = inr (mkPolygon (exterior p) []) ∧
  ensure (GPolygon (mkPolygon (exterior p) [])) = inr (mkPolygon (exterior p) []) ∧
  warnings cell = [].
Proof.
  intros Hvalid Hfix. split; [by apply ensure_polygon_of_polygon|]. split.
  - by apply (ensure_polygon_of_polygon area make_valid flt _ (mkPolygon (exterior p) [])).
  - unfold warnings, _ensure_polygon_warnings. by rewrite Hvalid.
Qed.

(** X11. A warning is logged only when the cell is removed: whenever
    [_ensure_polygon] warns, it returns the empty polygon; and it warns at
    most once. *)
Theorem ensure_polygon_warns_when_removed cell :
  length (warnings cell) ≤ 1 ∧
  (warnings cell ≠ [] → ensure cell = inr empty_polygon).
Proof.
  unfold ensure, warnings, _ensure_polygon, _ensure_polygon_warnings.
  destruct (make_valid cell) as [p|geoms|members|c|c|name]; simpl;
    try (split; [lia|done]).
  destruct (omap as_polygon members); simpl; [|split; [lia|done]].
  destruct (concat (omap as_multi_polygon members)); simpl; split; (lia || done).
Qed.
End EnsurePolygonExtras.

Lemma mapM_length {A B} (f : A → result B) (l : list A) (ys : list B) :
  mapM f l = inr ys → length ys = length l.
Proof.
  revert ys. induction l as [|x l IH]; intros ys; simpl.
  - by intros [= <-].
  - intros H. apply bind_inr in H as (y & _ & H).
    apply bind_inr in H as (ys' & Hys & H). injection H as <-.
    simpl. by rewrite (IH _ Hys).
Qed.

Lemma mapM_lookup {A B} (f : A → result B) (l : list A) (ys : list B) i x :
  mapM f l = inr ys → l !! i = Some x → ∃ y, ys !! i = Some y ∧ f x = inr y.
Proof.
  revert ys i. induction l as [|x0 l IH]; intros ys i; simpl; [by intros _|].
  intros H. apply bind_inr in H as (y & Hy & H).
  apply bind_inr in H as (ys' & Hys & H). injection H as <-.
  destruct i as [|i]; simpl.
  - intros [= <-]. eauto.
  - by apply IH.
Qed.

Lemma kept_rows_sublist {F : Type} (labels : list nat) (ps : list (Polygon F)) :
  let kept := filter (fun row : nat * Polygon F => is_empty row.2 = false)
                     (zip labels ps) in
  sublist (zip (map fst kept) (map (fun row => GPolygon row.2) kept))
          (zip labels (map GPolygon ps)).
Proof.
  revert labels. induction ps as [|p ps IH]; intros [|i labels]; simpl;
    try apply sublist_nil.
  rewrite filter_cons. case_decide; simpl.
  - apply sublist_skip, IH.
  - apply sublist_cons, IH.
Qed.

Section ToValidPolygonsFacts.
Context {F : Type}.
Variable area : geometry F → F.
Variable make_valid : geometry F → geometry F.
Variable flt : F → F → bool.

Let ensure := _ensure_polygon area make_valid flt.
Let run := to_valid_polygons area make_valid flt.

(** X12. The frame returned by [to_valid_polygons] is a new frame; its rows are
    rows of the canonicalized input, in their order and under their labels,
    and none of its polygons is empty. *)
Theorem to_valid_polygons_result geo_df heap df selected heap' :
  heap !! geo_df = Some df →
  run geo_df heap = inr (selected, heap') →
  selected ≠ geo_df ∧ heap !! selected = None ∧
  ∃ out polygons,
    heap' !! selected = Some out ∧
    mapM ensure (geometry_col df) = inr polygons ∧
    length (index out) = length (geometry_col out) ∧
    sublist (zip (index out) (geometry_col out))
            (zip (index df) (map GPolygon polygons)) ∧
    Forall (fun g => ∃ p, g = GPolygon p ∧ is_empty p = false) (geometry_col out).
Proof.
  intros Hdf. unfold run, to_valid_polygons. rewrite Hdf. intros H.
  apply bind_inr in H as (polygons & Hpoly & H). injection H as <- <-.
  set (heap1 := <[geo_df := _]> heap).
  assert (Hfresh : fresh (dom heap1) ∉ dom heap1) by apply is_fresh.
  assert (Hne : fresh (dom heap1) ≠ geo_df).
  { intros Heq. apply Hfresh. rewrite Heq. unfold heap1.
    rewrite dom_insert_L. set_solver. }
  split; [done|]. split.
  { apply not_elem_of_dom. intros Hin. apply Hfresh. unfold heap1.
    rewrite dom_insert_L. set_solver. }
  eexists _, polygons. split; [apply lookup_insert_eq|]. split; [done|]. simpl.
  split; [by rewrite !length_map|]. split.
  - apply kept_rows_sublist.
  - apply Forall_fmap, Forall_forall. intros [i p] Hin.
    apply list_elem_of_filter in Hin as [He _]. simpl in *. eauto.
Qed.

(** X13. [to_valid_polygons] changes the frame it is given: after the call its
    geometry column holds the canonicalized polygons, the empty ones
    included, under the same labels; every other frame is as before. *)
Theorem to_valid_polygons_in_place geo_df heap df selected heap' :
  heap !! geo_df = Some df →
  run geo_df heap = inr (selected, heap') →
  ∃ polygons,
    mapM ensure (geometry_col df) = inr polygons ∧
    length polygons = length (geometry_col df) ∧
    heap' !! geo_df = Some (mkFrame (index df) (map GPolygon polygons)) ∧
    ∀ r, r ≠ geo_df → r ≠ selected → heap' !! r = heap !! r.
Proof.
  intros Hdf. unfold run, to_valid_polygons. rewrite Hdf. intros H.
  apply bind_inr in H as (polygons & Hpoly & H). injection H as <- <-.
  set (heap1 := <[geo_df := _]> heap).
  assert (Hfresh : fresh (dom heap1) ∉ dom heap1) by apply is_fresh.
  assert (Hne : fresh (dom heap1) ≠ geo_df).
  { intros Heq. apply Hfresh. rewrite Heq. unfold heap1.
    rewrite dom_insert_L. set_solver. }
  exists polygons. split; [done|]. split; [by eapply mapM_length|]. split.
  - rewrite lookup_insert_ne by done. apply lookup_insert_eq.
  - intros r Hr1 Hr2. rewrite lookup_insert_ne by done.
    unfold heap1. by rewrite lookup_insert_ne.
Qed.
End ToValidPolygonsFacts.

(** ** [pixel_outer_bounds] *)

(** X14. The integer window of [pixel_outer_bounds] contains the bounds it is
    given: it starts at most one pixel before them and ends after them, by
    at most two pixels; with ordered bounds it is at least one pixel wide
    and high. *)
Theorem pixel_outer_bounds_contains (minx miny maxx maxy : Q) :
  ∃ x0 y0 x1 y1 : Z,
    pixel_outer_bounds (minx, miny, maxx, maxy) = [x0; y0; x1; y1] ∧
    (inject_Z x0 <= minx ∧ minx < inject_Z (x0 + 1))%Q ∧
    (inject_Z y0 <= miny ∧ miny < inject_Z (y0 + 1))%Q ∧
    (maxx < inject_Z x1 ∧ inject_Z x1 < maxx + 2)%Q ∧
    (maxy < inject_Z y1 ∧ inject_Z y1 < maxy + 2)%Q ∧
    ((minx <= maxx)%Q → (x0 < x1)%Z) ∧
    ((miny <= maxy)%Q → (y0 < y1)%Z).
Proof.
  do 4 eexists. split; [reflexivity|]. simpl.
  assert (Hup : ∀ q : Q, (q < inject_Z (Qceiling q + 1) ∧
                          inject_Z (Qceiling q + 1) < q + 2)%Q).
  { intros q. pose proof (Qle_ceiling q) as H1. pose proof (Qceiling_lt q) as H2.
    rewrite !inject_Z_plus. unfold Z.sub in H2. rewrite inject_Z_plus in H2.
    change (inject_Z (- (1))) with (-1 # 1)%Q in H2.
    change (inject_Z 1) with 1%Q. split; Lqa.lra. }
  assert (Hlow : ∀ q : Q, (inject_Z (Qfloor q) <= q ∧ q < inject_Z (Qfloor q + 1))%Q).
  { intros q. split; [apply Qfloor_le|apply Qlt_floor]. }
  assert (Hwide : ∀ a b : Q, (a <= b)%Q → (Qfloor a < Qceiling b + 1)%Z).
  { intros a b Hab. destruct (Hlow a) as [Ha _]. destruct (Hup b) as [Hb _].
    assert (H : (inject_Z (Qfloor a) < inject_Z (Qceiling b + 1))%Q) by Lqa.lra.
    by rewrite <- Zlt_Qlt in H. }
  repeat split; try apply Hlow; try apply Hup; by apply Hwide.
Qed.

(** X15. On bounds that are integers already, [pixel_outer_bounds] keeps the
    lower corner and adds one to the upper corner. *)
Theorem pixel_outer_bounds_integers (minx miny maxx maxy : Z) :
  pixel_outer_bounds (inject_Z minx, inject_Z miny, inject_Z maxx, inject_Z maxy)
  = [minx; miny; (maxx + 1)%Z; (maxy + 1)%Z].
Proof.
  unfold pixel_outer_bounds. cbn [fst snd]. by rewrite !Qfloor_Z, !Qceiling_Z.
Qed.

(** ** [_default_tolerance] *)

(** X16. On rational radii the default tolerance is 0.4 below 10, 1 from 10 to
    below 20 and 2 from 20 on, so it never decreases when the mean radius
    grows. *)
Theorem default_tolerance_monotone (r1 r2 : Q) :
  let tolerance := _default_tolerance Boxes.flt (fun q : Q => q) in
  ((r1 < 10)%Q → tolerance r1 = (4 # 10)%Q) ∧
  ((10 <= r1)%Q → (r1 < 20)%Q → tolerance r1 = 1%Q) ∧
  ((20 <= r1)%Q → tolerance r1 = 2%Q) ∧
  ((r1 <= r2)%Q → (tolerance r1 <= tolerance r2)%Q).
Proof.
  assert (Hflt : ∀ a b : Q, Boxes.flt a b = true ↔ (a < b)%Q).
  { intros a b. unfold Boxes.flt. rewrite negb_true_iff.
    destruct (Qle_bool b a) eqn:H.
    - apply Qle_bool_iff in H. split; [done|]. intros H'. Lqa.lra.
    - split; [|done]. intros _. apply Qnot_le_lt. intros H'.
      apply Qle_bool_iff in H'. congruence. }
  assert (Hcases : ∀ r : Q,
            ((r < 10)%Q ∧ _default_tolerance Boxes.flt (fun q : Q => q) r = (4 # 10)%Q) ∨
            ((10 <= r)%Q ∧ (r < 20)%Q ∧ _default_tolerance Boxes.flt (fun q : Q => q) r = 1%Q) ∨
            ((20 <= r)%Q ∧ _default_tolerance Boxes.flt (fun q : Q => q) r = 2%Q)).
  { intros r. unfold _default_tolerance.
    destruct (Boxes.flt r 10) eqn:H10.
    - left. by apply Hflt in H10.
    - assert (10 <= r)%Q.
      { apply Qnot_lt_le. intros H. apply Hflt in H. congruence. }
      destruct (Boxes.flt r 20) eqn:H20.
      + right. left. by apply Hflt in H20.
      + right. right. split; [|done].
        apply Qnot_lt_le. intros H'. apply Hflt in H'. congruence. }
  cbv zeta. repeat split.
  - intros H. destruct (Hcases r1) as [[_ ->]|[(? & ? & ->)|[? ->]]]; [done|Lqa.lra|Lqa.lra].
  - intros H H'. destruct (Hcases r1) as [[? ->]|[(? & ? & ->)|[? ->]]]; [Lqa.lra|done|Lqa.lra].
  - intros H. destruct (Hcases r1) as [[? ->]|[(? & ? & ->)|[? ->]]]; [Lqa.lra|Lqa.lra|done].
  - intros H.
    destruct (Hcases r1) as [[? ->]|[(? & ? & ->)|[? ->]]],
             (Hcases r2) as [[? ->]|[(? & ? & ->)|[? ->]]];
      first [ Lqa.lra | by apply Qle_bool_iff ].
Qed.

(** ** [_contours] *)

Lemma close_ring_closed (c : list (Z * Z)) :
  c ≠ [] → head (close_ring c) = last (close_ring c) ∧
           length c ≤ length (close_ring c) ≤ S (length c).
Proof.
  destruct c as [|p c]; [done|]. intros _. unfold close_ring.
  destruct (last (p :: c)) as [q|] eqn:Hlast.
  - case_decide as Hpq.
    + subst q. rewrite Hlast. split; [done|lia].
    + rewrite last_snoc, length_app. simpl. split; [done|lia].
  - by apply last_None in Hlast.
Qed.

Lemma close_ring_spec (c : list (Z * Z)) :
  c ≠ [] →
  (head c = last c → close_ring c = c) ∧
  (head c ≠ last c → ∃ first, head c = Some first ∧ close_ring c = c ++ [first]).
Proof.
  destruct c as [|p c]; [done|]. intros _. unfold close_ring.
  destruct (last (p :: c)) as [q|] eqn:Hlast.
  - simpl. case_decide as Hpq.
    + subst q. split; [done|]. by intros [].
    + split; [by intros [= ->]|]. intros _. by exists p.
  - by apply last_None in Hlast.
Qed.

Section ContoursFacts.
Context {F : Type}.
Variable lit : Q → F.
Variable findContours : list (list Z) → list (list (Z * Z)).

(** X17. [_contours] gives a multi-polygon with one polygon per contour of at
    least 4 points, in the order of the contours: the k-th polygon has no
    hole, and its ring is the points of the k-th such contour, as floats,
    followed by the first point again when the contour is not closed. So
    each ring is closed and has at least 4 vertices. *)
Theorem contours_polygons (cell_mask : list (list Z)) :
  let kept := filter (fun c : list (Z * Z) => 4 ≤ length c) (findContours cell_mask) in
  let float := fun q : Z * Z => (lit (inject_Z q.1), lit (inject_Z q.2)) in
  ∃ polygons,
    _contours lit findContours cell_mask = GMultiPolygon polygons ∧
    length polygons = length kept ∧
    length polygons ≤ length (findContours cell_mask) ∧
    (∀ k contour, kept !! k = Some contour →
       ∃ ring, polygons !! k = Some (mkPolygon (map float ring) []) ∧
               (head contour = last contour → ring = contour) ∧
               (head contour ≠ last contour →
                ∃ first, head contour = Some first ∧ ring = contour ++ [first])) ∧
    Forall (fun p : Polygon F =>
              interiors p = [] ∧ 4 ≤ length (exterior p) ∧
              head (exterior p) = last (exterior p)) polygons.
Proof.
  intros kept float. eexists. split; [reflexivity|]. rewrite length_map.
  split; [done|]. split; [apply length_filter|]. split.
  - intros k contour Hk. exists (close_ring contour). split.
    + change (map ?f ?l) with (f <$> l). rewrite list_lookup_fmap.
      fold kept. by rewrite Hk.
    + apply close_ring_spec. intros ->.
      apply list_elem_of_lookup_2, list_elem_of_filter in Hk as [Hlen _].
      simpl in Hlen. lia.
  - apply Forall_fmap, Forall_forall. intros c Hc.
    apply list_elem_of_filter in Hc as [Hlen _]. simpl.
    assert (Hne : c ≠ []) by (intros ->; simpl in Hlen; lia).
    destruct (close_ring_closed c Hne) as [Hclosed Hl].
    split; [done|]. rewrite length_map. split; [lia|].
    change (map ?f ?l) with (f <$> l). rewrite fmap_last, <- Hclosed.
    by destruct (close_ring c).
Qed.
End ContoursFacts.

(** ** [geometrize] on a mask with cells *)

Lemma mapM_logged_inr {A B} (f : A → logged B) (l : list A) (w : list string)
    (ys : list B) :
  mapM_logged f l = (w, inr ys) →
  length ys = length l ∧
  ∀ i x, l !! i = Some x → ∃ y, ys !! i = Some y ∧ (f x).2 = inr y.
Proof.
  revert w ys. induction l as [|x0 l IH]; intros w ys; simpl.
  - intros [= <- <-]. split; [done|]. intros i x Hi. by rewrite lookup_nil in Hi.
  - unfold bind_logged at 1. destruct (f x0) as [w0 [e|y0]] eqn:Hf; simpl; [discriminate|].
    unfold bind_logged at 1.
    destruct (mapM_logged f l) as [w1 [e|ys1]] eqn:Hl; simpl; [discriminate|].
    intros [= <- <-]. destruct (IH _ _ eq_refl) as [Hlen Hlk].
    split; [simpl; by rewrite Hlen|].
    intros [|i] x; simpl.
    + intros [= <-]. rewrite Hf. eauto.
    + apply Hlk.
Qed.

Lemma kept_labels_sorted {A} (P : nat * A → Prop) `{∀ x, Decision (P x)}
    (a : nat) (ys : list A) :
  StronglySorted lt (map fst (filter P (zip (seq a (length ys)) ys))) ∧
  Forall (fun i => a ≤ i < a + length ys) (map fst (filter P (zip (seq a (length ys)) ys))).
Proof.
  revert a. induction ys as [|y ys IH]; intros a; simpl.
  - split; constructor.
  - destruct (IH (S a)) as [Hs Hb]. rewrite filter_cons. case_decide; simpl.
    + split.
      * constructor; [done|]. eapply Forall_impl; [exact Hb|]. simpl. lia.
      * constructor; [lia|]. eapply Forall_impl; [exact Hb|]. simpl. lia.
    + split; [done|]. eapply Forall_impl; [exact Hb|]. simpl. lia.
Qed.

(** the rows kept by [cells[~cells.is_empty]] are the non-empty cells, each
    under the position it had *)
Lemma kept_rows_lookup {A} (P : nat * A → Prop) `{∀ x, Decision (P x)}
    (ys : list A) (k : nat) (y : A) :
  let kept := filter P (zip (seq 0 (length ys)) ys) in
  (∃ j, map fst kept !! j = Some k ∧ map snd kept !! j = Some y)
  ↔ ys !! k = Some y ∧ P (k, y).
Proof.
  intros kept.
  assert (Hzip : (k, y) ∈ zip (seq 0 (length ys)) ys ↔ ys !! k = Some y).
  { rewrite list_elem_of_lookup. split.
    - intros [i Hi]. apply lookup_zip_with_Some in Hi as (k' & y' & [= -> ->] & Hk & Hy).
      apply lookup_seq in Hk as [-> _]. done.
    - intros Hy. exists k. apply lookup_zip_with_Some. exists k, y.
      split; [done|]. split; [|done]. apply lookup_seq. split; [done|].
      by eapply lookup_lt_Some. }
  split.
  - intros (j & Hk & Hy). change (map ?f ?l) with (f <$> l) in Hk.
    change (map ?f ?l) with (f <$> l) in Hy.
    rewrite list_lookup_fmap in Hk. rewrite list_lookup_fmap in Hy.
    destruct (kept !! j) as [[k' y']|] eqn:Hj; [|done]. simpl in Hk, Hy.
    injection Hk as ->. injection Hy as ->.
    apply list_elem_of_lookup_2, list_elem_of_filter in Hj as [HP Hin].
    split; [by apply Hzip|done].
  - intros [Hy HP].
    assert (Hin : (k, y) ∈ kept) by (apply list_elem_of_filter; split; [done|by apply Hzip]).
    apply list_elem_of_lookup in Hin as [j Hj]. exists j.
    change (map ?f ?l) with (f <$> l). by rewrite !list_lookup_fmap, Hj.
Qed.

Section GeometrizeExtras.
Context {F : Type}.
Variable area : geometry F → F.
Variable make_valid : geometry F → geometry F.
Variable flt : F → F → bool.
Variable fmul : F → F → F.
Variable fdiv : F → F → F.
Variable fneg : F → F.
Variable fsqrt : F → F.
Variable pi : F.
Variable fmean : list F → F.
Variable lit : Q → F.
Variable buffer : geometry F → F → geometry F.
Variable simplify : geometry F → F → geometry F.
Variable findContours : list (list Z) → list (list (Z * Z)).

Let run_geometrize :=
  geometrize area make_valid flt fmul fdiv fneg fsqrt pi fmean lit buffer
    simplify findContours.
Let smoothen := _smoothen_cell area make_valid flt fmul fneg lit buffer simplify.

(** X18. On a mask whose largest label is m > 0, a call that returns gives a
    frame with at most m rows, whose labels are strictly increasing and
    below m, and whose polygons are not empty. The frame has a row of label
    k holding p exactly when k < m and p is the smoothed cell of the label
    k + 1, not empty: the contours of the pixels equal to k + 1, smoothed
    with the one radius (the mean radius of all cells times the ratio) and
    the one tolerance (the given one, or the default for that mean
    radius). *)
Theorem geometrize_cells mask tolerance smooth_radius_ratio m log v :
  let cell := fun cell_id : Z =>
    _contours lit findContours
      (map (map (fun pixel => if (pixel =? cell_id)%Z then 1%Z else 0%Z)) mask) in
  let cells := map cell (map (fun k => (1 + Z.of_nat k)%Z) (seq 0 (Z.to_nat m))) in
  let mean_radius := fmean (map (fun c => fsqrt (fdiv (area c) pi)) cells) in
  let smooth_radius := fmul mean_radius smooth_radius_ratio in
  let used_tolerance :=
    match tolerance with
    | Some t => t
    | None => _default_tolerance flt lit mean_radius
    end in
  mask_max mask = inr m → (0 < m)%Z →
  run_geometrize mask tolerance smooth_radius_ratio = (log, inr v) →
  ∃ df, v = PyFrame df ∧
        length (index df) = length (geometry_col df) ∧
        length (geometry_col df) ≤ Z.to_nat m ∧
        StronglySorted lt (index df) ∧
        Forall (fun k => k < Z.to_nat m) (index df) ∧
        Forall (fun p => is_empty p = false) (geometry_col df) ∧
        ∀ k p,
          (∃ j, index df !! j = Some k ∧ geometry_col df !! j = Some p)
          ↔ k < Z.to_nat m ∧
            (smoothen (cell (1 + Z.of_nat k)%Z) smooth_radius used_tolerance).2 = inr p ∧
            is_empty p = false.
Proof.
  intros cell cells mean_radius smooth_radius used_tolerance Hmax Hm.
  unfold run_geometrize, geometrize, bind_logged. simpl.
  rewrite Hmax. destruct (Z.eqb_spec m 0) as [|_]; [lia|].
  fold cell. fold cells. fold mean_radius. fold smooth_radius. fold used_tolerance.
  fold smoothen.
  destruct (mapM_logged (fun c => smoothen c smooth_radius used_tolerance) cells)
    as [w [e|smoothed]] eqn:Hsm; simpl; [discriminate|].
  intros [= _ <-]. eexists. split; [reflexivity|]. simpl.
  apply mapM_logged_inr in Hsm as [Hlen Hlookup].
  assert (Hcells : ∀ k c, cells !! k = Some c
                          ↔ k < Z.to_nat m ∧ c = cell (1 + Z.of_nat k)%Z).
  { intros k c. unfold cells. change (map ?f ?l) with (f <$> l).
    rewrite !list_lookup_fmap. split.
    - destruct (seq 0 (Z.to_nat m) !! k) as [k'|] eqn:Hk; [|done].
      apply lookup_seq in Hk as [-> Hk]. simpl. by intros [= <-].
    - intros [Hk ->]. by rewrite lookup_seq_lt. }
  assert (Hn : length cells = Z.to_nat m).
  { unfold cells. by rewrite !length_map, length_seq. }
  rewrite Hn in Hlen.
  set (P := fun row : nat * Polygon F => is_empty row.2 = false).
  destruct (kept_labels_sorted P 0 smoothed) as [Hsorted Hbound].
  split; [by rewrite !length_map|]. split; [|split; [done|split; [|split]]].
  - rewrite length_map. etrans; [apply length_filter|].
    rewrite length_zip, length_seq. lia.
  - eapply Forall_impl; [exact Hbound|]. simpl. lia.
  - apply Forall_fmap, Forall_forall. intros [k p] Hin.
    by apply list_elem_of_filter in Hin as [He _].
  - intros k p. rewrite (kept_rows_lookup P smoothed k p). unfold P. simpl. split.
    + intros [Hk He]. pose proof (lookup_lt_Some _ _ _ Hk) as Hlt. rewrite Hlen in Hlt.
      destruct (Hlookup k (cell (1 + Z.of_nat k)%Z)) as (y & Hy & Hsmooth).
      { by apply Hcells. }
      rewrite Hk in Hy. injection Hy as <-. done.
    + intros (Hk & Hsmooth & He).
      destruct (Hlookup k (cell (1 + Z.of_nat k)%Z)) as (y & Hy & Hsmooth').
      { by apply Hcells. }
      pose proof (eq_trans (eq_sym Hsmooth') Hsmooth) as Heq. injection Heq as ->.
      done.
Qed.
End GeometrizeExtras.

Section BaysorExtras.
Import Baysor.
Variable subprocess_run : string → string → gset string → completed * gset string.
Variable cwd : string.
Variable version_at_least : string → string → result bool.
Variable get_executable_path : gset string → result string.
Variable get_default_config : SpatialData → result config.
Variable toml_load : string → gset string → result config.
Variable get_transcripts_patches_dirs : SpatialData → list string.
Variable copy_segmentation_config : string → config → gset string → result (gset string).
Variable resolve :
  SpatialData → list string → string → Z → string → gset string → result SpatialData.
Variable rmtree : string → gset string → result (gset string).

Let call := call subprocess_run.
Let version := _use_polygons_format_argument subprocess_run cwd version_at_least.
Let baysor :=
  baysor subprocess_run cwd version_at_least get_executable_path get_default_config
    toml_load get_transcripts_patches_dirs copy_segmentation_config resolve rmtree.

(** with [recover] set, a batch whose patches all have their result file
    leaves the world as it is *)
Lemma run_with_backend_skips self patches_dirs w :
  recover self = true →
  Forall (fun patch_dir => artifact patch_dir ∈ files w) patches_dirs →
  _run_with_backend (map (call self) patches_dirs) w = inr w.
Proof.
  intros Hrec Hall. unfold _run_with_backend.
  induction Hall as [|d ds Hd _ IH]; simpl; [done|].
  unfold call at 1, Baysor.call. rewrite Hrec.
  by rewrite bool_decide_eq_true_2.
Qed.

(** X19. With [recover] set, a patch whose result file exists is skipped: the
    world is left as it is, whatever the external process would do; a batch
    whose patches all have their result file changes nothing. *)
Theorem baysor_recover_skips self patches_dirs w :
  recover self = true →
  Forall (fun patch_dir => artifact patch_dir ∈ files w) patches_dirs →
  Forall (fun patch_dir => call self patch_dir w = inr w) patches_dirs ∧
  _run_with_backend (map (call self) patches_dirs) w = inr w.
Proof.
  intros Hrec Hall.
  assert (Hcall : ∀ d, artifact d ∈ files w → call self d w = inr w).
  { intros d Hd. unfold call, Baysor.call. rewrite Hrec.
    by rewrite bool_decide_eq_true_2. }
  split.
  - eapply Forall_impl; [exact Hall|]. exact Hcall.
  - unfold _run_with_backend. induction Hall as [|d ds Hd _ IH]; simpl; [done|].
    by rewrite (Hcall d Hd).
Qed.


(** one patch adds at most one warning, and none in strict mode *)
Lemma call_warnings self patch_dir w w' :
  call self patch_dir w = inr w' →
  ∃ extra, warnings w' = warnings w ++ extra ∧ length extra ≤ 1 ∧
           (force self = false → extra = []).
Proof.
  unfold call, Baysor.call.
  destruct (recover self && _).
  { intros [= <-]. exists []. rewrite app_nil_r. repeat split; simpl; lia || done. }
  destruct (negb _).
  - destruct (force self); [|discriminate]. intros [= <-]. simpl.
    eexists. split; [reflexivity|]. split; [simpl; lia|done].
  - intros [= <-]. simpl. exists []. rewrite app_nil_r. repeat split; simpl; lia || done.
Qed.

(** X21. A batch that returns keeps the warnings logged before it and adds at
    most one per patch; in strict mode it adds none. *)
Theorem baysor_batch_warnings self patches_dirs w w' :
  _run_with_backend (map (call self) patches_dirs) w = inr w' →
  ∃ extra, warnings w' = warnings w ++ extra ∧
           length extra ≤ length patches_dirs ∧
           (force self = false → extra = []).
Proof.
  unfold _run_with_backend. revert w.
  induction patches_dirs as [|d ds IH]; intros w; simpl.
  - intros [= <-]. exists []. rewrite app_nil_r. repeat split; simpl; lia || done.
  - intros H. apply bind_inr in H as (w1 & H1 & H).
    apply call_warnings in H1 as (e1 & He1 & Hl1 & Hs1).
    apply IH in H as (e2 & He2 & Hl2 & Hs2).
    exists (e1 ++ e2). rewrite He2, He1, (assoc_L (++)). split; [done|].
    rewrite length_app. split; [lia|].
    intros Hf. by rewrite (Hs1 Hf), (Hs2 Hf).
Qed.

(** X22. [baysor] checks its inputs before it touches a patch. Without
    transcript patches it raises the assertion error of lines 26-28,
    whatever the lookup of the executable, the processes and the helpers
    would do. Once the executable is found, the version query of line 33
    has run and the configuration is loaded, a configuration without gene
    column raises the assertion error of line 44, whatever the runs on the
    patches, the copy of the configuration and the consolidation would
    do. *)
Theorem baysor_checks_first sdata cfg min_area delete_cache recover force key_added w :
  (has_transcript_patches sdata = false →
   baysor sdata cfg min_area delete_cache recover force key_added w
   = inl (AssertionError
            "Transcript patches not found in the SpatialData object. Run `sopa.make_transcript_patches(...)` first.")) ∧
  (∀ exe conf,
     let queried := version exe (files w) in
     has_transcript_patches sdata = true →
     get_executable_path (files w) = inr exe →
     match cfg with
     | None => get_default_config sdata
     | Some (inl c) => ret c
     | Some (inr path) => toml_load path queried.2
     end = inr conf →
     data_gene conf = None ∨ data_gene conf = Some "" →
     baysor sdata cfg min_area delete_cache recover force key_added w
     = inl (AssertionError "Gene column not found in config['data']['gene']")).
Proof.
  split.
  - intros H. unfold baysor, Baysor.baysor. by rewrite H.
  - intros exe conf queried Hp Hexe Hconf Hgene. unfold baysor, Baysor.baysor.
    rewrite Hp. simpl negb. cbv iota. rewrite Hexe, bind_ret.
    cbv zeta. fold version. fold queried. cbn [files warnings].
    rewrite Hconf, bind_ret.
    by destruct Hgene as [->| ->].
Qed.

(** X23. Resuming a finished batch: with [recover] set and the result file
    of every patch present once the version query of line 33 has run and
    the configurations are copied, [baysor] runs the tool on no patch,
    whatever it would do there, and goes on to the consolidation on that
    file system. *)
Theorem baysor_resume sdata cfg min_area delete_cache force key_added w
    exe conf gene fs :
  let patches_dirs := get_transcripts_patches_dirs sdata in
  let queried := version exe (files w) in
  has_transcript_patches sdata = true →
  get_executable_path (files w) = inr exe →
  match cfg with
  | None => get_default_config sdata
  | Some (inl c) => ret c
  | Some (inr path) => toml_load path queried.2
  end = inr conf →
  data_gene conf = Some gene → gene ≠ "" →
  foldM (fun fs patch_dir =>
           copy_segmentation_config (path_join patch_dir "config.toml") conf fs)
        queried.2 patches_dirs = inr fs →
  patches_dirs ≠ [] →
  Forall (fun patch_dir => artifact patch_dir ∈ fs) patches_dirs →
  baysor sdata cfg min_area delete_cache true force key_added w
  = (sdata' <- resolve sdata patches_dirs gene min_area key_added fs ;;
     let sdata'' := mkSData (has_transcript_patches sdata')
                            (patch_prior_shapes_key sdata') (Some key_added) in
     if delete_cache
     then fs' <- foldM (fun fs patch_dir => rmtree patch_dir fs) fs patches_dirs ;;
          ret (sdata'', mkWorld fs' (warnings w))
     else ret (sdata'', mkWorld fs (warnings w))).
Proof.
  intros patches_dirs queried Hp Hexe Hconf Hgene Hne Hcopy Hdirs Hall.
  unfold baysor, Baysor.baysor. rewrite Hp. simpl negb. cbv iota.
  rewrite Hexe, bind_ret. cbv zeta. fold version. fold queried. cbn [files warnings].
  rewrite Hconf, bind_ret, Hgene.
  destruct (decide (gene = "")) as [|_]; [done|].
  fold patches_dirs. rewrite Hcopy, bind_ret. fold call.
  rewrite (run_with_backend_skips
             (mkBaysorPatch exe queried.1 force true (patch_prior_shapes_key sdata))
             patches_dirs (mkWorld fs (warnings w)) eq_refl Hall), bind_ret.
  assert (Hex : existsb (fun patch_dir => bool_decide (artifact patch_dir ∈ fs))
                        patches_dirs = true).
  { destruct patches_dirs as [|d ds]; [done|]. apply Forall_cons in Hall as [Hd _].
    simpl. by rewrite bool_decide_eq_true_2. }
  simpl files. rewrite Hex, andb_false_r. reflexivity.
Qed.
End BaysorExtras.

Section ExplorerFacts.
Import Explorer.

Lemma elem_of_ancestors (path p : list string) :
  p ∈ ancestors path ↔ p ≠ [] ∧ p `prefix_of` path.
Proof.
  unfold ancestors. rewrite list_elem_of_fmap. split.
  - intros (n & -> & Hn). apply elem_of_seq in Hn. split.
    + destruct path; simpl in *; [lia|]. destruct n; [lia|done].
    + apply prefix_take.
  - intros [Hne [k ->]]. exists (length p). split.
    + by rewrite take_app_length.
    + apply elem_of_seq. rewrite length_app. destruct p; [done|]. simpl. lia.
Qed.

Lemma mkdirs_inr target todo fs fs' :
  mkdirs target todo fs = inr fs' →
  fs ⊆ fs' ∧
  (∀ p, p ∈ todo → fs' !! p = Some Dir) ∧
  (∀ q, fs' !! q ≠ fs !! q → q ∈ todo ∧ fs !! q = None).
Proof.
  revert fs. induction todo as [|p todo IH]; intros fs; simpl.
  - intros [= <-]. split; [done|]. split; [by intros ? ?%elem_of_nil|]. by intros q [].
  - destruct (fs !! p) as [[|]|] eqn:Hp; [discriminate| |].
    + intros H. destruct (IH _ H) as (Hsub & Hdir & Hnew). split; [done|]. split.
      * intros q [->|Hq]%elem_of_cons; [|by apply Hdir].
        by eapply lookup_weaken.
      * intros q Hq. destruct (Hnew q Hq). split; [|done]. by apply elem_of_cons; right.
    + intros H. destruct (IH _ H) as (Hsub & Hdir & Hnew). split; [|split].
      * etrans; [|exact Hsub]. by apply insert_subseteq.
      * intros q [->|Hq]%elem_of_cons; [|by apply Hdir].
        eapply lookup_weaken; [|exact Hsub]. apply lookup_insert_eq.
      * intros q Hq. destruct (decide (q = p)) as [->|Hne].
        -- split; [by apply elem_of_cons; left|done].
        -- destruct (Hnew q) as [Hin Hnone].
           { by rewrite lookup_insert_ne. }
           rewrite lookup_insert_ne in Hnone by done.
           split; [by apply elem_of_cons; right|done].
Qed.

Lemma mkdirs_inl target todo fs e :
  mkdirs target todo fs = inl e →
  ∃ p, p ∈ todo ∧ fs !! p = Some File ∧
       e = (if decide (p = target) then FileExistsError target
            else NotADirectoryError target).
Proof.
  revert fs. induction todo as [|p todo IH]; intros fs; simpl; [discriminate|].
  destruct (fs !! p) as [[|]|] eqn:Hp.
  - intros [= <-]. exists p. split; [by apply elem_of_cons; left|done].
  - intros H. destruct (IH _ H) as (q & Hq & Hf & He). exists q.
    split; [by apply elem_of_cons; right|done].
  - intros H. destruct (IH _ H) as (q & Hq & Hf & He). exists q.
    split; [by apply elem_of_cons; right|].
    split; [|done]. destruct (decide (q = p)) as [->|Hne].
    + by rewrite lookup_insert_eq in Hf.
    + by rewrite lookup_insert_ne in Hf.
Qed.

Lemma mkdirs_no_file target todo fs :
  (∀ p, p ∈ todo → fs !! p ≠ Some File) → ∃ fs', mkdirs target todo fs = inr fs'.
Proof.
  intros H. destruct (mkdirs target todo fs) as [e|fs'] eqn:Hm; [|by eexists].
  apply mkdirs_inl in Hm as (p & Hp & Hf & _). by destruct (H p Hp).
Qed.

Lemma mkdirs_all_dirs target todo fs :
  (∀ p, p ∈ todo → fs !! p = Some Dir) → mkdirs target todo fs = inr fs.
Proof.
  induction todo as [|p todo IH]; intros H; simpl; [done|].
  rewrite (H p) by (by apply elem_of_cons; left).
  apply IH. intros q Hq. apply H. by apply elem_of_cons; right.
Qed.

(** X24. When [_check_explorer_directory] returns, the path and all its
    ancestors are directories; what existed before is still there as it
    was, and only missing ancestors of the path were created. *)
Theorem check_explorer_directory_creates path fs fs' :
  _check_explorer_directory path fs = inr fs' →
  lookup_path fs' path = Some Dir ∧
  (∀ p, p `prefix_of` path → lookup_path fs' p = Some Dir) ∧
  fs ⊆ fs' ∧
  (∀ q, fs' !! q ≠ fs !! q → q `prefix_of` path ∧ fs !! q = None).
Proof.
  unfold _check_explorer_directory, mkdir_parents_exist_ok. intros H.
  assert (Hm : mkdirs path (ancestors path) fs = inr fs').
  { by destruct (lookup_path fs path) as [[|]|]. }
  clear H. apply mkdirs_inr in Hm as (Hsub & Hdir & Hnew).
  assert (Hprefix : ∀ p, p `prefix_of` path → lookup_path fs' p = Some Dir).
  { intros [|c p] Hp; [done|]. simpl. apply Hdir, elem_of_ancestors. by split. }
  split; [by apply Hprefix|]. split; [done|]. split; [done|].
  intros q Hq. destruct (Hnew q Hq) as [Hin Hnone]. split; [|done].
  by apply elem_of_ancestors in Hin as [_ ?].
Qed.


(** X26. [_check_explorer_directory] can be repeated: on the file system left
    by a call that returned, a second call returns and changes nothing. *)
Theorem check_explorer_directory_idempotent path fs fs' :
  _check_explorer_directory path fs = inr fs' →
  _check_explorer_directory path fs' = inr fs'.
Proof.
  unfold _check_explorer_directory, mkdir_parents_exist_ok. intros H.
  assert (Hm : mkdirs path (ancestors path) fs = inr fs').
  { by destruct (lookup_path fs path) as [[|]|]. }
  apply mkdirs_inr in Hm as (_ & Hdir & _).
  assert (Hpath : lookup_path fs' path = Some Dir).
  { destruct path as [|c p]; [done|]. simpl. apply Hdir, elem_of_ancestors. by split. }
  rewrite Hpath. by apply mkdirs_all_dirs.
Qed.
End ExplorerFacts.

Section BaysorConfigFacts.
Import BaysorConfig.
Variable TRANSCRIPTS : string.
Variable ATTRS_KEY : string.

(** X27. A default configuration is returned exactly when [sdata.attrs] names a
    transcripts element whose attributes hold a non-empty feature key; its
    gene column then is that feature key, so that the assertion of [baysor]
    on the gene column holds for it. *)
Theorem get_default_config_gene sdata :
  (∀ c, _get_default_config TRANSCRIPTS ATTRS_KEY sdata = inr c ↔
        ∃ points_key element d feature_key,
          attrs sdata !! TRANSCRIPTS = Some points_key ∧ points_key ≠ "" ∧
          element_attrs sdata !! points_key = Some element ∧
          element !! ATTRS_KEY = Some d ∧
          d !! "feature_key" = Some feature_key ∧ feature_key ≠ "" ∧
          c = mkDefault "x" "y" feature_key 10 20 true (8 # 10)) ∧
  (∀ c, _get_default_config TRANSCRIPTS ATTRS_KEY sdata = inr c →
        ∃ gene, Baysor.data_gene (to_config c) = Some gene ∧ gene ≠ "").
Proof.
  assert (Htruthy : ∀ (v : option string) msg s,
            assert_truthy v msg = inr s ↔ v = Some s ∧ s ≠ "").
  { intros [v|] msg s; simpl; [|split; [discriminate|by intros [? _]]].
    destruct (String.eqb_spec v ""); split.
    - discriminate.
    - intros [[= <-] ?]. done.
    - intros [= <-]. done.
    - by intros [[= <-] _]. }
  assert (Hiff : ∀ c, _get_default_config TRANSCRIPTS ATTRS_KEY sdata = inr c ↔
        ∃ points_key element d feature_key,
          attrs sdata !! TRANSCRIPTS = Some points_key ∧ points_key ≠ "" ∧
          element_attrs sdata !! points_key = Some element ∧
          element !! ATTRS_KEY = Some d ∧
          d !! "feature_key" = Some feature_key ∧ feature_key ≠ "" ∧
          c = mkDefault "x" "y" feature_key 10 20 true (8 # 10)).
  { intros c. unfold _get_default_config, bind_config, getkey. split.
    - destruct (assert_truthy (attrs sdata !! TRANSCRIPTS) _) as [e|pk] eqn:Hpk;
        [discriminate|].
      apply Htruthy in Hpk as [Hpk Hne1].
      destruct (element_attrs sdata !! pk) as [el|] eqn:Hel; [|discriminate].
      destruct (el !! ATTRS_KEY) as [d|] eqn:Hd; [|discriminate].
      destruct (assert_truthy (d !! "feature_key") _) as [e|fk] eqn:Hfk;
        [discriminate|].
      apply Htruthy in Hfk as [Hfk Hne2].
      intros [= <-]. by exists pk, el, d, fk.
    - intros (pk & el & d & fk & Hpk & Hne1 & Hel & Hd & Hfk & Hne2 & ->).
      rewrite (proj2 (Htruthy _ _ pk)) by done. rewrite Hel, Hd.
      by rewrite (proj2 (Htruthy _ _ fk)). }
  split; [exact Hiff|].
  intros c Hc. apply Hiff in Hc as (pk & el & d & fk & _ & _ & _ & _ & _ & Hne & ->).
  by exists fk.
Qed.
End BaysorConfigFacts.

Section RasterizeFacts.
Context {F : Type}.
Variable fadd : F → F → F.
Variable of_int : Z → F.
Variable to_int32 : F → Z.
Variable fillPoly : list (list Z) → list (Z * Z) → raster_exception + list (list Z).

Let run := rasterize fadd of_int to_int32 fillPoly.
Let fill := fill_geoms to_int32 fillPoly.

Lemma fill_geoms_shape rows cols geoms : ∀ image image',
  (∀ image points image' rows cols,
     fillPoly image points = inr image' →
     has_shape rows cols image → has_shape rows cols image') →
  fill image geoms = inr image' →
  has_shape rows cols image → has_shape rows cols image'.
Proof.
  induction geoms as [|g gs IH]; intros image image' Hfill; simpl.
  - by intros [= <-].
  - destruct (fillPoly image _) as [e|image1] eqn:H1; [discriminate|].
    intros H Hs. eapply IH; [exact Hfill|exact H|]. eapply Hfill; [exact H1|exact Hs].
Qed.

Lemma fill_geoms_returns geoms : ∀ image,
  (∀ image points, points ≠ [] → ∃ image', fillPoly image points = inr image') →
  Forall (fun p : Polygon F => exterior p ≠ []) geoms →
  ∃ image', fill image geoms = inr image'.
Proof.
  induction geoms as [|g gs IH]; intros image Hok Hall; simpl; [by eexists|].
  apply Forall_cons in Hall as [Hg Hgs].
  destruct (Hok image (map (fun p : F * F => (to_int32 p.1, to_int32 p.2)) (exterior g)))
    as [image1 H1].
  { by destruct (exterior g). }
  rewrite H1. by apply IH.
Qed.

(** X28. When [fillPoly] keeps the shape of the image it draws on:
    [rasterize] returns only images of the requested shape, whatever the
    origin; it returns one when the shape is not negative, the polygons have
    coordinates and [fillPoly] accepts every ring with points; it raises
    the ValueError of numpy for a negative shape; on a polygon without
    coordinates it raises what [fillPoly] raises without points; and it
    never reads the holes of a polygon. *)
Theorem rasterize_shape cell shape xy_min :
  (∀ image points image' rows cols,
     fillPoly image points = inr image' →
     has_shape rows cols image → has_shape rows cols image') →
  (∀ image, run cell shape xy_min = inr image →
            has_shape (Z.to_nat shape.1) (Z.to_nat shape.2) image) ∧
  ((0 <= shape.1)%Z → (0 <= shape.2)%Z →
   (∀ image points, points ≠ [] → ∃ image', fillPoly image points = inr image') →
   Forall (fun p : Polygon F => exterior p ≠ [])
          match cell with inl p => [p] | inr ps => ps end →
   ∃ image, run cell shape xy_min = inr image ∧
            has_shape (Z.to_nat shape.1) (Z.to_nat shape.2) image) ∧
  ((shape.1 < 0)%Z ∨ (shape.2 < 0)%Z →
   run cell shape xy_min
   = inl (NumpyError (ValueError "negative dimensions are not allowed"))) ∧
  (∀ p e, (0 <= shape.1)%Z → (0 <= shape.2)%Z → exterior p = [] →
          (∀ image, fillPoly image [] = inl e) →
          run (inl p) shape xy_min = inl e) ∧
  (∀ p, run (inl p) shape xy_min = run (inl (mkPolygon (exterior p) [])) shape xy_min).
Proof.
  intros Hfill. unfold run, rasterize, np_zeros.
  replace (xy_min.2 + shape.1 - xy_min.2)%Z with shape.1 by lia.
  replace (xy_min.1 + shape.2 - xy_min.1)%Z with shape.2 by lia.
  set (zeros := replicate (Z.to_nat shape.1) (replicate (Z.to_nat shape.2) 0%Z)).
  assert (Hzeros : has_shape (Z.to_nat shape.1) (Z.to_nat shape.2) zeros).
  { split; [apply length_replicate|]. apply Forall_replicate, length_replicate. }
  assert (Hreturned : ∀ image,
            match (if ((shape.1 <? 0) || (shape.2 <? 0))%Z
                   then raise (ValueError "negative dimensions are not allowed")
                   else ret zeros) with
            | inl e => inl (NumpyError e)
            | inr rasterized_image =>
                fill_geoms to_int32 fillPoly rasterized_image
                  match cell with
                  | inl p => [translate_polygon fadd (of_int (- xy_min.1))
                                (of_int (- xy_min.2)) p]
                  | inr ps => map (translate_polygon fadd (of_int (- xy_min.1))
                                     (of_int (- xy_min.2))) ps
                  end
            end = inr image →
            has_shape (Z.to_nat shape.1) (Z.to_nat shape.2) image).
  { intros image. destruct (_ || _)%Z; [discriminate|]. simpl. intros H.
    by eapply (fill_geoms_shape _ _ _ zeros image Hfill H). }
  split; [exact Hreturned|]. split; [|split; [|split]].
  - intros H1 H2 Hok Hall.
    destruct (Z.ltb_spec shape.1 0), (Z.ltb_spec shape.2 0); try lia. simpl.
    edestruct (fill_geoms_returns) as [image Himage]; [exact Hok| |].
    2: { exists image. split; [exact Himage|].
         by eapply (fill_geoms_shape _ _ _ zeros image Hfill Himage). }
    destruct cell as [p|ps]; simpl.
    + apply Forall_cons in Hall as [Hp _]. repeat constructor. simpl.
      unfold translate_ring. by destruct (exterior p).
    + apply Forall_fmap. eapply Forall_impl; [exact Hall|]. simpl.
      intros p Hp. unfold translate_ring. by destruct (exterior p).
  - intros [H|H].
    + destruct (Z.ltb_spec shape.1 0); [done|lia].
    + destruct (Z.ltb_spec shape.2 0); [|lia]. by rewrite orb_true_r.
  - intros p e H1 H2 Hp He.
    destruct (Z.ltb_spec shape.1 0), (Z.ltb_spec shape.2 0); try lia. simpl.
    rewrite Hp. simpl. by rewrite He.
  - reflexivity.
Qed.
End RasterizeFacts.

(** X29. The command [baysor] of the command line never succeeds: once the
    data is read, its call of [baysor] passes the keyword [patch_index],
    which the function of [_baysor.py] does not have, and Python raises a
    TypeError before the function runs. *)
Theorem cli_baysor_unexpected_keyword :
  ∀ (SData : Type) (read_zarr_standardized : string → Cli.cli_exception + SData)
    (baysor_body : SData → option string → Q → Cli.cli_exception + unit)
    (_log_whether_to_resolve : option Z → Cli.cli_exception + unit)
    (sdata_path : string) (config : option string) (patch_index : option Z)
    (min_area : Q),
    let run := Cli.baysor_command read_zarr_standardized baysor_body
                 _log_whether_to_resolve sdata_path config patch_index min_area in
    (∀ u, run ≠ inr u) ∧
    (∀ sdata, read_zarr_standardized sdata_path = inr sdata →
       run = inl (Cli.TypeError
                    "baysor() got an unexpected keyword argument 'patch_index'")).
Proof.
  intros. unfold run, Cli.baysor_command.
  assert (Hbind : Cli.bind_call "baysor" Cli.baysor_parameters 1
                    ["config"; "min_area"; "patch_index"]
                  = Some (Cli.TypeError
                      "baysor() got an unexpected keyword argument 'patch_index'"))
    by (vm_compute; reflexivity).
  rewrite Hbind. split.
  - intros u. by destruct (read_zarr_standardized sdata_path).
  - by intros sdata ->.
Qed.

Import Examples MoreExamples.

Lemma boxes_flt_irreflexive (a : Q) : Boxes.flt a a = false.
Proof.
  unfold Boxes.flt. apply negb_false_iff, Qle_bool_iff, Qle_refl.
Qed.

Lemma boxes_flt_lt (a b : Q) : Boxes.flt a b = true ↔ (a < b)%Q.
Proof.
  unfold Boxes.flt. rewrite negb_true_iff. destruct (Qle_bool b a) eqn:H.
  - apply Qle_bool_iff in H. split; [done|]. intros H'. Lqa.lra.
  - split; [|done]. intros _. apply Qnot_le_lt. intros H'.
    apply Qle_bool_iff in H'. congruence.
Qed.

Lemma boxes_flt_transitive (a b c : Q) :
  Boxes.flt a b = true → Boxes.flt b c = true → Boxes.flt a c = true.
Proof. rewrite !boxes_flt_lt. Lqa.lra. Qed.

(** Of two overlapping squares and a third one apart from them, the third is returned under its own label. *)
Lemma solve_conflicts_untouched_cell_witness :
  ∃ k, index (mkFrame [2; 4] [far; Boxes.box 0 0 14 10]) !! k = Some 2 ∧
       geometry_col (mkFrame [2; 4] [far; Boxes.box 0 0 14 10]) !! k = Some far ∧
       (true = true → ∃ l, Some [2; -1]%Z = Some l ∧ l !! k = Some (Z.of_nat 2)).
Proof.
  apply (solve_conflicts_untouched_cell Boxes.area Boxes.make_valid Boxes.flt Boxes.fle
           Boxes.fmul Boxes.intersection Boxes.union Boxes.query
           [sqA; sqB; far] (1 # 2)%Q None true [(0, 1); (1, 0)] 2 far).
  - vm_compute. reflexivity.
  - repeat constructor; simpl; lia.
  - reflexivity.
  - vm_compute. reflexivity.
Defined.

(** Two squares sharing 60% of their area are returned as one cell. *)
Lemma solve_conflicts_merge_reduces_witness :
  length (geometry_col (mkFrame [3] [Boxes.box 0 0 14 10])) < length [sqA; sqB].
Proof.
  apply (solve_conflicts_merge_reduces Boxes.area Boxes.make_valid Boxes.flt Boxes.fle
           Boxes.fmul Boxes.intersection Boxes.union Boxes.query
           [sqA; sqB] (1 # 2)%Q None true [] (0, 1) [(1, 0)]
           ([0; 1], [sqA; sqB]) 0 1 sqA sqB _ (Some [(-1)%Z]));
    vm_compute; reflexivity.
Defined.

(** Two squares sharing 10% of their area are returned as they are. *)
Lemma solve_conflicts_below_threshold_witness :
  Boxes.solve Boxes.query [edgeA; edgeB] (1 # 2)%Q None true
  = inr (frame_of_list [edgeA; edgeB], Some (map Z.of_nat (seq 0 2))).
Proof.
  apply (solve_conflicts_below_threshold Boxes.area Boxes.make_valid Boxes.flt Boxes.fle
           Boxes.fmul Boxes.intersection Boxes.union Boxes.query
           [edgeA; edgeB] (1 # 2)%Q None true).
  - done.
  - vm_compute. repeat constructor.
  - discriminate.
  - intros [|[|i]] [|[|j]] c1 c2 Hij H1 H2; simpl in H1, H2; try done;
      injection H1 as <-; injection H2 as <-; vm_compute; reflexivity.
Defined.

(** Two squares sharing 60% of their area and carrying the same tag are returned as they are. *)
Lemma solve_conflicts_same_patch_witness :
  Boxes.solve Boxes.query [sqA; sqB] (1 # 2)%Q (Some [7; 7]%Z) true
  = inr (frame_of_list [sqA; sqB], Some (map Z.of_nat (seq 0 2))).
Proof.
  apply (solve_conflicts_same_patch Boxes.area Boxes.make_valid Boxes.flt Boxes.fle
           Boxes.fmul Boxes.intersection Boxes.union Boxes.query
           [sqA; sqB] (1 # 2)%Q [7; 7]%Z 7%Z true).
  - done.
  - vm_compute. repeat constructor.
  - reflexivity.
  - by repeat constructor.
Defined.

(** The frame returned for two overlapping squares and a third one apart from them. *)
Lemma solve_conflicts_result_wellformed_witness :
  let frame := mkFrame [2; 4] [far; Boxes.box 0 0 14 10] in
  geometry_col frame ≠ [] ∧
  length (index frame) = length (geometry_col frame) ∧
  StronglySorted lt (index frame) ∧
  (Forall (fun c => is_empty c = false) [sqA; sqB; far] →
   Forall (fun c => is_empty c = false) (geometry_col frame)).
Proof.
  apply (solve_conflicts_result_wellformed Boxes.area Boxes.make_valid Boxes.flt
           Boxes.fle Boxes.fmul Boxes.intersection Boxes.union Boxes.query
           [sqA; sqB; far] (1 # 2)%Q None true _ (Some [2; -1]%Z)).
  vm_compute. reflexivity.
Defined.

(** Three cells tagged 0, 1, 0: the pairs of different tags are kept; an index beyond two tags is an IndexError. *)
Lemma solve_conflicts_candidates_witness :
  filter_conflicts (Some [0; 1; 0]%Z) [(0, 0); (0, 1); (0, 2); (1, 2); (2, 1)]
  = inr [(0, 1); (1, 2); (2, 1)] ∧
  filter_conflicts (Some [0; 1]%Z) [(0, 1); (0, 2)] = inl IndexError.
Proof.
  destruct (solve_conflicts_candidates [0; 1; 0]%Z
              [(0, 0); (0, 1); (0, 2); (1, 2); (2, 1)]) as (H1 & _ & _).
  destruct (solve_conflicts_candidates [0; 1]%Z [(0, 1); (0, 2)]) as (_ & H2 & _).
  split.
  - rewrite H1; [reflexivity|]. repeat constructor; simpl; lia.
  - apply H2. apply Exists_cons_tl, Exists_cons_hd. simpl. lia.
Defined.

(** A multi-polygon without members raises. *)
Lemma ensure_polygon_raises_iff_witness :
  Boxes.ensure_polygon (GMultiPolygon []) = inl (ValueError "max() arg is an empty sequence").
Proof.
  apply (ensure_polygon_raises_iff Boxes.area Boxes.make_valid Boxes.flt).
  split; reflexivity.
Defined.

(** A multi-polygon of a unit square and two larger squares. *)
Lemma ensure_polygon_multi_largest_witness :
  ∃ m, Boxes.ensure_polygon small_big = inr m ∧ m ∈ [small; sqA; far] ∧
       ∀ g, g ∈ [small; sqA; far] →
            Boxes.flt (Boxes.area (GPolygon m)) (Boxes.area (GPolygon g)) = false.
Proof.
  apply (ensure_polygon_multi_largest Boxes.area Boxes.make_valid Boxes.flt
           small_big [small; sqA; far] boxes_flt_irreflexive boxes_flt_transitive).
  - reflexivity.
  - discriminate.
Defined.

(** A collection whose only polygon member is a unit square and whose multi-polygon member is larger: the unit square is returned. *)
Lemma ensure_polygon_collection_witness :
  ∃ m, Boxes.ensure_polygon mixed = inr m ∧ m ∈ [unit2] ∧
       _ensure_polygon_warnings Boxes.make_valid mixed = [] ∧
       ∀ g, g ∈ [unit2] →
            Boxes.flt (Boxes.area (GPolygon m)) (Boxes.area (GPolygon g)) = false.
Proof.
  apply (ensure_polygon_collection Boxes.area Boxes.make_valid Boxes.flt mixed
           [GPolygon unit2; GMultiPolygon [sqA]; line]
           boxes_flt_irreflexive boxes_flt_transitive eq_refl).
  discriminate.
Defined.

(** A square with a hole. *)
Lemma ensure_polygon_polygon_branch_witness :
  Boxes.ensure_polygon (GPolygon donut) = inr (mkPolygon (exterior donut) []) ∧
  Boxes.ensure_polygon (GPolygon (mkPolygon (exterior donut) []))
  = inr (mkPolygon (exterior donut) []) ∧
  _ensure_polygon_warnings Boxes.make_valid (GPolygon donut) = [].
Proof.
  apply (ensure_polygon_polygon_branch Boxes.area Boxes.make_valid Boxes.flt
           (GPolygon donut) donut); vm_compute; reflexivity.
Defined.

(** A line is removed. *)
Lemma ensure_polygon_warns_when_removed_witness :
  Boxes.ensure_polygon line = inr empty_polygon.
Proof.
  apply (ensure_polygon_warns_when_removed Boxes.area Boxes.make_valid Boxes.flt line).
  vm_compute. discriminate.
Defined.

(** A frame of a square, a line and a multi-polygon. *)
Lemma to_valid_polygons_result_witness :
  ∃ selected heap',
    to_valid_polygons Boxes.area Boxes.make_valid Boxes.flt 1%positive
      {[ 1%positive := frame0 ]} = inr (selected, heap') ∧
    selected ≠ 1%positive ∧
    ∃ out polygons,
      heap' !! selected = Some out ∧
      mapM Boxes.ensure_polygon (geometry_col frame0) = inr polygons ∧
      length (index out) = length (geometry_col out) ∧
      sublist (zip (index out) (geometry_col out))
              (zip (index frame0) (map GPolygon polygons)) ∧
      Forall (fun g => ∃ p, g = GPolygon p ∧ is_empty p = false) (geometry_col out).
Proof.
  destruct (to_valid_polygons Boxes.area Boxes.make_valid Boxes.flt 1%positive
              {[ 1%positive := frame0 ]}) as [e|[selected heap']] eqn:Hrun;
    [vm_compute in Hrun; discriminate|].
  exists selected, heap'. split; [reflexivity|].
  destruct (to_valid_polygons_result Boxes.area Boxes.make_valid Boxes.flt
              1%positive {[ 1%positive := frame0 ]} frame0 selected heap')
    as (Hne & _ & H); [reflexivity|exact Hrun|].
  split; [exact Hne|exact H].
Defined.

(** A frame of a square, a line and a multi-polygon: the frame passed holds the empty polygon for the line. *)
Lemma to_valid_polygons_in_place_witness :
  ∃ selected heap',
    to_valid_polygons Boxes.area Boxes.make_valid Boxes.flt 1%positive
      {[ 1%positive := frame0 ]} = inr (selected, heap') ∧
    heap' !! 1%positive
    = Some (mkFrame [0; 1; 2] [GPolygon sqA; GPolygon empty_polygon; GPolygon sqA]).
Proof.
  destruct (to_valid_polygons Boxes.area Boxes.make_valid Boxes.flt 1%positive
              {[ 1%positive := frame0 ]}) as [e|[selected heap']] eqn:Hrun;
    [vm_compute in Hrun; discriminate|].
  exists selected, heap'. split; [reflexivity|].
  destruct (to_valid_polygons_in_place Boxes.area Boxes.make_valid Boxes.flt
              1%positive {[ 1%positive := frame0 ]} frame0 selected heap')
    as (polygons & Hp & _ & Hheap & _); [reflexivity|exact Hrun|].
  etrans; [exact Hheap|]. vm_compute in Hp. injection Hp as <-. reflexivity.
Defined.

(** The bounds (0.5, 1.5, 2.5, 7). *)
Lemma pixel_outer_bounds_contains_witness :
  ∃ x0 y0 x1 y1 : Z,
    pixel_outer_bounds (1 # 2, 3 # 2, 5 # 2, 7)%Q = [x0; y0; x1; y1] ∧
    (inject_Z x0 <= 1 # 2 ∧ 1 # 2 < inject_Z (x0 + 1))%Q ∧
    (inject_Z y0 <= 3 # 2 ∧ 3 # 2 < inject_Z (y0 + 1))%Q ∧
    (5 # 2 < inject_Z x1 ∧ inject_Z x1 < (5 # 2) + 2)%Q ∧
    (7 < inject_Z y1 ∧ inject_Z y1 < 7 + 2)%Q ∧
    ((1 # 2 <= 5 # 2)%Q → (x0 < x1)%Z) ∧
    ((3 # 2 <= 7)%Q → (y0 < y1)%Z).
Proof. apply (pixel_outer_bounds_contains (1 # 2) (3 # 2) (5 # 2) 7). Defined.

(** The radii 5 and 25. *)
Lemma default_tolerance_monotone_witness :
  (_default_tolerance Boxes.flt (fun q : Q => q) 5 <=
   _default_tolerance Boxes.flt (fun q : Q => q) 25)%Q.
Proof.
  apply (default_tolerance_monotone 5 25). vm_compute. discriminate.
Defined.

(** A mask with the labels 1 and 3: the rows 0 and 2. *)
Lemma geometrize_cells_witness :
  ∃ df, PyFrame (mkFrame [0; 2]
                   [mkPolygon [(0, 0); (0, 1); (1, 1); (1, 0); (0, 0)]%Q [];
                    mkPolygon [(2, 1); (2, 2); (3, 2); (3, 1); (2, 1)]%Q []])
        = PyFrame df ∧
        length (index df) = length (geometry_col df) ∧
        length (geometry_col df) ≤ Z.to_nat 3 ∧
        StronglySorted lt (index df) ∧
        Forall (fun k => k < Z.to_nat 3) (index df) ∧
        Forall (fun p => is_empty p = false) (geometry_col df) ∧
        ∀ k p, (∃ j, index df !! j = Some k ∧ geometry_col df !! j = Some p) →
               k < Z.to_nat 3 ∧ is_empty p = false.
Proof.
  destruct (geometrize_cells Boxes.area Boxes.make_valid Boxes.flt Boxes.fmul Qdiv Qopp
              (fun q : Q => q) 3%Q GeometrizeDemo.fmean (fun q : Q => q)
              GeometrizeDemo.buffer GeometrizeDemo.simplify GeometrizeDemo.findContours
              GeometrizeDemo.mask (Some 0%Q) 0%Q 3%Z []
              (PyFrame (mkFrame [0; 2]
                   [mkPolygon [(0, 0); (0, 1); (1, 1); (1, 0); (0, 0)]%Q [];
                    mkPolygon [(2, 1); (2, 2); (3, 2); (3, 1); (2, 1)]%Q []])))
    as (df & Hv & H1 & H2 & H3 & H4 & H5 & Hrows).
  - reflexivity.
  - lia.
  - vm_compute. reflexivity.
  - exists df. repeat (split; [assumption|]).
    intros k p H. apply Hrows in H as (Hk & _ & He). by split.
Defined.

(** Both patches have their result file: a process that would fail is not run. *)
Lemma baysor_recover_skips_witness :
  let self := Baysor.mkBaysorPatch "baysor" true false true None in
  let w := Baysor.mkWorld MoreDemos.finished_files [] in
  Forall (fun patch_dir => Baysor.call BaysorDemo.fail_all self patch_dir w = inr w)
         BaysorDemo.dirs ∧
  Baysor._run_with_backend (map (Baysor.call BaysorDemo.fail_all self) BaysorDemo.dirs) w
  = inr w.
Proof.
  intros self w.
  apply (baysor_recover_skips BaysorDemo.fail_all self BaysorDemo.dirs w).
  - reflexivity.
  - repeat constructor; apply (bool_decide_unpack _); vm_compute; exact I.
Defined.


(** In tolerant mode, the process fails on the first of two patches. *)
Lemma baysor_batch_warnings_witness :
  ∃ extra, [BaysorDemo.failure_warning "patches/0"] = [] ++ extra ∧
           length extra ≤ length BaysorDemo.dirs ∧
           (true = false → extra = []).
Proof.
  apply (baysor_batch_warnings BaysorDemo.run
           (Baysor.mkBaysorPatch "baysor" true true false None) BaysorDemo.dirs
           (Baysor.mkWorld ∅ [])
           (Baysor.mkWorld ({[ Baysor.artifact "patches/1" ]} ∪ ∅)
              [BaysorDemo.failure_warning "patches/0"])).
  vm_compute. reflexivity.
Defined.

(** An object without transcript patches, and a configuration without gene column. *)
Lemma baysor_checks_first_witness :
  BaysorDemo.baysor_with BaysorDemo.run (Baysor.mkSData false None None) None 0 true
    false false "baysor_boundaries" (Baysor.mkWorld ∅ [])
  = inl (AssertionError
           "Transcript patches not found in the SpatialData object. Run `sopa.make_transcript_patches(...)` first.") ∧
  BaysorDemo.baysor_with BaysorDemo.run BaysorDemo.sdata
    (Some (inl (Baysor.mkConfig None))) 0 true false false "baysor_boundaries"
    (Baysor.mkWorld ∅ [])
  = inl (AssertionError "Gene column not found in config['data']['gene']").
Proof.
  split.
  - apply (baysor_checks_first (BaysorDemo.with_version BaysorDemo.run) "."
             BaysorDemo.version_at_least BaysorDemo.get_executable_path
             BaysorDemo.get_default_config
             BaysorDemo.toml_load BaysorDemo.get_transcripts_patches_dirs
             BaysorDemo.copy_segmentation_config BaysorDemo.resolve BaysorDemo.rmtree).
    reflexivity.
  - apply (proj2 (baysor_checks_first (BaysorDemo.with_version BaysorDemo.run) "."
             BaysorDemo.version_at_least BaysorDemo.get_executable_path
             BaysorDemo.get_default_config
             BaysorDemo.toml_load BaysorDemo.get_transcripts_patches_dirs
             BaysorDemo.copy_segmentation_config BaysorDemo.resolve BaysorDemo.rmtree
             BaysorDemo.sdata (Some (inl (Baysor.mkConfig None))) 0%Z true false false
             "baysor_boundaries" (Baysor.mkWorld ∅ []))
             "baysor" (Baysor.mkConfig None)).
    + reflexivity.
    + reflexivity.
    + reflexivity.
    + by left.
Defined.

(** Both patches have their result file: a process that would fail is not run, and the consolidation is reached. *)
Lemma baysor_resume_witness :
  BaysorDemo.baysor_with BaysorDemo.fail_all BaysorDemo.sdata None 0 false true false
    "baysor_boundaries" (Baysor.mkWorld MoreDemos.finished_files [])
  = inr (Baysor.mkSData true None (Some "baysor_boundaries"),
         Baysor.mkWorld MoreDemos.resumed_files []).
Proof.
  etrans.
  - apply (baysor_resume (BaysorDemo.with_version BaysorDemo.fail_all) "."
             BaysorDemo.version_at_least BaysorDemo.get_executable_path
             BaysorDemo.get_default_config
             BaysorDemo.toml_load BaysorDemo.get_transcripts_patches_dirs
             BaysorDemo.copy_segmentation_config BaysorDemo.resolve BaysorDemo.rmtree
             BaysorDemo.sdata None 0%Z false false "baysor_boundaries"
             (Baysor.mkWorld MoreDemos.finished_files [])
             "baysor" (Baysor.mkConfig (Some "gene")) "gene" MoreDemos.resumed_files).
    + reflexivity.
    + reflexivity.
    + reflexivity.
    + reflexivity.
    + discriminate.
    + reflexivity.
    + discriminate.
    + repeat constructor; apply (bool_decide_unpack _); vm_compute; exact I.
  - reflexivity.
Defined.

(** The transcripts element names the feature key genes. *)
Lemma get_default_config_gene_witness :
  BaysorConfig._get_default_config "transcripts_dataframe" "spatialdata_attrs"
    MoreDemos.sdata_attrs
  = inr (BaysorConfig.mkDefault "x" "y" "genes" 10 20 true (8 # 10)).
Proof.
  apply (proj1 (get_default_config_gene "transcripts_dataframe" "spatialdata_attrs"
                  MoreDemos.sdata_attrs)).
  exists "transcripts", {[ "spatialdata_attrs" := {[ "feature_key" := "genes" ]} ]},
    {[ "feature_key" := "genes" ]}, "genes".
  repeat split; first [ discriminate | vm_compute; reflexivity ].
Defined.

(** A new directory two levels below an existing one. *)
Lemma check_explorer_directory_creates_witness :
  ∃ fs',
    Explorer._check_explorer_directory ["data"; "explorer"; "out"] MoreDemos.disk = inr fs' ∧
    Explorer.lookup_path fs' ["data"; "explorer"; "out"] = Some Explorer.Dir ∧
    (∀ p, p `prefix_of` ["data"; "explorer"; "out"] →
          Explorer.lookup_path fs' p = Some Explorer.Dir) ∧
    MoreDemos.disk ⊆ fs' ∧
    (∀ q, fs' !! q ≠ MoreDemos.disk !! q →
          q `prefix_of` ["data"; "explorer"; "out"] ∧ MoreDemos.disk !! q = None).
Proof.
  destruct (Explorer._check_explorer_directory ["data"; "explorer"; "out"] MoreDemos.disk)
    as [e|fs'] eqn:Hrun; [vm_compute in Hrun; discriminate|].
  exists fs'. split; [reflexivity|].
  apply (check_explorer_directory_creates ["data"; "explorer"; "out"] MoreDemos.disk fs').
  exact Hrun.
Defined.


(** A new directory two levels below an existing one, checked twice. *)
Lemma check_explorer_directory_idempotent_witness :
  ∃ fs',
    Explorer._check_explorer_directory ["data"; "explorer"; "out"] MoreDemos.disk = inr fs' ∧
    Explorer._check_explorer_directory ["data"; "explorer"; "out"] fs' = inr fs'.
Proof.
  destruct (Explorer._check_explorer_directory ["data"; "explorer"; "out"] MoreDemos.disk)
    as [e|fs'] eqn:Hrun; [vm_compute in Hrun; discriminate|].
  exists fs'. split; [reflexivity|].
  apply (check_explorer_directory_idempotent ["data"; "explorer"; "out"] MoreDemos.disk fs').
  exact Hrun.
Defined.

Lemma fill_rectangle_has_shape image points image' rows cols :
  fill_rectangle image points = inr image' →
  has_shape rows cols image → has_shape rows cols image'.
Proof.
  destruct points as [|p ps]; [discriminate|]. unfold fill_rectangle.
  intros [= <-] [Hr Hc]. split.
  - by rewrite length_imap.
  - apply Forall_lookup. intros i row Hi. rewrite list_lookup_imap in Hi.
    destruct (image !! i) as [row0|] eqn:Hrow; simplify_eq/=.
    rewrite length_imap. by eapply (Forall_lookup_1 _ _ _ _ Hc).
Qed.

Lemma fill_rectangle_returns image points :
  points ≠ [] → ∃ image', fill_rectangle image points = inr image'.
Proof. destruct points; [done|]. intros _. by eexists. Qed.

(** A unit square on an image of 3 rows and 6 columns, and the polygon without coordinates. *)
Lemma rasterize_shape_witness :
  (∃ image, MoreDemos.rasterize_boxes (inl unit2) (3, 6)%Z (0, 0)%Z = inr image ∧
            has_shape 3 6 image) ∧
  MoreDemos.rasterize_boxes (inl empty_polygon) (3, 6)%Z (0, 0)%Z
  = inl (Cv2Error "fillPoly: no points").
Proof.
  destruct (rasterize_shape Qplus inject_Z MoreDemos.to_int32 fill_rectangle
              (inl unit2) (3, 6)%Z (0, 0)%Z fill_rectangle_has_shape)
    as (_ & Hreturns & _ & Hempty & _).
  split.
  - apply Hreturns; [simpl; lia|simpl; lia|exact fill_rectangle_returns|].
    repeat constructor. discriminate.
  - apply Hempty; [simpl; lia|simpl; lia|reflexivity|reflexivity].
Defined.

(** The command on data that can be read. *)
Lemma cli_baysor_unexpected_keyword_witness :
  Cli.baysor_command (SData := unit) (fun _ => inr tt) (fun _ _ _ => inr tt)
    (fun _ => inr tt) "data.zarr" None None 0
  = inl (Cli.TypeError "baysor() got an unexpected keyword argument 'patch_index'").
Proof.
  apply (cli_baysor_unexpected_keyword unit (fun _ => inr tt) (fun _ _ _ => inr tt)
           (fun _ => inr tt) "data.zarr" None None 0%Q) with (sdata := tt).
  reflexivity.
Defined.
